(** * Knitting-pattern compiler and layout engine: a shallow embedding

    The JavaScript sources translated here are the pattern compiler
    [parsePattern], the grid seeder [addGridLayout], the coordinate remap,
    the crossing test of the tick handler and the scale-calibration loop of
    [applyForceSimulation], the geometry predicates [orientation],
    [onSegment], [doSegmentsIntersect], the input filter [countColumns] /
    [filterPattern] and the zoom and pan listeners of [setupDrawingCanvas]
    of the later revision of the script, and the line parser
    [parseKnittingPattern] of its first version.

    Conventions of the embedding.
    - A JavaScript string is a [string]; its characters stand for the code
      units 0..255.  White space, case folding and the word class of regular
      expressions are the JavaScript ones restricted to these code units.
    - Integers read by [parseInt] and counted by [countColumns] are exact
      ([Z]); the not-a-number result is [None].
    - Node ids and the stitch counter are [nat]; arrays are lists in array
      order, so [push] appends at the end and [pop] takes the last element.
    - A thrown [Error] is the [Throw] case of the [Exc] type.
    - Coordinates, weights and scales are rationals and their arithmetic is
      exact; rounding of double precision numbers is not modelled.  Where the
      source can divide by zero (the remap), the numbers carry [NaN] and the
      infinities as well.
    - The velocities the force library computes and the numbers drawn by
      [Math.random] are inputs of the functions that use them.
    - Logging and drawing are left out. *)

From Stdlib Require Import List String Ascii Bool Arith ZArith QArith Lia Lqa.
From Stdlib Require Import DecimalString DecimalPos.
Import ListNotations.
Close Scope Q_scope.
Open Scope string_scope.
Open Scope list_scope.
Open Scope Z_scope.
Open Scope nat_scope.

(** ** JavaScript string built-ins *)
Module Js.

(** White space of [trim] and of the [\s] class: TAB, LF, VT, FF, CR, SP, NBSP. *)
Definition isSpace (c : ascii) : bool :=
  let n := nat_of_ascii c in
  ((9 <=? n) && (n <=? 13)) || (n =? 32) || (n =? 160).

(** Word characters of [\w] and [\b]: [A-Za-z0-9_]. *)
Definition isWord (c : ascii) : bool :=
  let n := nat_of_ascii c in
  ((48 <=? n) && (n <=? 57)) || ((65 <=? n) && (n <=? 90)) ||
  ((97 <=? n) && (n <=? 122)) || (n =? 95).

Definition lowerChar (c : ascii) : ascii :=
  let n := nat_of_ascii c in
  if ((65 <=? n) && (n <=? 90)) ||
     ((192 <=? n) && (n <=? 222) && negb (n =? 215))
  then ascii_of_nat (n + 32) else c.

Fixpoint toLowerCase (s : string) : string :=
  match s with
  | EmptyString => EmptyString
  | String c s' => String (lowerChar c) (toLowerCase s')
  end.

Fixpoint trimStart (s : string) : string :=
  match s with
  | EmptyString => EmptyString
  | String c s' => if isSpace c then trimStart s' else s
  end.

Fixpoint trimEnd (s : string) : string :=
  match s with
  | EmptyString => EmptyString
  | String c s' =>
      match trimEnd s' with
      | EmptyString => if isSpace c then EmptyString else String c EmptyString
      | r => String c r
      end
  end.

Definition trim (s : string) : string := trimEnd (trimStart s).

Definition isEmpty (s : string) : bool :=
  match s with EmptyString => true | _ => false end.

(** [s.split(sep)] for a one-character separator. *)
Fixpoint split (sep : ascii) (s : string) : list string :=
  match s with
  | EmptyString => [EmptyString]
  | String c s' =>
      if Ascii.eqb c sep then EmptyString :: split sep s'
      else match split sep s' with
           | h :: t => String c h :: t
           | [] => [String c EmptyString]
           end
  end.

(** [s.split(/\s+/)]: [inSep] tells that the previous character belonged to
    the separator run being skipped. *)
Fixpoint splitWsFrom (inSep : bool) (s : string) : list string :=
  match s with
  | EmptyString => [EmptyString]
  | String c s' =>
      if isSpace c then
        if inSep then splitWsFrom true s'
        else EmptyString :: splitWsFrom true s'
      else match splitWsFrom false s' with
           | h :: t => String c h :: t
           | [] => [String c EmptyString]
           end
  end.

Definition splitWs (s : string) : list string := splitWsFrom false s.

Definition startsWith (s p : string) : bool := String.prefix p s.

Fixpoint lastChar (s : string) : option ascii :=
  match s with
  | EmptyString => None
  | String c EmptyString => Some c
  | String _ s' => lastChar s'
  end.

(** [s.endsWith(c)] for a one-character argument. *)
Definition endsWithChar (s : string) (c : ascii) : bool :=
  match lastChar s with
  | Some d => Ascii.eqb d c
  | None => false
  end.

(** [s.substring(n)]. *)
Fixpoint substring (n : nat) (s : string) : string :=
  match n, s with
  | O, _ => s
  | S n', String _ s' => substring n' s'
  | S _, EmptyString => EmptyString
  end.

(** Value of a digit in the given radix, if it is one. *)
Definition digitValue (radix : Z) (c : ascii) : option Z :=
  let n := nat_of_ascii c in
  let v := if (48 <=? n) && (n <=? 57) then n - 48
           else if (97 <=? n) && (n <=? 122) then n - 87
           else if (65 <=? n) && (n <=? 90) then n - 55
           else 36 in
  if (Z.of_nat v <? radix)%Z then Some (Z.of_nat v) else None.

(** Longest prefix of digits, read most significant first; [seen] tells that
    at least one digit was read. *)
Fixpoint readDigits (radix : Z) (acc : Z) (seen : bool) (s : string)
  : option Z :=
  match s with
  | EmptyString => if seen then Some acc else None
  | String c s' =>
      match digitValue radix c with
      | Some v => readDigits radix (acc * radix + v)%Z true s'
      | None => if seen then Some acc else None
      end
  end.

(** [parseInt(s)] with no radix argument: leading white space, an optional
    sign, an optional [0x]/[0X] prefix, then the longest digit prefix. *)
Definition parseInt (s : string) : option Z :=
  let s1 := trimStart s in
  let '(sign, s2) :=
    match s1 with
    | String "-"%char r => ((-1)%Z, r)
    | String "+"%char r => (1%Z, r)
    | _ => (1%Z, s1)
    end in
  let '(radix, s3) :=
    match s2 with
    | String "0"%char (String "x"%char r) => (16%Z, r)
    | String "0"%char (String "X"%char r) => (16%Z, r)
    | _ => (10%Z, s2)
    end in
  match readDigits radix 0%Z false s3 with
  | Some v => Some (sign * v)%Z
  | None => None
  end.

End Js.

(** ** Pattern compiler ([parsePattern]) *)
Module Compiler.

Record Technique := mkTechnique {
  character : string;
  kill : nat;
  add : nat;
  cursor_dir : bool
}.

Definition loadStitchTechniques : list (string * Technique) :=
  [ ("k",      mkTechnique "k" 1 1 false);
    ("co",     mkTechnique "k" 0 1 false);
    ("yo",     mkTechnique "k" 0 1 false);
    ("bo",     mkTechnique "k" 1 0 false);
    ("p",      mkTechnique "p" 1 1 false);
    ("kfb",    mkTechnique "k" 1 2 false);
    ("kfb3",   mkTechnique "k" 1 3 false);
    ("kfb4",   mkTechnique "k" 1 4 false);
    ("kfb5",   mkTechnique "k" 1 5 false);
    ("kfb3-3", mkTechnique "k" 3 3 false);
    ("ssk",    mkTechnique "k" 2 1 false);
    ("k2tog",  mkTechnique "k" 2 1 false);
    ("p2tog",  mkTechnique "p" 2 1 false);
    ("k3tog",  mkTechnique "k" 3 1 false);
    ("turn",   mkTechnique "k" 0 0 true) ].

Fixpoint assoc {A : Type} (key : string) (l : list (string * A)) : option A :=
  match l with
  | [] => None
  | (k, v) :: l' => if String.eqb key k then Some v else assoc key l'
  end.

(** Property names every object literal inherits from [Object.prototype];
    the [in] operator answers [true] for them as well. *)
Definition inheritedKeys : list string :=
  [ "constructor"; "__defineGetter__"; "__defineSetter__"; "hasOwnProperty";
    "__lookupGetter__"; "__lookupSetter__"; "isPrototypeOf";
    "propertyIsEnumerable"; "toString"; "valueOf"; "__proto__";
    "toLocaleString" ].

(** Outcome of [stitch in stitchTechniques] followed by
    [stitchTechniques[stitch]]: an entry of the table, an inherited property
    (whose [add], [kill] and [cursor_dir] are all [undefined]), or absent. *)
Inductive Membership :=
| Own (tech : Technique)
| Inherited
| Absent.

Definition lookupTechnique (stitch : string) : Membership :=
  match assoc stitch loadStitchTechniques with
  | Some tech => Own tech
  | None => if existsb (String.eqb stitch) inheritedKeys then Inherited
            else Absent
  end.

Inductive EdgeType := horizontal | vertical.

Record Node := mkNode {
  id : nat;
  node_type : string;
  node_character : string;
  technique : Technique
}.

Record Edge := mkEdge {
  source : nat;
  target : nat;
  weight : Q;
  edge_type : EdgeType
}.

Definition weightH : Q := 1%Q.
Definition weightV : Q := (3 # 2)%Q.

Record State := mkState {
  allNodes : list Node;
  allEdges : list Edge;
  rightNeedle : list nat;
  leftNeedle : list nat;
  count : nat;
  edgeFlag : bool
}.

Definition initialState : State := mkState [] [] [] [] 0 true.

Inductive Exc (A : Type) :=
| Ok (a : A)
| Throw (message : string).
Arguments Ok {A} a.
Arguments Throw {A} message.

Definition bind {A B : Type} (m : Exc A) (f : A -> Exc B) : Exc B :=
  match m with
  | Ok a => f a
  | Throw e => Throw e
  end.

(** [needle.pop()]: the last element and the remaining prefix. *)
Definition pop (needle : list nat) : option (nat * list nat) :=
  match rev needle with
  | [] => None
  | x :: r => Some (x, rev r)
  end.

(** Body shared by the two stitch-creation loops: push the id on the right
    needle, record the node, then either link it to the previous node or
    consume the edge flag; finally advance the counter. *)
Definition createStitch (ty ch : string) (tech : Technique) (st : State)
  : State :=
  let c := count st in
  let link := negb (edgeFlag st) && (0 <? c) in
  mkState (allNodes st ++ [mkNode c ty ch tech])
          (if link then allEdges st ++ [mkEdge (c - 1) c weightH horizontal]
           else allEdges st)
          (rightNeedle st ++ [c])
          (leftNeedle st)
          (S c)
          (if link then edgeFlag st else false).

Definition coTechnique : Technique := mkTechnique "k" 0 1 false.

(** [for (j = 0; j < castOnCount; j++)] of the cast-on branch. *)
Fixpoint castOnLoop (n : nat) (st : State) : State :=
  match n with
  | O => st
  | S n' => castOnLoop n' (createStitch "co" "k" coTechnique st)
  end.

(** [for (j = 0; j < tech.add; j++)], collecting [addedStitches]. *)
Fixpoint addLoop (n : nat) (stitch : string) (tech : Technique)
                 (st : State) (addedStitches : list nat)
  : State * list nat :=
  match n with
  | O => (st, addedStitches)
  | S n' =>
      addLoop n' stitch tech
              (createStitch stitch (character tech) tech st)
              (addedStitches ++ [count st])
  end.

Definition emptyNeedleMessage (stitch : string) : string :=
  "Left needle is empty while processing kill stitches for " ++ stitch.

Definition unknownStitchMessage (stitch : string) : string :=
  "Unknown stitch '" ++ stitch ++ "'".

(** [for (j = 0; j < tech.kill; j++)]. *)
Fixpoint killLoop (n : nat) (stitch : string) (tech : Technique)
                  (addedStitches : list nat) (st : State) : Exc State :=
  match n with
  | O => Ok st
  | S n' =>
      match pop (leftNeedle st) with
      | Some (usedStitch, rest) =>
          killLoop n' stitch tech addedStitches
            (mkState (allNodes st)
                     (allEdges st ++
                      map (fun addedStitch =>
                             mkEdge usedStitch addedStitch weightV vertical)
                          addedStitches)
                     (rightNeedle st) rest (count st) (edgeFlag st))
      | None =>
          if 0 <? kill tech then Throw (emptyNeedleMessage stitch)
          else killLoop n' stitch tech addedStitches st
      end
  end.

(** The [tech.cursor_dir] swap of the two needles. *)
Definition swapNeedles (st : State) : State :=
  mkState (allNodes st) (allEdges st) (leftNeedle st) (rightNeedle st)
          (count st) true.

Definition execTechnique (stitch : string) (tech : Technique) (st : State)
  : Exc State :=
  let st1 := if cursor_dir tech then swapNeedles st else st in
  let '(st2, addedStitches) := addLoop (add tech) stitch tech st1 [] in
  killLoop (kill tech) stitch tech addedStitches st2.

(** The count of a cast-on token and whether the following token was
    consumed ([i++]). *)
Definition castOnCount (stitch : string) (next : option string) : Z * bool :=
  if String.eqb stitch "co" then
    match next with
    | Some nextToken =>
        match Js.parseInt nextToken with
        | Some num => (num, true)
        | None => (1%Z, false)
        end
    | None => (1%Z, false)
    end
  else
    match Js.parseInt (Js.substring 2 stitch) with
    | Some num => (num, false)
    | None => (1%Z, false)
    end.

(** One iteration of the token loop on [tokens[i]], given [tokens[i+1]] when
    it exists.  The boolean tells that the iteration advanced [i] itself. *)
Definition processToken (st : State) (s : string) (next : option string)
  : Exc (State * bool) :=
  let stitch := Js.toLowerCase s in
  if String.eqb stitch "co" || Js.startsWith stitch "co" then
    let '(n, skip) := castOnCount stitch next in
    Ok (castOnLoop (Z.to_nat n) st, skip)
  else
    match lookupTechnique stitch with
    | Own tech => bind (execTechnique stitch tech st)
                       (fun st' => Ok (st', false))
    | Inherited => Ok (st, false)
    | Absent =>
        if Js.startsWith stitch "c" && Js.endsWithChar stitch "c"%char
        then Ok (st, false)
        else Throw (unknownStitchMessage stitch)
    end.

(** [for (let i = 0; i < tokens.length; i++)]. *)
Fixpoint runTokens (st : State) (tokens : list string) : Exc State :=
  match tokens with
  | [] => Ok st
  | s :: rest =>
      match processToken st s (hd_error rest) with
      | Throw e => Throw e
      | Ok (st', skip) =>
          match skip, rest with
          | true, _ :: rest' => runTokens st' rest'
          | _, _ => runTokens st' rest
          end
      end
  end.

(** The rotation at the end of a non-blank line. *)
Definition endOfLine (st : State) : State :=
  match rightNeedle st with
  | [] => st
  | _ :: _ => mkState (allNodes st) (allEdges st) [] (rightNeedle st)
                      (count st) true
  end.

Definition lineTokens (trimmedLine : string) : list string :=
  filter (fun token => negb (Js.isEmpty (Js.trim token)))
         (Js.splitWs trimmedLine).

(** Body of [for (const line of lines)]. *)
Definition runLine (st : State) (line : string) : Exc State :=
  let trimmedLine := Js.trim line in
  if Js.isEmpty trimmedLine then Ok st
  else bind (runTokens st (lineTokens trimmedLine))
            (fun st' => Ok (endOfLine st')).

Fixpoint runLines (st : State) (lines : list string) : Exc State :=
  match lines with
  | [] => Ok st
  | line :: lines' => bind (runLine st line) (fun st' => runLines st' lines')
  end.

Record Result := mkResult {
  nodes : list Node;
  edges : list Edge;
  success : bool;
  error : option string
}.

Definition newline : ascii := ascii_of_nat 10.

Definition parsePattern (pattern : string) : Result :=
  let lines := Js.split newline (Js.trim pattern) in
  match runLines initialState lines with
  | Ok st => mkResult (allNodes st) (allEdges st) true None
  | Throw message => mkResult [] [] false (Some message)
  end.

(** The token rows the line loop works on: the tokens of every line whose
    trimmed text is not empty. *)
Definition tokenRows (pattern : string) : list (list string) :=
  map (fun line => lineTokens (Js.trim line))
      (filter (fun line => negb (Js.isEmpty (Js.trim line)))
              (Js.split newline (Js.trim pattern))).

(** The line loop over token rows. *)
Fixpoint runRows (st : State) (rows : list (list string)) : Exc State :=
  match rows with
  | [] => Ok st
  | tokens :: rows' =>
      bind (runTokens st tokens) (fun st' => runRows (endOfLine st') rows')
  end.

End Compiler.

(** ** Configurations of the token loop

    A configuration is the compiler state at the head of the token loop, the
    tokens of the current row still to be read, and the rows after it. *)
Module Exec.
Import Compiler.

(** The tokens left once an iteration is over: [skip] drops the token a bare
    [co] consumed as its count. *)
Definition advance (skip : bool) (rest : list string) : list string :=
  match skip, rest with
  | true, _ :: rest' => rest'
  | _, _ => rest
  end.

(** [Reach rows0 st tokens rows]: compiling the token rows [rows0] from the
    initial state arrives, without any throw so far, at state [st] with
    [tokens] left in the current row and [rows] left after it. *)
Inductive Reach (rows0 : list (list string))
  : State -> list string -> list (list string) -> Prop :=
| Reach_start : forall tokens rows,
    rows0 = tokens :: rows ->
    Reach rows0 initialState tokens rows
| Reach_token : forall st s rest rows st' skip,
    Reach rows0 st (s :: rest) rows ->
    processToken st s (hd_error rest) = Ok (st', skip) ->
    Reach rows0 st' (advance skip rest) rows
| Reach_line : forall st tokens rows,
    Reach rows0 st [] (tokens :: rows) ->
    Reach rows0 (endOfLine st) tokens rows.

End Exec.

(** ** Closed forms used to state what the loops build *)
Module Shape.
Import Compiler.

Definition hEdge (s t : nat) : Edge := mkEdge s t weightH horizontal.
Definition vEdge (s t : nat) : Edge := mkEdge s t weightV vertical.

(** Horizontal edges made while creating the [n] stitches [c], [c+1], ...:
    the first one is linked to its predecessor only when the flag is down
    and a predecessor exists, every later one always. *)
Fixpoint hLinks (flag : bool) (c n : nat) : list Edge :=
  match n with
  | O => []
  | S n' =>
      (if negb flag && (0 <? c) then [hEdge (c - 1) c] else [])
      ++ hLinks false (S c) n'
  end.

(** The state after creating [n] stitches of one kind in a row. *)
Definition grow (ty ch : string) (tech : Technique) (n : nat) (st : State)
  : State :=
  mkState (allNodes st ++ map (fun c => mkNode c ty ch tech)
                              (seq (count st) n))
          (allEdges st ++ hLinks (edgeFlag st) (count st) n)
          (rightNeedle st ++ seq (count st) n)
          (leftNeedle st)
          (count st + n)
          (match n with O => edgeFlag st | S _ => false end).

(** Vertical edges of a step: every consumed stitch to every added one,
    consumed stitches in pop order, added stitches in creation order. *)
Definition fan (used added : list nat) : list Edge :=
  flat_map (fun u => map (fun a => vEdge u a) added) used.

(** The state after [k] successful pops. *)
Definition consume (k : nat) (added : list nat) (st : State) : State :=
  mkState (allNodes st)
          (allEdges st ++ fan (firstn k (rev (leftNeedle st))) added)
          (rightNeedle st)
          (firstn (List.length (leftNeedle st) - k) (leftNeedle st))
          (count st)
          (edgeFlag st).

Definition kTechnique : Technique := mkTechnique "k" 1 1 false.
Definition coNode (c : nat) : Node := mkNode c "co" "k" coTechnique.
Definition kNode (c : nat) : Node := mkNode c "k" "k" kTechnique.

(** Edges made by knitting the stitches [used] (in pop order) one after the
    other, the first new stitch being [c]: each new stitch gets its
    horizontal link, if any, and then the vertical edge from the stitch it
    consumed. *)
Fixpoint knitEdges (flag : bool) (c : nat) (used : list nat) : list Edge :=
  match used with
  | [] => []
  | u :: used' =>
      hLinks flag c 1 ++ [vEdge u c] ++ knitEdges false (S c) used'
  end.

(** Edges of knit row [r] of width [n]; row 0 is the cast-on row. *)
Definition knitRow (n r : nat) : list Edge :=
  knitEdges true (n * r) (rev (seq (n * (r - 1)) n)).

Definition isVertical (e : Edge) : bool :=
  match edge_type e with vertical => true | horizontal => false end.

Definition isHorizontal (e : Edge) : bool :=
  match edge_type e with horizontal => true | vertical => false end.

(** The compiler state once the line of row [i] is over: the row sits on the
    left needle, the right needle is empty and the edge flag is raised. *)
Definition rowState (n i : nat) : State :=
  mkState (map coNode (seq 0 n) ++ map kNode (seq n (n * i)))
          (hLinks true 0 n ++ flat_map (knitRow n) (seq 1 i))
          []
          (seq (n * i) n)
          (n * S i)
          true.

End Shape.

(** ** Invariants of the compiler state *)
Module Invariant.
Import Compiler Shape.

(** Shape of an edge of the graph under construction. *)
Definition edgeOk (bound : nat) (e : Edge) : Prop :=
  target e < bound /\
  ((e = hEdge (source e) (target e) /\ target e = S (source e)) \/
   e = vEdge (source e) (target e)).

(** What holds of every state the compiler goes through: ids are dense,
    edges are well formed and end at existing nodes, and a lowered edge flag
    means that the newest node is the last stitch of the right needle. *)
Definition Inv (st : State) : Prop :=
  map id (allNodes st) = seq 0 (count st) /\
  Forall (edgeOk (count st)) (allEdges st) /\
  (edgeFlag st = false ->
   0 < count st /\ exists r, rightNeedle st = r ++ [count st - 1]).

(** [Later st st']: [st'] comes after [st].  Edges made in between end at
    nodes made in between, and a horizontal one never ends at the first node
    made after a state whose flag was raised. *)
Definition Later (st st' : State) : Prop :=
  count st <= count st' /\
  (forall e, In e (allEdges st') ->
     In e (allEdges st) \/
     (count st <= target e /\
      (edge_type e = horizontal -> edgeFlag st = true ->
       count st < target e))) /\
  (count st' = count st -> edgeFlag st = true -> edgeFlag st' = true).

End Invariant.

(** ** Grid seeding ([addGridLayout])

    Coordinates are rationals: the arithmetic of the seeder is modelled
    exactly.  The copies of the nodes made by the function form a store;
    the sorted array and the row groups hold references (indices) into it,
    as the JavaScript arrays hold references to the same objects. *)
Module Layout.
Import Compiler Shape.

Record Point := mkPoint { x : Q; y : Q }.

(** A copied node; its coordinates are unset until the layout assigns
    them. *)
Record Placed := mkPlaced {
  placed_node : Node;
  placed_at : option Point
}.

Definition Store := list Placed.

(** Id of the object a reference points to. *)
Definition idOf (store : Store) (ref : nat) : nat :=
  match nth_error store ref with
  | Some p => id (placed_node p)
  | None => 0
  end.

(** Insertion of a reference into an array sorted by id, before the first
    reference whose id is strictly larger is reached from the left. *)
Fixpoint insertById (store : Store) (ref : nat) (sorted : list nat)
  : list nat :=
  match sorted with
  | [] => [ref]
  | r :: sorted' =>
      if idOf store ref <=? idOf store r then ref :: r :: sorted'
      else r :: insertById store ref sorted'
  end.

(** [[...positionedNodes].sort((a, b) => a.id - b.id)]: a stable sort. *)
Definition sortById (store : Store) (refs : list nat) : list nat :=
  fold_right (insertById store) [] refs.

(** The test [edgeData.some(...)] between two consecutive sorted nodes. *)
Definition hasHorizontalEdge (edgeData : list Edge) (prevId nodeId : nat)
  : bool :=
  existsb (fun edge =>
             isHorizontal edge &&
             (((source edge =? prevId) && (target edge =? nodeId)) ||
              ((target edge =? prevId) && (source edge =? nodeId))))
          edgeData.

(** The grouping loop over the sorted nodes; [prev] is [sortedNodes[i-1]]. *)
Fixpoint groupLoop (store : Store) (edgeData : list Edge)
                   (prev : option nat) (currentRow : list nat)
                   (rowGroups : list (list nat)) (sorted : list nat)
  : list (list nat) * list nat :=
  match sorted with
  | [] => (rowGroups, currentRow)
  | ref :: sorted' =>
      match currentRow, prev with
      | _ :: _, Some prevRef =>
          if hasHorizontalEdge edgeData (idOf store prevRef) (idOf store ref)
          then groupLoop store edgeData (Some ref) (currentRow ++ [ref])
                         rowGroups sorted'
          else groupLoop store edgeData (Some ref) [ref]
                         (rowGroups ++ [currentRow]) sorted'
      | _, _ =>
          groupLoop store edgeData (Some ref) (currentRow ++ [ref])
                    rowGroups sorted'
      end
  end.

Definition groupRows (store : Store) (edgeData : list Edge)
                     (sorted : list nat) : list (list nat) :=
  let '(rowGroups, currentRow) :=
    groupLoop store edgeData None [] [] sorted in
  match currentRow with
  | [] => rowGroups
  | _ :: _ => rowGroups ++ [currentRow]
  end.

Definition ofNat (n : nat) : Q := inject_Z (Z.of_nat n).
Definition ofZ (n : Z) : Q := inject_Z n.

(** Assignment of [node.x] and [node.y] through a reference. *)
Fixpoint assign (ref : nat) (p : Point) (store : Store) : Store :=
  match store, ref with
  | [], _ => []
  | pl :: store', O => mkPlaced (placed_node pl) (Some p) :: store'
  | pl :: store', S ref' => pl :: assign ref' p store'
  end.

(** [processedRow.forEach((node, colIndex) => ...)]. *)
Fixpoint placeRow (gridSpacing rowStartX rowY : Q) (colIndex : nat)
                  (processedRow : list nat) (store : Store) : Store :=
  match processedRow with
  | [] => store
  | ref :: row' =>
      placeRow gridSpacing rowStartX rowY (S colIndex) row'
        (assign ref
                (mkPoint (rowStartX + ofNat colIndex * gridSpacing)%Q rowY)
                store)
  end.

(** [rowGroups.forEach((row, rowIndex) => ...)]. *)
Fixpoint placeRows (gridSpacing : Q) (center : Point) (numRows : nat)
                   (startY verticalSpacing : Q) (rowIndex : nat)
                   (rowGroups : list (list nat)) (store : Store) : Store :=
  match rowGroups with
  | [] => store
  | row :: rows' =>
      let rowY :=
        (startY + ofZ (Z.of_nat numRows - 1 - Z.of_nat rowIndex)
                  * verticalSpacing)%Q in
      let rowWidth :=
        (ofZ (Z.of_nat (List.length row) - 1) * gridSpacing)%Q in
      let horizontalOffset :=
        if Nat.even rowIndex then 0%Q else (gridSpacing / 2)%Q in
      let rowStartX := (x center - rowWidth / 2 + horizontalOffset)%Q in
      let processedRow := if Nat.even rowIndex then row else rev row in
      placeRows gridSpacing center numRows startY verticalSpacing
                (S rowIndex) rows'
                (placeRow gridSpacing rowStartX rowY 0 processedRow store)
  end.

Definition defaultGridSpacing : Q := 40%Q.
Definition defaultCenter : Point := mkPoint 400%Q 300%Q.

(** [addGridLayout(nodeData, edgeData, gridSpacing, center)].  The values
    [maxRowWidth], [gridWidth] and [startX] of the source are only logged
    and are left out. *)
Definition addGridLayout (nodeData : list Node) (edgeData : list Edge)
                         (gridSpacing : Q) (center : Point) : Store :=
  match nodeData with
  | [] => []
  | _ :: _ =>
      let positionedNodes := map (fun n => mkPlaced n None) nodeData in
      let sortedNodes :=
        sortById positionedNodes (seq 0 (List.length positionedNodes)) in
      let rowGroups := groupRows positionedNodes edgeData sortedNodes in
      let numRows := List.length rowGroups in
      let verticalSpacing := (gridSpacing * (8 # 10))%Q in
      let gridHeight := (ofZ (Z.of_nat numRows - 1) * verticalSpacing)%Q in
      let startY := (y center - gridHeight / 2)%Q in
      placeRows gridSpacing center numRows startY verticalSpacing 0
                rowGroups positionedNodes
  end.

End Layout.

(** ** Geometry predicates ([orientation], [onSegment],
       [doSegmentsIntersect])

    The predicates only subtract, multiply and compare numbers.  They are
    written over an arbitrary number type with these operations, so that
    what is proved for all operations holds in particular for the double
    precision numbers of JavaScript; [QOps] is the instance of exact
    rational arithmetic. *)
Module Geometry.

Record NumOps (num : Type) := mkNumOps {
  sub : num -> num -> num;
  mul : num -> num -> num;
  isZero : num -> bool;          (* [v === 0] *)
  isPositive : num -> bool;      (* [v > 0] *)
  leb : num -> num -> bool;      (* [a <= b] *)
  min : num -> num -> num;       (* [Math.min(a, b)] *)
  max : num -> num -> num        (* [Math.max(a, b)] *)
}.
Arguments sub {num}. Arguments mul {num}. Arguments isZero {num}.
Arguments isPositive {num}. Arguments leb {num}.
Arguments min {num}. Arguments max {num}.

Record Point (num : Type) := mkPoint { x : num; y : num }.
Arguments mkPoint {num}. Arguments x {num}. Arguments y {num}.

Section Predicates.
Context {num : Type} (ops : NumOps num).

Definition orientation (a b c : Point num) : nat :=
  let val := sub ops (mul ops (sub ops (y b) (y a)) (sub ops (x c) (x b)))
                     (mul ops (sub ops (x b) (x a)) (sub ops (y c) (y b))) in
  if isZero ops val then 0
  else if isPositive ops val then 1 else 2.

Definition onSegment (a b c : Point num) : bool :=
  leb ops (min ops (x a) (x c)) (x b) && leb ops (x b) (max ops (x a) (x c))
  && leb ops (min ops (y a) (y c)) (y b)
  && leb ops (y b) (max ops (y a) (y c)).

Definition doSegmentsIntersect (p1 p2 q1 q2 : Point num) : bool :=
  let o1 := orientation p1 p2 q1 in
  let o2 := orientation p1 p2 q2 in
  let o3 := orientation q1 q2 p1 in
  let o4 := orientation q1 q2 p2 in
  if negb (o1 =? o2) && negb (o3 =? o4) then true
  else if (o1 =? 0) && onSegment p1 q1 p2 then true
  else if (o2 =? 0) && onSegment p1 q2 p2 then true
  else if (o3 =? 0) && onSegment q1 p1 q2 then true
  else if (o4 =? 0) && onSegment q1 p2 q2 then true
  else false.

End Predicates.

Definition QOps : NumOps Q :=
  mkNumOps Q Qminus Qmult
           (fun v => Qeq_bool v 0)
           (fun v => negb (Qle_bool v 0))
           Qle_bool
           (fun a b => if Qle_bool a b then a else b)
           (fun a b => if Qle_bool a b then b else a).

(** The value whose sign [orientation] reports. *)
Definition cross (a b c : Point Q) : Q :=
  ((y b - y a) * (x c - x b) - (x b - x a) * (y c - y b))%Q.

(** The point of parameter [t] on the line through [a] with direction
    [d]. *)
Definition along (a d : Point Q) (t : Q) : Point Q :=
  mkPoint (x a + t * x d)%Q (y a + t * y d)%Q.

(** [w] lies between [a] and [b], whatever their order. *)
Definition between (a w b : Q) : Prop :=
  (a <= w /\ w <= b)%Q \/ (b <= w /\ w <= a)%Q.

End Geometry.

(** ** Coordinate remap and scale calibration ([applyForceSimulation]) *)
Module Simulation.

(** *** Numbers with the special values

    The remap can divide by zero, so its numbers keep the special values of
    JavaScript: not-a-number and the two infinities.  Finite values are exact
    rationals and there is one zero, which divides like [+0]: the divisor of
    the remap is a difference [max - min], whose zero is [+0]. *)
Inductive Num :=
| NaN
| Inf (negative : bool)
| Fin (q : Q).

Definition isNaN (a : Num) : bool :=
  match a with NaN => true | _ => false end.

(** Sign of a rational: [Lt] negative, [Eq] zero, [Gt] positive. *)
Definition signQ (q : Q) : comparison := (q ?= 0)%Q.

Definition sub (a b : Num) : Num :=
  match a, b with
  | NaN, _ | _, NaN => NaN
  | Fin p, Fin q => Fin (p - q)
  | Fin _, Inf s => Inf (negb s)
  | Inf s, Fin _ => Inf s
  | Inf s, Inf s' => if Bool.eqb s s' then NaN else Inf s
  end.

Definition mul (a b : Num) : Num :=
  match a, b with
  | NaN, _ | _, NaN => NaN
  | Fin p, Fin q => Fin (p * q)
  | Inf s, Inf s' => Inf (xorb s s')
  | Inf s, Fin q | Fin q, Inf s =>
      match signQ q with
      | Eq => NaN
      | Gt => Inf s
      | Lt => Inf (negb s)
      end
  end.

Definition div (a b : Num) : Num :=
  match a, b with
  | NaN, _ | _, NaN => NaN
  | Inf _, Inf _ => NaN
  | Fin _, Inf _ => Fin 0
  | Inf s, Fin q =>
      match signQ q with
      | Lt => Inf (negb s)
      | _ => Inf s
      end
  | Fin p, Fin q =>
      match signQ q with
      | Eq => match signQ p with
              | Eq => NaN
              | Gt => Inf false
              | Lt => Inf true
              end
      | _ => Fin (p / q)
      end
  end.

(** [a < b]; every comparison with [NaN] is false. *)
Definition ltb (a b : Num) : bool :=
  match a, b with
  | NaN, _ | _, NaN => false
  | Fin p, Fin q => negb (Qle_bool q p)
  | Fin _, Inf s => negb s
  | Inf s, Fin _ => s
  | Inf s, Inf s' => s && negb s'
  end.

(** [d3.extent(values)] of the D3 library: the least and the greatest of
    the values that are numbers; a pair of [undefined], which arithmetic
    turns into [NaN], when there is none. *)
Fixpoint extentFrom (lo hi : Num) (values : list Num) : Num * Num :=
  match values with
  | [] => (lo, hi)
  | v :: values' =>
      if isNaN v then extentFrom lo hi values'
      else extentFrom (if ltb v lo then v else lo)
                      (if ltb hi v then v else hi) values'
  end.

Fixpoint extent (values : list Num) : Num * Num :=
  match values with
  | [] => (NaN, NaN)
  | v :: values' => if isNaN v then extent values' else extentFrom v v values'
  end.

(** The fields of a node the remap reads and writes; a missing coordinate
    is [NaN]. *)
Record SimNode := mkSimNode {
  id : nat;
  x : Num;
  y : Num;
  vx : Num;
  vy : Num;
  x_old : Num;
  y_old : Num
}.

Definition remapCoordinate (v lo hi : Num) : Num :=
  mul (div (sub v lo) (sub hi lo)) (Fin 1000).

(** Body of the first [nodes.forEach]. *)
Definition remapNode (extentx extenty : Num * Num) (element : SimNode)
  : SimNode :=
  let x1 := remapCoordinate (x element) (fst extentx) (snd extentx) in
  let y1 := remapCoordinate (y element) (fst extenty) (snd extenty) in
  let '(x2, y2) :=
    if isNaN x1 || isNaN y1 then (Fin 500, Fin 300) else (x1, y1) in
  mkSimNode (id element) x2 y2 (Fin 0) (Fin 0) x2 y2.

Definition remapNodes (nodes : list SimNode) : list SimNode :=
  let extentx := extent (map x nodes) in
  let extenty := extent (map y nodes) in
  map (remapNode extentx extenty) nodes.

(** The center of the canonical domain [0,1000] x [0,1000] on one axis. *)
Definition domainCenter : Num := Fin 500.

(** *** Scale calibration

    Arithmetic is exact.  The length of an edge is a square root in the
    source; the square root is a parameter of the model. *)
Record Position := mkPosition { px : Q; py : Q }.

Record SimEdge := mkSimEdge {
  source : Position;
  target : Position;
  weight : Q
}.

Definition epsilon : Q := 1 # 10000.

Record Search := mkSearch {
  ub : Q;
  lb : Q;
  mid : option Q;
  c1 : option Q
}.

Definition initialSearch : Search :=
  mkSearch (501 # 100) (1 # 100) None None.

Section Calibration.
Variable sqrt : Q -> Q.

Definition edgeLength (e : SimEdge) : Q :=
  sqrt ((px (source e) - px (target e)) ^ 2
        + (py (source e) - py (target e)) ^ 2)%Q.

(** One summand of the objective, for the scaled length [d]. *)
Definition penalty (e : SimEdge) (d : Q) : Q :=
  (((d - 30 * weight e) / (30 * weight e)) ^ 2)%Q.

(** The [edges.forEach] that accumulates [c1] and [c2]. *)
Definition costs (edges : list SimEdge) (m : Q) : Q * Q :=
  fold_left
    (fun acc e =>
       let dist := edgeLength e in
       let dist1 := (dist * m)%Q in
       let dist2 := (dist * (m + epsilon))%Q in
       ((fst acc + penalty e dist1)%Q, (snd acc + penalty e dist2)%Q))
    edges (0%Q, 0%Q).

(** The objective at scale [s]. *)
Definition objective (edges : list SimEdge) (s : Q) : Q :=
  fold_left (fun c e => (c + penalty e (edgeLength e * s))%Q) edges 0%Q.

(** [a < b] on rationals. *)
Definition Qltb (a b : Q) : bool := negb (Qle_bool b a).

(** [while ((ub - lb) > 0.0001) ...]; [None] when the fuel runs out. *)
Fixpoint searchLoop (fuel : nat) (edges : list SimEdge) (st : Search)
  : option Search :=
  if Qltb epsilon (ub st - lb st) then
    match fuel with
    | O => None
    | S fuel' =>
        let m := ((ub st + lb st) / 2)%Q in
        let '(k1, k2) := costs edges m in
        if Qltb k1 k2
        then searchLoop fuel' edges (mkSearch m (lb st) (Some m) (Some k1))
        else searchLoop fuel' edges (mkSearch (ub st) m (Some m) (Some k1))
    end
  else Some st.

Definition calibrate (fuel : nat) (edges : list SimEdge) : option Search :=
  searchLoop fuel edges initialSearch.

End Calibration.

(** A square root that is exact on quotients of perfect squares. *)
Definition sqrtQ (q : Q) : Q :=
  let r := Qred q in
  Qmake (Z.sqrt (Qnum r)) (Z.to_pos (Z.sqrt (Zpos (Qden r)))).

End Simulation.

(** ** Input filter of the later revision ([countColumns],
       [filterPattern]) *)
Module Filter.
Import Compiler.

(** A JavaScript number that is an integer or [NaN] ([None]). *)
Definition plus (a b : option Z) : option Z :=
  match a, b with
  | Some m, Some n => Some (m + n)%Z
  | _, _ => None
  end.

(** [Math.max(a, b)]. *)
Definition maxNum (a b : option Z) : option Z :=
  match a, b with
  | Some m, Some n => Some (Z.max m n)
  | _, _ => None
  end.

(** [tech.add] after [token in stitchTechniques]: [undefined], hence [NaN]
    in arithmetic, for an inherited property. *)
Definition addOf (m : Membership) : option (option Z) :=
  match m with
  | Own tech => Some (Some (Z.of_nat (add tech)))
  | Inherited => Some None
  | Absent => None
  end.

(** The token loop of [countColumns]; [prev] is [tokens[i-1]]. *)
Fixpoint countTokens (columnCount : option Z) (prev : option string)
                     (tokens : list string) : option Z :=
  match tokens with
  | [] => columnCount
  | t :: rest =>
      let token := Js.toLowerCase t in
      if String.eqb token "co" || Js.startsWith token "co" then
        let '(n, skip) := castOnCount token (hd_error rest) in
        let columnCount' := plus columnCount (Some n) in
        match skip, rest with
        | true, next :: rest' => countTokens columnCount' (Some next) rest'
        | _, _ => countTokens columnCount' (Some t) rest
        end
      else
        match addOf (lookupTechnique token) with
        | Some a => countTokens (plus columnCount a) (Some t) rest
        | None =>
            match Js.parseInt token, prev with
            | Some k, Some p =>
                match addOf (lookupTechnique (Js.toLowerCase p)) with
                | Some a =>
                    let multiplier := (k - 1)%Z in
                    countTokens
                      (plus columnCount
                            (option_map (fun a => (a * multiplier)%Z) a))
                      (Some t) rest
                | None => countTokens columnCount (Some t) rest
                end
            | _, _ => countTokens columnCount (Some t) rest
            end
        end
  end.

Definition countColumns (pattern : string) : option Z :=
  fold_left
    (fun maxColumns line =>
       maxNum maxColumns
              (countTokens (Some 0%Z) None (lineTokens (Js.trim line))))
    (Js.split newline (Js.trim pattern))
    (Some 0%Z).

Definition isLetter (lower : ascii) (c : ascii) : bool :=
  Ascii.eqb (Js.lowerChar c) lower.

(** The regular expression [\bturn\b] with flag [i], tried at the start of
    [s] when a word boundary precedes it: the four letters, then the end of
    the text or a character that is not a word character. *)
Definition matchesTurn (s : string) : bool :=
  match s with
  | String c1 (String c2 (String c3 (String c4 rest))) =>
      isLetter "t" c1 && isLetter "u" c2 && isLetter "r" c3
      && isLetter "n" c4
      && match rest with
         | EmptyString => true
         | String c5 _ => negb (Js.isWord c5)
         end
  | _ => false
  end.

(** [s.replace(/\bturn\b/gi, '')]: [skip] counts the characters of the
    current match still to be dropped, [prevWord] tells that the previous
    character of the text is a word character. *)
Fixpoint removeTurnFrom (skip : nat) (prevWord : bool) (s : string)
  : string :=
  match s with
  | EmptyString => EmptyString
  | String c s' =>
      match skip with
      | S skip' => removeTurnFrom skip' true s'
      | O =>
          if negb prevWord && matchesTurn s
          then removeTurnFrom 3 true s'
          else String c (removeTurnFrom 0 (Js.isWord c) s')
      end
  end.

Definition removeTurn (s : string) : string := removeTurnFrom 0 false s.

(** Decimal text of a positive integer (the template literal
    [`${columnCount}`]). *)
Definition decimal (n : Z) : string :=
  NilEmpty.string_of_uint (Pos.to_uint (Z.to_pos n)).

Definition newlineString : string := String newline EmptyString.

(** The numeral put after an added [co]. *)
Definition castOnNumeral (filtered : string) : string :=
  match countColumns filtered with
  | Some columnCount =>
      if (0 <? columnCount)%Z then decimal columnCount else "10"
  | None => "10"
  end.

Definition filterPattern (pattern : string) : string :=
  let filtered := Js.trim (removeTurn pattern) in
  let firstToken := hd EmptyString (Js.splitWs filtered) in
  if Js.isEmpty firstToken
     || negb (Js.startsWith (Js.toLowerCase firstToken) "co")
  then
    match countColumns filtered with
    | Some columnCount =>
        if (0 <? columnCount)%Z
        then "co " ++ decimal columnCount ++ newlineString ++ filtered
        else "co 10" ++ newlineString ++ filtered
    | None => "co 10" ++ newlineString ++ filtered
    end
  else filtered.

(** The words of a text: its maximal runs of characters that are not white
    space. *)
Definition words (s : string) : list string :=
  filter (fun w => negb (Js.isEmpty w)) (Js.splitWs s).

(** The first word of [s] when [s] begins with it, empty otherwise. *)
Fixpoint headWord (s : string) : string :=
  match s with
  | EmptyString => EmptyString
  | String c s' => if Js.isSpace c then EmptyString
                   else String c (headWord s')
  end.

(** The words of [s] that begin after its first character. *)
Fixpoint restWords (s : string) : list string :=
  match s with
  | EmptyString => []
  | String c s' => if Js.isSpace c then words s' else restWords s'
  end.

(** [s] is empty or begins with a character that is not a word
    character. *)
Definition startsNonWord (s : string) : bool :=
  match s with
  | EmptyString => true
  | String c _ => negb (Js.isWord c)
  end.

(** [s] begins with the word [turn], in any letter case. *)
Definition turnWordAt (s : string) : bool :=
  match s with
  | String c1 (String c2 (String c3 (String c4 rest))) =>
      isLetter "t" c1 && isLetter "u" c2 && isLetter "r" c3
      && isLetter "n" c4
      && match rest with
         | EmptyString => true
         | String c5 _ => Js.isSpace c5
         end
  | _ => false
  end.

(** No word of [s] is [turn]; [atStart] tells that [s] begins at the start
    of a word or in white space. *)
Fixpoint noTurnWord (atStart : bool) (s : string) : bool :=
  match s with
  | EmptyString => true
  | String c s' =>
      if Js.isSpace c then noTurnWord true s'
      else negb (atStart && turnWordAt s) && noTurnWord false s'
  end.

End Filter.

(** ** Needles and edge ends *)
Module WellFormed.
Import Compiler.

(** Every stitch on a needle is an existing node and sits there once; every
    edge goes from an existing node to one created later; a stitch that has
    been consumed (the source of a vertical edge) is on no needle. *)
Definition Needles (st : State) : Prop :=
  Forall (fun s => s < count st) (leftNeedle st ++ rightNeedle st) /\
  NoDup (leftNeedle st ++ rightNeedle st) /\
  Forall (fun e => source e < target e /\ target e < count st)
         (allEdges st) /\
  (forall e, In e (allEdges st) -> edge_type e = vertical ->
             ~ In (source e) (leftNeedle st ++ rightNeedle st)).

(** The graph under construction has no edge twice. *)
Definition Simple (st : State) : Prop :=
  Needles st /\ NoDup (allEdges st).

(** The state a line starts from: nothing on the working needle and the
    edge flag raised. *)
Definition RowStart (st : State) : Prop :=
  rightNeedle st = [] /\ edgeFlag st = true.

End WellFormed.

(** ** Points shared by two segments *)
Module Segments.
Import Geometry.

(** The point of parameter [t] on the segment from [a] to [b]. *)
Definition lerp (a b : Point Q) (t : Q) : Point Q :=
  mkPoint (x a + t * (x b - x a))%Q (y a + t * (y b - y a))%Q.

(** Two points with equal coordinates. *)
Definition same (a b : Point Q) : Prop := (x a == x b /\ y a == y b)%Q.

Definition unit (t : Q) : Prop := (0 <= t /\ t <= 1)%Q.

(** The closed segments from [p1] to [p2] and from [q1] to [q2] have a
    point in common. *)
Definition meet (p1 p2 q1 q2 : Point Q) : Prop :=
  exists t u, unit t /\ unit u /\ same (lerp p1 p2 t) (lerp q1 q2 u).

End Segments.

(** ** Crossing rejection of the tick handler ([applyForceSimulation])

    On every tick each node proposes the position [x_old + vx],
    [y_old + vy]; the proposal is taken only when none of the node's edges,
    drawn from the proposal, intersects an edge that has no end in common
    with it.  A refused node tries once more at a random offset and
    otherwise stays.  Velocities (computed by the force library) and random
    numbers are inputs of the model; coordinates are exact rationals. *)
Module Tick.
Import Geometry.

(** An edge, by the ids of its two nodes. *)
Record Link := mkLink { source : nat; target : nat }.

(** The stored positions [x_old], [y_old], by node id. *)
Definition Positions := nat -> Point Q.

Definition update (old : Positions) (n : nat) (p : Point Q) : Positions :=
  fun m => if m =? n then p else old m.

(** [set.add(v)]: insertion order, no repetition. *)
Definition setAdd (s : list nat) (v : nat) : list nat :=
  if existsb (Nat.eqb v) s then s else s ++ [v].

(** [adjDict[n]] once [edges.forEach] has filled it. *)
Definition neighbours (edges : list Link) (n : nat) : list nat :=
  fold_left
    (fun s e =>
       let s1 := if source e =? n then setAdd s (target e) else s in
       if target e =? n then setAdd s1 (source e) else s1)
    edges [].

(** The [continue] test of the loop over all edges. *)
Definition skips (e : Link) (n n2 : nat) : bool :=
  (source e =? n) || (target e =? n) || (source e =? n2) || (target e =? n2).

(** The value of [safe] after [adjDict[n.id].forEach] for the proposal
    [pos]. *)
Definition safe (edges : list Link) (old : Positions) (n : nat)
                (pos : Point Q) : bool :=
  forallb
    (fun n2 =>
       forallb
         (fun e =>
            skips e n n2 ||
            negb (doSegmentsIntersect QOps pos (old n2)
                    (old (source e)) (old (target e))))
         edges)
    (neighbours edges n).

(** What the tick needs of a node: its id, its velocity and the two random
    numbers of its first wiggle. *)
Record Move := mkMove {
  node : nat;
  vx : Q;
  vy : Q;
  random1 : Q;
  random2 : Q
}.

(** Body of [nodes.forEach] in the tick handler: the [while (wiggle < 2)]
    loop, unrolled. *)
Definition stepNode (edges : list Link) (old : Positions) (m : Move)
  : Positions :=
  let n := node m in
  let pos := mkPoint (x (old n) + vx m)%Q (y (old n) + vy m)%Q in
  if safe edges old n pos then update old n pos
  else
    let pos' := mkPoint (x (old n) + (random1 m - (1 # 2)) * 30)%Q
                        (y (old n) + (random2 m - (1 # 2)) * 30)%Q in
    if safe edges old n pos' then update old n pos' else old.

(** [nodes.forEach] of one tick. *)
Definition stepNodes (edges : list Link) (moves : list Move)
                     (old : Positions) : Positions :=
  fold_left (stepNode edges) moves old.

(** Two edges with an end in common. *)
Definition shares (e1 e2 : Link) : bool :=
  (source e1 =? source e2) || (source e1 =? target e2) ||
  (target e1 =? source e2) || (target e1 =? target e2).

(** No two edges without a common end intersect. *)
Definition crossFree (edges : list Link) (pos : Positions) : bool :=
  forallb
    (fun e1 =>
       forallb
         (fun e2 =>
            shares e1 e2 ||
            negb (doSegmentsIntersect QOps
                    (pos (source e1)) (pos (target e1))
                    (pos (source e2)) (pos (target e2))))
         edges)
    edges.

End Tick.

(** ** Decimal digits *)
Module Digits.

Definition isDigit (c : ascii) : bool :=
  (48 <=? nat_of_ascii c) && (nat_of_ascii c <=? 57).

End Digits.

(** ** Closed form of the grid seeding *)
Module Grid.
Import Compiler Layout.

(** The position the seeder gives to column [colIndex] of row [rowIndex],
    in a grid of [numRows] rows, the row having [rowLength] nodes. *)
Definition gridPoint (gridSpacing : Q) (center : Point)
                     (numRows rowIndex rowLength colIndex : nat) : Point :=
  let verticalSpacing := (gridSpacing * (8 # 10))%Q in
  let gridHeight := (ofZ (Z.of_nat numRows - 1) * verticalSpacing)%Q in
  let startY := (y center - gridHeight / 2)%Q in
  let rowY :=
    (startY + ofZ (Z.of_nat numRows - 1 - Z.of_nat rowIndex)
              * verticalSpacing)%Q in
  let rowWidth := (ofZ (Z.of_nat rowLength - 1) * gridSpacing)%Q in
  let horizontalOffset :=
    if Nat.even rowIndex then 0%Q else (gridSpacing / 2)%Q in
  let rowStartX := (x center - rowWidth / 2 + horizontalOffset)%Q in
  mkPoint (rowStartX + ofNat colIndex * gridSpacing)%Q rowY.

(** The order in which the nodes of row [rowIndex] are laid out. *)
Definition processed (rowIndex : nat) (row : list nat) : list nat :=
  if Nat.even rowIndex then row else rev row.

(** A copy with its coordinates set. *)
Definition place (p : Point) (pl : Placed) : Placed :=
  mkPlaced (placed_node pl) (Some p).

(** The copies [addGridLayout] starts from. *)
Definition copies (nodeData : list Node) : Store :=
  map (fun n => mkPlaced n None) nodeData.

(** The row groups [addGridLayout] computes, as references into the
    copies. *)
Definition rowsOf (nodeData : list Node) (edgeData : list Edge)
  : list (list nat) :=
  groupRows (copies nodeData) edgeData
            (sortById (copies nodeData)
                      (seq 0 (List.length (copies nodeData)))).

End Grid.

(** ** The least-squares scale *)
Module Optimum.
Import Simulation.
Section Sums.
Variable sqrt : Q -> Q.

(** Length of an edge over its target length [30 * weight]. *)
Definition stretch (e : SimEdge) : Q :=
  (edgeLength sqrt e / (30 * weight e))%Q.

Definition sumSquares (edges : list SimEdge) : Q :=
  fold_right (fun e a => (stretch e * stretch e + a)%Q) 0%Q edges.

Definition sumStretch (edges : list SimEdge) : Q :=
  fold_right (fun e a => (stretch e + a)%Q) 0%Q edges.

(** The scale that minimises the objective. *)
Definition bestScale (edges : list SimEdge) : Q :=
  (sumStretch edges / sumSquares edges)%Q.

(** The scale at which the slope test of the search changes its answer. *)
Definition threshold (edges : list SimEdge) : Q :=
  (bestScale edges - epsilon / 2)%Q.
End Sums.
End Optimum.

(** ** Zoom and pan of the drawing canvas ([setupDrawingCanvas])

    The canvas is drawn through the transform
    [screen = scale * world + offset].  Arithmetic is exact: the zoom
    factors 1.1 and 0.9 are the rationals 11/10 and 9/10. *)
Module View.

Record View := mkView {
  scale : Q;
  offsetX : Q;
  offsetY : Q;
  isDragging : bool;
  dragStartX : Q;
  dragStartY : Q;
  lastOffsetX : Q;
  lastOffsetY : Q
}.

Definition initialView : View := mkView 1 0 0 false 0 0 0 0.

Inductive Event :=
| Wheel (eOffsetX eOffsetY deltaY : Q)
| MouseDown (clientX clientY : Q)
| MouseMove (clientX clientY : Q)
| MouseUp.

(** [e.deltaY < 0 ? 1.1 : 0.9]. *)
Definition zoomFactor (deltaY : Q) : Q :=
  if Qle_bool 0 deltaY then (9 # 10)%Q else (11 # 10)%Q.

(** The listeners for [wheel], [mousedown], [mousemove] and [mouseup]. *)
Definition handle (v : View) (e : Event) : View :=
  match e with
  | Wheel ex ey deltaY =>
      let mouseX := ((ex - offsetX v) / scale v)%Q in
      let mouseY := ((ey - offsetY v) / scale v)%Q in
      let scale' := (scale v * zoomFactor deltaY)%Q in
      mkView scale' (ex - mouseX * scale')%Q (ey - mouseY * scale')%Q
             (isDragging v) (dragStartX v) (dragStartY v)
             (lastOffsetX v) (lastOffsetY v)
  | MouseDown cx cy =>
      mkView (scale v) (offsetX v) (offsetY v) true cx cy
             (offsetX v) (offsetY v)
  | MouseMove cx cy =>
      if isDragging v then
        mkView (scale v)
               (lastOffsetX v + (cx - dragStartX v))%Q
               (lastOffsetY v + (cy - dragStartY v))%Q
               true (dragStartX v) (dragStartY v)
               (lastOffsetX v) (lastOffsetY v)
      else v
  | MouseUp =>
      mkView (scale v) (offsetX v) (offsetY v) false
             (dragStartX v) (dragStartY v) (lastOffsetX v) (lastOffsetY v)
  end.

Definition run (v : View) (events : list Event) : View :=
  fold_left handle events v.

(** World coordinates of the point drawn at a screen position. *)
Definition worldX (v : View) (screenX : Q) : Q :=
  ((screenX - offsetX v) / scale v)%Q.
Definition worldY (v : View) (screenY : Q) : Q :=
  ((screenY - offsetY v) / scale v)%Q.

End View.

(** ** The line parser of the first version ([parseKnittingPattern]) *)
Module Original.

Record Node := mkNode { id : nat; label : string }.
Record Link := mkLink { source : nat; target : nat }.

(** [array.map((x, i) => f(x, i))]. *)
Fixpoint mapi {A B : Type} (f : A -> nat -> B) (i : nat) (l : list A)
  : list B :=
  match l with
  | [] => []
  | a :: l' => f a i :: mapi f (S i) l'
  end.

Definition parseKnittingPattern (text : string) : list Node * list Link :=
  let lines := Js.split Compiler.newline (Js.trim text) in
  let nodes := mapi (fun line i => mkNode i line) 0 lines in
  let links := mapi (fun _ i => mkLink i (i + 1)) 0 (tl lines) in
  (nodes, links).

(** [lines.join('\n')]. *)
Fixpoint join (lines : list string) : string :=
  match lines with
  | [] => EmptyString
  | [line] => line
  | line :: lines' => (line ++ String Compiler.newline (join lines'))%string
  end.

End Original.

(** ** Stitches created by a line *)
Module Counting.
Import Compiler.

(** The token names a technique of the table and is no cast-on. *)
Definition plainTechnique (t : string) : bool :=
  negb (Js.startsWith (Js.toLowerCase t) "co") &&
  match lookupTechnique (Js.toLowerCase t) with
  | Own _ => true
  | _ => false
  end.

(** Stitches the technique named by a token creates. *)
Definition addedBy (t : string) : nat :=
  match lookupTechnique (Js.toLowerCase t) with
  | Own tech => add tech
  | _ => 0
  end.

Definition addedByAll (tokens : list string) : nat :=
  list_sum (map addedBy tokens).

End Counting.

(** ** Runs of linked neighbours *)
Module Runs.
(** The maximal runs of a list: two neighbours stay in one run when [link]
    holds between them. *)
Fixpoint runs (link : nat -> nat -> bool) (l : list nat) {struct l}
  : list (list nat) :=
  match l with
  | [] => []
  | a :: l' =>
      match l' with
      | [] => [[a]]
      | b :: _ =>
          match runs link l' with
          | row :: rows =>
              if link a b then (a :: row) :: rows else [a] :: row :: rows
          | [] => [[a]]
          end
      end
  end.
End Runs.

(** ** Growth of the graph *)
Module Growth.
Import Compiler.

(** The graph of [st] begins with the graph of [st0]. *)
Definition Extends (st0 st : State) : Prop :=
  (exists ns, allNodes st = allNodes st0 ++ ns) /\
  (exists es, allEdges st = allEdges st0 ++ es).

End Growth.

(** ** Texts of plain tokens *)
Module Plain.
(** Every character is a word character or white space. *)
Fixpoint plainText (s : string) : bool :=
  match s with
  | EmptyString => true
  | String c s' => (Js.isWord c || Js.isSpace c) && plainText s'
  end.

(** The words other than [turn], in any letter case. *)
Definition keep (ws : list string) : list string :=
  filter (fun w => negb (String.eqb (Js.toLowerCase w) "turn")) ws.
End Plain.

(** ** Scaling and translation of the plane *)
Module Affine.
Import Geometry.
(** Scaling of the two axes followed by a translation, as done by the
    remap and by the linear scales of the renderer. *)
Definition affine (ax bx ay by' : Q) (p : Point Q) : Point Q :=
  mkPoint (ax * x p + bx)%Q (ay * y p + by')%Q.
End Affine.

(** ** The remap of the first version ([renderGraph]) *)
Module OriginalRemap.
Import Simulation.

(** Body of the first [nodes.forEach] of [renderGraph] in the first
    version: the same remap, without the test for [NaN]. *)
Definition remapNode (extentx extenty : Num * Num) (element : SimNode)
  : SimNode :=
  let x1 := remapCoordinate (x element) (fst extentx) (snd extentx) in
  let y1 := remapCoordinate (y element) (fst extenty) (snd extenty) in
  mkSimNode (id element) x1 y1 (Fin 0) (Fin 0) x1 y1.

Definition remapNodes (nodes : list SimNode) : list SimNode :=
  let extentx := extent (map x nodes) in
  let extenty := extent (map y nodes) in
  map (remapNode extentx extenty) nodes.

End OriginalRemap.
Example parseInt_6 : Js.parseInt "6" = Some 6%Z.
Proof. reflexivity. Qed.
Example parseInt_12abc : Js.parseInt "12abc" = Some 12%Z.
Proof. reflexivity. Qed.
Example parseInt_neg : Js.parseInt "-3" = Some (-3)%Z.
Proof. reflexivity. Qed.
Example parseInt_hex : Js.parseInt "0x1f" = Some 31%Z.
Proof. reflexivity. Qed.
Example parseInt_k : Js.parseInt "k" = None.
Proof. reflexivity. Qed.
Example splitWs_ex : Js.splitWs "a  b c" = ["a"; "b"; "c"].
Proof. reflexivity. Qed.
Example splitWs_lead : Js.splitWs " a " = [""; "a"; ""].
Proof. reflexivity. Qed.
Example trim_ex : Js.trim "  co 3  " = "co 3".
Proof. reflexivity. Qed.


(** ** The compiler on small patterns *)
Example compile_turn_twice :
  let r := Compiler.parsePattern
             ("co 6" ++ String Compiler.newline
                ("turn" ++ String Compiler.newline "turn"))%string in
  Compiler.success r = true /\
  map Compiler.id (Compiler.nodes r) = [0; 1; 2; 3; 4; 5] /\
  Compiler.edges r = Shape.hLinks true 0 6.
Proof. repeat split; reflexivity. Qed.

Example compile_decrease_first :
  Compiler.parsePattern "k2tog" =
  Compiler.mkResult [] [] false
    (Some "Left needle is empty while processing kill stitches for k2tog").
Proof. reflexivity. Qed.

Example compile_increase_decrease :
  Compiler.edges
    (Compiler.parsePattern
       ("co 3" ++ String Compiler.newline "k2tog kfb")%string) =
  [Shape.hEdge 0 1; Shape.hEdge 1 2;
   Shape.vEdge 2 3; Shape.vEdge 1 3;
   Shape.hEdge 3 4; Shape.hEdge 4 5;
   Shape.vEdge 0 4; Shape.vEdge 0 5].
Proof. reflexivity. Qed.

Example compile_cable_and_inherited :
  Compiler.success (Compiler.parsePattern "co 2 c4c __proto__") = true.
Proof. reflexivity. Qed.

Example tokenRows_blank_lines_and_tabs :
  Compiler.tokenRows
    ("  co 3 " ++ String (ascii_of_nat 13) (String Compiler.newline
       (String Compiler.newline
          (" k  K" ++ String (ascii_of_nat 9) "k "))))%string
  = [["co"; "3"]; ["k"; "K"; "k"]].
Proof. reflexivity. Qed.

(** ** Basic facts about the compiler *)
Section CompilerBasics.
Import Compiler Exec.

Lemma runLines_rows (lines : list string) (st : State) :
  runLines st lines =
  runRows st (map (fun line => lineTokens (Js.trim line))
                  (filter (fun line => negb (Js.isEmpty (Js.trim line)))
                          lines)).
Proof.
  revert st; induction lines as [|line lines IH]; intros st; simpl.
  - reflexivity.
  - unfold runLine.
    destruct (Js.isEmpty (Js.trim line)); simpl.
    + apply IH.
    + destruct (runTokens st (lineTokens (Js.trim line))); simpl.
      * apply IH.
      * reflexivity.
Qed.

(** The result record in terms of the token rows. *)
Lemma parsePattern_rows (pattern : string) :
  parsePattern pattern =
  match runRows initialState (tokenRows pattern) with
  | Ok st => mkResult (allNodes st) (allEdges st) true None
  | Throw message => mkResult [] [] false (Some message)
  end.
Proof.
  unfold parsePattern, tokenRows.
  rewrite runLines_rows. reflexivity.
Qed.

Lemma runTokens_cons (st : State) (s : string) (rest : list string) :
  runTokens st (s :: rest) =
  bind (processToken st s (hd_error rest))
       (fun r => runTokens (fst r) (advance (snd r) rest)).
Proof.
  simpl. destruct (processToken st s (hd_error rest)) as [[st' skip]|e];
    simpl; [|reflexivity].
  destruct skip, rest; reflexivity.
Qed.

(** What remains to be run from a reachable configuration is the whole
    outcome of the compile. *)
Lemma Reach_outcome (rows0 : list (list string)) st tokens rows :
  Reach rows0 st tokens rows ->
  runRows initialState rows0 =
  bind (runTokens st tokens) (fun st' => runRows (endOfLine st') rows).
Proof.
  induction 1 as [tokens rows Heq | st s rest rows st' skip _ IH Hstep
                 | st tokens rows _ IH].
  - subst rows0. reflexivity.
  - rewrite IH, runTokens_cons, Hstep. reflexivity.
  - rewrite IH. reflexivity.
Qed.

Lemma pop_snoc (l : list nat) (x : nat) : pop (l ++ [x]) = Some (x, l).
Proof.
  unfold pop. rewrite rev_app_distr. simpl. rewrite rev_involutive.
  reflexivity.
Qed.

Lemma pop_nil : pop [] = None.
Proof. reflexivity. Qed.

Lemma pop_None (l : list nat) : pop l = None -> l = [].
Proof.
  unfold pop. destruct (rev l) eqn:E; [|discriminate].
  intros _. apply (f_equal (@rev nat)) in E.
  rewrite rev_involutive in E. exact E.
Qed.

Lemma pop_Some (l : list nat) x r : pop l = Some (x, r) -> l = r ++ [x].
Proof.
  unfold pop. destruct (rev l) eqn:E; [discriminate|].
  intros H; inversion H; subst.
  apply (f_equal (@rev nat)) in E. rewrite rev_involutive in E.
  exact E.
Qed.

End CompilerBasics.

(** ** The loops of the compiler in closed form *)
Section CompilerLoops.
Import Compiler Exec Shape.

Lemma State_eta (st : State) :
  st = mkState (allNodes st) (allEdges st) (rightNeedle st) (leftNeedle st)
               (count st) (edgeFlag st).
Proof. destruct st; reflexivity. Qed.

Lemma createStitch_grow ty ch tech st :
  createStitch ty ch tech st = grow ty ch tech 1 st.
Proof.
  unfold createStitch, grow; simpl.
  destruct (negb (edgeFlag st) && (0 <? count st)) eqn:E.
  - apply andb_true_iff in E as [Hf _].
    apply negb_true_iff in Hf. rewrite Hf.
    f_equal. rewrite Nat.add_1_r. reflexivity.
  - rewrite !app_nil_r. f_equal. rewrite Nat.add_1_r. reflexivity.
Qed.

Lemma hLinks_app flag c n m :
  hLinks flag c (S n) ++ hLinks false (c + S n) m = hLinks flag c (S n + m).
Proof.
  revert flag c; induction n as [|n IH]; intros flag c.
  - simpl. rewrite <- app_assoc. simpl.
    replace (c + 1) with (S c) by lia. reflexivity.
  - change (hLinks flag c (S (S n)))
      with ((if negb flag && (0 <? c) then [hEdge (c - 1) c] else [])
            ++ hLinks false (S c) (S n)).
    change (hLinks flag c (S (S n) + m))
      with ((if negb flag && (0 <? c) then [hEdge (c - 1) c] else [])
            ++ hLinks false (S c) (S n + m)).
    rewrite <- app_assoc. f_equal.
    rewrite <- IH. replace (S c + S n) with (c + S (S n)) by lia.
    reflexivity.
Qed.

Lemma grow_grow ty ch tech n m st :
  grow ty ch tech m (grow ty ch tech (S n) st) = grow ty ch tech (S n + m) st.
Proof.
  unfold grow; cbn [allNodes allEdges rightNeedle leftNeedle count edgeFlag].
  f_equal.
  - rewrite <- app_assoc. f_equal. rewrite <- map_app. f_equal.
    rewrite seq_app. reflexivity.
  - rewrite <- app_assoc. f_equal. apply hLinks_app.
  - rewrite <- app_assoc. f_equal. rewrite seq_app. reflexivity.
  - lia.
  - destruct m; reflexivity.
Qed.

Lemma grow_0 ty ch tech st : grow ty ch tech 0 st = st.
Proof.
  unfold grow; simpl. rewrite !app_nil_r, Nat.add_0_r.
  symmetry; apply State_eta.
Qed.

Lemma grow_S ty ch tech n st :
  grow ty ch tech n (grow ty ch tech 1 st) = grow ty ch tech (S n) st.
Proof. apply (grow_grow ty ch tech 0 n st). Qed.

Lemma castOnLoop_grow n st :
  castOnLoop n st = grow "co" "k" coTechnique n st.
Proof.
  revert st; induction n as [|n IH]; intros st; simpl.
  - symmetry; apply grow_0.
  - rewrite IH, createStitch_grow. apply grow_S.
Qed.

Lemma addLoop_grow n stitch tech st added :
  addLoop n stitch tech st added =
  (grow stitch (character tech) tech n st, added ++ seq (count st) n).
Proof.
  revert st added; induction n as [|n IH]; intros st added; simpl.
  - rewrite grow_0, app_nil_r. reflexivity.
  - rewrite IH, createStitch_grow, grow_S. f_equal.
    rewrite <- app_assoc. simpl. rewrite Nat.add_1_r. reflexivity.
Qed.

Lemma consume_0 added st : consume 0 added st = st.
Proof.
  unfold consume, fan; simpl.
  rewrite app_nil_r, Nat.sub_0_r, firstn_all.
  symmetry; apply State_eta.
Qed.

(** With enough stitches on the left needle the kill loop pops [n] of them
    and fans each one out to the added stitches. *)
Lemma killLoop_consume n stitch tech added st :
  n <= List.length (leftNeedle st) ->
  killLoop n stitch tech added st = Ok (consume n added st).
Proof.
  revert st; induction n as [|n IH]; intros st Hn.
  - simpl. rewrite consume_0. reflexivity.
  - simpl. destruct (pop (leftNeedle st)) as [[u rest]|] eqn:Hp.
    + apply pop_Some in Hp.
      rewrite IH; cbn [leftNeedle].
      * f_equal. unfold consume;
          cbn [allNodes allEdges rightNeedle leftNeedle count edgeFlag].
        rewrite Hp, rev_app_distr. simpl.
        rewrite <- app_assoc. f_equal.
        rewrite length_app; simpl.
        replace (List.length rest + 1 - S n) with (List.length rest - n) by lia.
        rewrite firstn_app.
        replace (List.length rest - n - List.length rest) with 0 by lia.
        simpl. rewrite app_nil_r. reflexivity.
      * rewrite Hp, length_app in Hn. simpl in Hn. lia.
    + apply pop_None in Hp. rewrite Hp in Hn. simpl in Hn. lia.
Qed.

(** Asking for more stitches than the left needle holds throws. *)
Lemma killLoop_underflow n stitch tech added st :
  List.length (leftNeedle st) < n -> 0 < kill tech ->
  killLoop n stitch tech added st = Throw (emptyNeedleMessage stitch).
Proof.
  intros Hn Hk. revert st Hn; induction n as [|n IH]; intros st Hn.
  - lia.
  - simpl. destruct (pop (leftNeedle st)) as [[u rest]|] eqn:Hp.
    + apply pop_Some in Hp. apply IH; cbn [leftNeedle].
      rewrite Hp, length_app in Hn. simpl in Hn. lia.
    + apply Nat.ltb_lt in Hk. rewrite Hk. reflexivity.
Qed.

Lemma assoc_In {A : Type} key (l : list (string * A)) v :
  assoc key l = Some v -> In (key, v) l.
Proof.
  induction l as [|[k w] l IH]; simpl; [discriminate|].
  destruct (String.eqb key k) eqn:E.
  - apply String.eqb_eq in E. intros H; inversion H; subst. now left.
  - intros H. right. auto.
Qed.

Lemma lookupTechnique_Own stitch tech :
  lookupTechnique stitch = Own tech -> In (stitch, tech) loadStitchTechniques.
Proof.
  unfold lookupTechnique.
  destruct (assoc stitch loadStitchTechniques) eqn:E.
  - intros H; inversion H; subst. now apply assoc_In.
  - destruct (existsb _ _); discriminate.
Qed.

(** Every table entry that consumes stitches is reached through the
    technique branch and does not swap the needles. *)
Lemma killing_technique stitch tech :
  lookupTechnique stitch = Own tech -> 0 < kill tech ->
  (String.eqb stitch "co" || Js.startsWith stitch "co") = false /\
  cursor_dir tech = false.
Proof.
  intros H Hk. apply lookupTechnique_Own in H. simpl in H.
  repeat (destruct H as [H|H];
          [inversion H; subst; simpl in Hk; try lia; split; reflexivity|]).
  contradiction.
Qed.

End CompilerLoops.

(** ** Compile failures *)
Section CompileFailures.
Import Compiler Exec Shape.

Lemma startsWith_co_false stitch :
  Js.startsWith stitch "co" = false ->
  (String.eqb stitch "co" || Js.startsWith stitch "co") = false.
Proof.
  intros H. rewrite H, orb_false_r.
  destruct (String.eqb stitch "co") eqn:E; [|reflexivity].
  apply String.eqb_eq in E. subst. discriminate.
Qed.

Lemma execTechnique_eq stitch tech st :
  execTechnique stitch tech st =
  killLoop (kill tech) stitch tech (seq (count st) (add tech))
    (grow stitch (character tech) tech (add tech)
          (if cursor_dir tech then swapNeedles st else st)).
Proof.
  unfold execTechnique. rewrite addLoop_grow. simpl.
  destruct (cursor_dir tech); reflexivity.
Qed.

(** A failing token makes the whole compile fail with its message. *)
Lemma Reach_throw pattern st s rest rows message :
  Reach (tokenRows pattern) st (s :: rest) rows ->
  processToken st s (hd_error rest) = Throw message ->
  parsePattern pattern = mkResult [] [] false (Some message).
Proof.
  intros HR Hstep.
  rewrite parsePattern_rows, (Reach_outcome _ _ _ _ HR), runTokens_cons, Hstep.
  reflexivity.
Qed.

Lemma failure_is_empty pattern :
  success (parsePattern pattern) = false ->
  nodes (parsePattern pattern) = [] /\ edges (parsePattern pattern) = [].
Proof.
  unfold parsePattern.
  destruct (runLines initialState _); simpl; [discriminate|auto].
Qed.

(** C2. When the token loop arrives at a technique that consumes stitches
    ([kill > 0]) while the left (holding) needle is empty, [parsePattern]
    returns the failure record: no nodes, no edges, [success = false] and the
    message naming the technique.  Moreover every failing compile returns
    empty node and edge arrays. *)
Theorem needle_underflow_fails (pattern : string) st s rest rows tech :
  Reach (tokenRows pattern) st (s :: rest) rows ->
  lookupTechnique (Js.toLowerCase s) = Own tech ->
  0 < kill tech ->
  leftNeedle st = [] ->
  parsePattern pattern =
    mkResult [] [] false (Some (emptyNeedleMessage (Js.toLowerCase s))) /\
  (forall p, success (parsePattern p) = false ->
             nodes (parsePattern p) = [] /\ edges (parsePattern p) = []).
Proof.
  intros HR Hlook Hk Hleft. split; [|exact failure_is_empty].
  apply (Reach_throw _ _ _ _ _ _ HR).
  destruct (killing_technique _ _ Hlook Hk) as [Hco Hcur].
  unfold processToken. rewrite Hco, Hlook, execTechnique_eq, Hcur.
  rewrite killLoop_underflow; [reflexivity| |exact Hk].
  simpl. rewrite Hleft. simpl. exact Hk.
Qed.

(** C3, as amended.  A token the loop arrives at whose lower-cased text does
    not begin with [co], is neither a key of the technique table nor a
    property name the table object inherits, and does not both begin and end
    with [c], makes [parsePattern] fail with the message naming it. *)
Theorem unknown_token_fails (pattern : string) st s rest rows :
  Reach (tokenRows pattern) st (s :: rest) rows ->
  Js.startsWith (Js.toLowerCase s) "co" = false ->
  lookupTechnique (Js.toLowerCase s) = Absent ->
  Js.startsWith (Js.toLowerCase s) "c"
    && Js.endsWithChar (Js.toLowerCase s) "c"%char = false ->
  parsePattern pattern =
    mkResult [] [] false (Some (unknownStitchMessage (Js.toLowerCase s))).
Proof.
  intros HR Hco Hlook Hcable.
  apply (Reach_throw _ _ _ _ _ _ HR).
  unfold processToken.
  rewrite (startsWith_co_false _ Hco), Hlook, Hcable. reflexivity.
Qed.

End CompileFailures.

(** The pattern [co 2 / k k k]: the third [k] finds the left needle empty. *)
Lemma needle_underflow_witness :
  Compiler.parsePattern
    ("co 2" ++ String Compiler.newline "k k k") =
    Compiler.mkResult [] [] false
      (Some "Left needle is empty while processing kill stitches for k") /\
  (forall p, Compiler.success (Compiler.parsePattern p) = false ->
             Compiler.nodes (Compiler.parsePattern p) = [] /\
             Compiler.edges (Compiler.parsePattern p) = []).
Proof.
  refine (needle_underflow_fails
            ("co 2" ++ String Compiler.newline "k k k")
            _ "k" [] [] (Compiler.mkTechnique "k" 1 1 false) _ _ _ _).
  - eapply (Exec.Reach_token _ _ "k" ["k"] [] _ false).
    + eapply (Exec.Reach_token _ _ "k" ["k"; "k"] [] _ false).
      * apply Exec.Reach_line.
        eapply (Exec.Reach_token _ _ "co" ["2"] [["k"; "k"; "k"]] _ true).
        -- apply Exec.Reach_start. reflexivity.
        -- reflexivity.
      * reflexivity.
    + reflexivity.
  - reflexivity.
  - simpl. lia.
  - reflexivity.
Defined.

(** In [co 2 foo] the token [foo] is unknown. *)
Lemma unknown_token_witness :
  Compiler.parsePattern "co 2 foo" =
    Compiler.mkResult [] [] false (Some "Unknown stitch 'foo'").
Proof.
  refine (unknown_token_fails "co 2 foo" _ "foo" [] [] _ _ _ _).
  - eapply (Exec.Reach_token _ _ "co" ["2"; "foo"] [] _ true).
    + apply Exec.Reach_start. reflexivity.
    + reflexivity.
  - reflexivity.
  - reflexivity.
  - reflexivity.
Defined.

(** C3 as stated fails: [cox] is no technique name, is not [co] alone nor
    [co] with a trailing integer, and does not end with [c]; yet it compiles,
    as a cast-on of one stitch. *)
Lemma unknown_token_counterexample :
  Compiler.lookupTechnique (Js.toLowerCase "cox") = Compiler.Absent /\
  "cox" <> "co" /\
  Js.parseInt (Js.substring 2 "cox") = None /\
  Js.startsWith "cox" "c" && Js.endsWithChar "cox" "c"%char = false /\
  Compiler.parsePattern "cox" =
    Compiler.mkResult
      [Compiler.mkNode 0 "co" "k" (Compiler.mkTechnique "k" 0 1 false)]
      [] true None.
Proof. repeat split; try reflexivity. discriminate. Qed.

(** ** Preservation of the invariants *)
Section Preservation.
Import Compiler Exec Shape Invariant.

Lemma hLinks_In flag c n e :
  In e (hLinks flag c n) ->
  e = hEdge (source e) (target e) /\ target e = S (source e) /\
  c <= target e < c + n /\ (flag = true -> c < target e).
Proof.
  revert flag c; induction n as [|n IH]; intros flag c; simpl; [tauto|].
  rewrite in_app_iff. intros [H|H].
  - destruct (negb flag && (0 <? c)) eqn:E; [|contradiction].
    apply andb_true_iff in E as [Hf Hc].
    apply negb_true_iff in Hf. apply Nat.ltb_lt in Hc.
    destruct H as [H|[]]. subst e. simpl.
    repeat split; try lia. intros ->. discriminate.
  - apply IH in H as (He & Hs & Hr & _).
    repeat split; auto; lia.
Qed.

Lemma fan_In used added e :
  In e (fan used added) <->
  exists u a, In u used /\ In a added /\ e = vEdge u a.
Proof.
  unfold fan. rewrite in_flat_map. split.
  - intros (u & Hu & He). apply in_map_iff in He as (a & <- & Ha).
    now exists u, a.
  - intros (u & a & Hu & Ha & ->). exists u. split; [exact Hu|].
    apply in_map_iff. now exists a.
Qed.

Lemma fan_length used added :
  List.length (fan used added) = List.length used * List.length added.
Proof.
  unfold fan. induction used as [|u used IH]; simpl; [reflexivity|].
  rewrite length_app, length_map, IH. reflexivity.
Qed.

Lemma edgeOk_mono b b' e : b <= b' -> edgeOk b e -> edgeOk b' e.
Proof. unfold edgeOk. intros Hb [Ht Hs]. split; [lia|exact Hs]. Qed.

Lemma Later_refl st : Later st st.
Proof. unfold Later. repeat split; auto. Qed.

Lemma Later_trans st1 st2 st3 :
  Later st1 st2 -> Later st2 st3 -> Later st1 st3.
Proof.
  intros (Hc1 & He1 & Hf1) (Hc2 & He2 & Hf2). repeat split.
  - lia.
  - intros e He. destruct (He2 e He) as [Hin|[Ht Hh]].
    + apply He1 in Hin. exact Hin.
    + right. split; [lia|]. intros Hty Hfl.
      destruct (Nat.eq_dec (count st2) (count st1)) as [Heq|Hne]; [|lia].
      specialize (Hh Hty (Hf1 Heq Hfl)). lia.
  - intros Heq Hfl. apply Hf2; [lia|]. apply Hf1; [lia|exact Hfl].
Qed.

Lemma Inv_initial : Inv initialState.
Proof.
  unfold Inv; simpl. repeat split; auto. discriminate. discriminate.
Qed.

Lemma Inv_grow ty ch tech n st : Inv st -> Inv (grow ty ch tech n st).
Proof.
  intros (Hid & Hed & Hfl).
  unfold Inv, grow; cbn [allNodes allEdges rightNeedle count edgeFlag].
  repeat split.
  - rewrite map_app, map_map, Hid. simpl. rewrite map_id.
    rewrite <- seq_app. reflexivity.
  - apply Forall_app. split.
    + eapply Forall_impl; [|exact Hed].
      intros e. apply edgeOk_mono. lia.
    + apply Forall_forall. intros e He.
      apply hLinks_In in He as (He & Hs & Hr & _).
      split; [lia|]. left. split; assumption.
  - destruct n; [apply Hfl in H; lia|lia].
  - destruct n as [|n].
    + rewrite app_nil_r, Nat.add_0_r. apply Hfl. exact H.
    + exists (rightNeedle st ++ seq (count st) n).
      rewrite <- app_assoc. f_equal.
      rewrite seq_S. f_equal. f_equal. lia.
Qed.

Lemma Later_grow ty ch tech n st : Later st (grow ty ch tech n st).
Proof.
  unfold Later, grow; cbn [allEdges count edgeFlag]. repeat split.
  - lia.
  - intros e He. apply in_app_iff in He as [He|He]; [now left|right].
    apply hLinks_In in He as (_ & _ & Hr & Hf). split; [lia|].
    intros _ Hfl. exact (Hf Hfl).
  - intros Heq Hfl. destruct n; [exact Hfl|lia].
Qed.

Lemma Inv_swapNeedles st : Inv st -> Inv (swapNeedles st).
Proof.
  intros (Hid & Hed & _). unfold Inv, swapNeedles; simpl.
  repeat split; auto; discriminate.
Qed.

Lemma Later_swapNeedles st : Later st (swapNeedles st).
Proof.
  unfold Later, swapNeedles; simpl. repeat split; auto.
Qed.

Lemma Inv_endOfLine st : Inv st -> Inv (endOfLine st).
Proof.
  intros H. unfold endOfLine. destruct (rightNeedle st) eqn:E; [exact H|].
  destruct H as (Hid & Hed & _). unfold Inv; simpl.
  repeat split; auto; discriminate.
Qed.

Lemma Later_endOfLine st : Later st (endOfLine st).
Proof.
  unfold endOfLine. destruct (rightNeedle st); [apply Later_refl|].
  unfold Later; simpl. repeat split; auto.
Qed.

(** A non-blank line always ends with the edge flag raised. *)
Lemma endOfLine_rearms st : Inv st -> edgeFlag (endOfLine st) = true.
Proof.
  intros (_ & _ & Hfl). unfold endOfLine.
  destruct (rightNeedle st) eqn:E; [|reflexivity].
  destruct (edgeFlag st) eqn:F; [reflexivity|].
  destruct (Hfl eq_refl) as (_ & r & Hr).
  destruct r; discriminate.
Qed.

Lemma Inv_consume k added st :
  Forall (fun a => a < count st) added ->
  Inv st -> Inv (consume k added st).
Proof.
  intros Ha (Hid & Hed & Hfl).
  unfold Inv, consume; cbn [allNodes allEdges rightNeedle count edgeFlag].
  repeat split; auto.
  - apply Forall_app. split; [exact Hed|].
    apply Forall_forall. intros e He.
    apply fan_In in He as (u & a & _ & Hin & ->).
    rewrite Forall_forall in Ha. split; [simpl; auto|].
    right. reflexivity.
  - apply Hfl. exact H.
  - apply Hfl. exact H.
Qed.

End Preservation.

(** ** Whole runs *)
Section Runs.
Import Compiler Exec Shape Invariant.

(** A technique step that does not throw is a swap (when asked for), the
    creation of [add] stitches and the consumption of [kill] stitches. *)
Lemma execTechnique_Ok stitch tech st st' :
  execTechnique stitch tech st = Ok st' ->
  let st1 := if cursor_dir tech then swapNeedles st else st in
  kill tech <= List.length (leftNeedle st1) /\
  st' = consume (kill tech) (seq (count st) (add tech))
                (grow stitch (character tech) tech (add tech) st1).
Proof.
  rewrite execTechnique_eq. intros H st1.
  destruct (le_lt_dec (kill tech) (List.length (leftNeedle st1))) as [Hle|Hlt].
  - split; [exact Hle|].
    rewrite killLoop_consume in H by exact Hle.
    inversion H. reflexivity.
  - rewrite killLoop_underflow in H; [discriminate|exact Hlt|lia].
Qed.

Lemma count_swap_or_not (b : bool) st :
  count (if b then swapNeedles st else st) = count st.
Proof. destruct b; reflexivity. Qed.

Lemma allEdges_swap_or_not (b : bool) st :
  allEdges (if b then swapNeedles st else st) = allEdges st.
Proof. destruct b; reflexivity. Qed.

Lemma execTechnique_Inv stitch tech st st' :
  Inv st -> execTechnique stitch tech st = Ok st' -> Inv st'.
Proof.
  intros HI H. apply execTechnique_Ok in H as [_ ->].
  apply Inv_consume.
  - apply Forall_forall. intros a Ha. apply in_seq in Ha.
    simpl. rewrite count_swap_or_not. lia.
  - apply Inv_grow. destruct (cursor_dir tech); [apply Inv_swapNeedles|];
      exact HI.
Qed.

Lemma execTechnique_Later stitch tech st st' :
  execTechnique stitch tech st = Ok st' -> Later st st'.
Proof.
  intros H. apply execTechnique_Ok in H as [_ ->].
  set (st1 := if cursor_dir tech then swapNeedles st else st).
  assert (H1 : Later st st1)
    by (unfold st1; destruct (cursor_dir tech);
        [apply Later_swapNeedles|apply Later_refl]).
  apply (Later_trans _ _ _ H1).
  assert (Hc : count st1 = count st) by apply count_swap_or_not.
  unfold Later, consume, grow;
    cbn [allEdges count edgeFlag leftNeedle]. repeat split.
  - lia.
  - intros e He. rewrite <- app_assoc in He.
    apply in_app_iff in He as [He|He]; [now left|right].
    apply in_app_iff in He as [He|He].
    + apply hLinks_In in He as (_ & _ & Hr & Hf). split; [lia|].
      intros _ Hfl. exact (Hf Hfl).
    + apply fan_In in He as (u & a & _ & Ha & ->). apply in_seq in Ha.
      simpl. split; [lia|]. discriminate.
  - intros Heq Hfl. destruct (add tech); [exact Hfl|lia].
Qed.

Lemma processToken_Inv_Later st s next st' skip :
  Inv st -> processToken st s next = Ok (st', skip) ->
  Inv st' /\ Later st st'.
Proof.
  intros HI. unfold processToken.
  destruct (String.eqb (Js.toLowerCase s) "co"
            || Js.startsWith (Js.toLowerCase s) "co").
  - destruct (castOnCount _ _) as [n sk]. intros H; inversion H; subst.
    rewrite castOnLoop_grow. split; [now apply Inv_grow|apply Later_grow].
  - destruct (lookupTechnique (Js.toLowerCase s)) as [tech| |].
    + destruct (execTechnique _ tech st) as [st2|] eqn:E; simpl;
        [|discriminate].
      intros H; inversion H; subst. split.
      * eapply execTechnique_Inv; eauto.
      * eapply execTechnique_Later; eauto.
    + intros H; inversion H; subst. split; [exact HI|apply Later_refl].
    + destruct (_ && _); [|discriminate].
      intros H; inversion H; subst. split; [exact HI|apply Later_refl].
Qed.

Lemma advance_length skip rest :
  List.length (advance skip rest) <= List.length rest.
Proof. destruct skip, rest; simpl; lia. Qed.

Lemma runTokens_Inv_Later tokens st st' :
  Inv st -> runTokens st tokens = Ok st' -> Inv st' /\ Later st st'.
Proof.
  remember (List.length tokens) as n eqn:Hn.
  assert (Hle : List.length tokens <= n) by lia. clear Hn.
  revert tokens st Hle. induction n as [|n IH]; intros tokens st Hle HI.
  - destruct tokens; [|simpl in Hle; lia]. simpl.
    intros H; inversion H; subst. split; [exact HI|apply Later_refl].
  - destruct tokens as [|s rest].
    + simpl. intros H; inversion H; subst.
      split; [exact HI|apply Later_refl].
    + rewrite runTokens_cons.
      destruct (processToken st s (hd_error rest)) as [[st1 skip]|] eqn:E;
        simpl; [|discriminate].
      intros H. destruct (processToken_Inv_Later _ _ _ _ _ HI E) as [HI1 HL1].
      apply IH in H as [HI2 HL2]; [| |exact HI1].
      * split; [exact HI2|]. eapply Later_trans; eauto.
      * pose proof (advance_length skip rest). simpl in Hle. lia.
Qed.

Lemma runRows_Inv_Later rows st st' :
  Inv st -> runRows st rows = Ok st' -> Inv st' /\ Later st st'.
Proof.
  revert st; induction rows as [|tokens rows IH]; intros st HI; simpl.
  - intros H; inversion H; subst. split; [exact HI|apply Later_refl].
  - destruct (runTokens st tokens) as [st1|] eqn:E; simpl; [|discriminate].
    intros H. destruct (runTokens_Inv_Later _ _ _ HI E) as [HI1 HL1].
    apply IH in H as [HI2 HL2]; [|now apply Inv_endOfLine].
    split; [exact HI2|].
    eapply Later_trans; [exact HL1|].
    eapply Later_trans; [apply Later_endOfLine|exact HL2].
Qed.

Lemma Reach_Inv rows0 st tokens rows :
  Reach rows0 st tokens rows -> Inv st.
Proof.
  induction 1 as [| st s rest rows st' skip _ IH Hstep | st tokens rows _ IH].
  - apply Inv_initial.
  - eapply processToken_Inv_Later; eauto.
  - now apply Inv_endOfLine.
Qed.

(** The final state of a successful compile comes after every configuration
    it went through. *)
Lemma Reach_final rows0 st tokens rows final :
  Reach rows0 st tokens rows ->
  runRows initialState rows0 = Ok final ->
  Inv final /\ Later st final.
Proof.
  intros HR Hrun. pose proof (Reach_Inv _ _ _ _ HR) as HI.
  rewrite (Reach_outcome _ _ _ _ HR) in Hrun.
  destruct (runTokens st tokens) as [st1|] eqn:E; simpl in Hrun;
    [|discriminate].
  destruct (runTokens_Inv_Later _ _ _ HI E) as [HI1 HL1].
  apply runRows_Inv_Later in Hrun as [HI2 HL2]; [|now apply Inv_endOfLine].
  split; [exact HI2|].
  eapply Later_trans; [exact HL1|].
  eapply Later_trans; [apply Later_endOfLine|exact HL2].
Qed.

(** Running the rest of a row stays within reachable configurations. *)
Lemma Reach_row_end rows0 tokens st rows st' :
  Reach rows0 st tokens rows ->
  runTokens st tokens = Ok st' ->
  Reach rows0 st' [] rows.
Proof.
  remember (List.length tokens) as n eqn:Hn.
  assert (Hle : List.length tokens <= n) by lia. clear Hn.
  revert tokens st Hle. induction n as [|n IH]; intros tokens st Hle HR.
  - destruct tokens; [|simpl in Hle; lia]. simpl.
    intros H; inversion H; subst. exact HR.
  - destruct tokens as [|s rest].
    + simpl. intros H; inversion H; subst. exact HR.
    + rewrite runTokens_cons.
      destruct (processToken st s (hd_error rest)) as [[st1 skip]|] eqn:E;
        simpl; [|discriminate].
      apply IH.
      * pose proof (advance_length skip rest). simpl in Hle. lia.
      * eapply Reach_token; eauto.
Qed.

End Runs.

(** ** Edges of a technique step and structure of the compiled graph *)
Section GraphStructure.
Import Compiler Exec Shape Invariant.

Lemma compile_Inv pattern final :
  runRows initialState (tokenRows pattern) = Ok final -> Inv final.
Proof.
  intros H. apply (runRows_Inv_Later _ _ _ Inv_initial H).
Qed.

Lemma compiled_edge_weight pattern e :
  In e (edges (parsePattern pattern)) ->
  weight e = match edge_type e with
             | horizontal => 1%Q
             | vertical => (3 # 2)%Q
             end.
Proof.
  rewrite parsePattern_rows.
  destruct (runRows initialState (tokenRows pattern)) as [final|] eqn:E;
    simpl; [|contradiction].
  intros He. destruct (compile_Inv _ _ E) as (_ & Hed & _).
  rewrite Forall_forall in Hed.
  destruct (Hed e He) as (_ & [[-> _]| ->]); reflexivity.
Qed.

(** C4. A step of a known technique with [add = a] and [kill = k], run with
    at least [k] stitches on the holding needle, does not throw; it creates
    the [a] nodes [count .. count+a-1], pops the last [k] stitches of the
    holding needle, and appends to the edges first the horizontal links of
    the new nodes and then, for every popped stitch in pop order, one
    vertical edge of weight 1.5 to every new node: [k * a] vertical edges,
    whatever the order of [a] and [k].  Horizontal edges have weight 1, in
    the step and in every compiled graph. *)
Theorem technique_step_fans st s next tech :
  let stitch := Js.toLowerCase s in
  let st1 := if cursor_dir tech then swapNeedles st else st in
  let added := seq (count st) (add tech) in
  let used := firstn (kill tech) (rev (leftNeedle st1)) in
  Js.startsWith stitch "co" = false ->
  lookupTechnique stitch = Own tech ->
  kill tech <= List.length (leftNeedle st1) ->
  exists st',
    processToken st s next = Ok (st', false) /\
    allNodes st' =
      allNodes st ++ map (fun c => mkNode c stitch (character tech) tech)
                         added /\
    leftNeedle st' =
      firstn (List.length (leftNeedle st1) - kill tech) (leftNeedle st1) /\
    allEdges st' =
      allEdges st ++ hLinks (edgeFlag st1) (count st) (add tech)
                  ++ fan used added /\
    List.length used = kill tech /\
    List.length added = add tech /\
    List.length (fan used added) = kill tech * add tech /\
    (forall u a, In u used -> In a added ->
                 In (mkEdge u a (3 # 2) vertical) (fan used added)) /\
    (forall e, In e (fan used added) ->
               edge_type e = vertical /\ weight e = (3 # 2)%Q /\
               In (source e) used /\ In (target e) added) /\
    (forall e, In e (hLinks (edgeFlag st1) (count st) (add tech)) ->
               edge_type e = horizontal /\ weight e = 1%Q) /\
    (forall pattern e, In e (edges (parsePattern pattern)) ->
               weight e = match edge_type e with
                          | horizontal => 1%Q
                          | vertical => (3 # 2)%Q
                          end).
Proof.
  intros stitch st1 added used Hco Hlook Hk.
  assert (Hused : List.length used = kill tech).
  { unfold used. rewrite firstn_length_le; [reflexivity|].
    rewrite length_rev. exact Hk. }
  assert (Hadded : List.length added = add tech)
    by (unfold added; apply length_seq).
  exists (consume (kill tech) added
                  (grow stitch (character tech) tech (add tech) st1)).
  repeat apply conj.
  - unfold processToken. fold stitch.
    rewrite (startsWith_co_false _ Hco), Hlook, execTechnique_eq.
    fold st1 added. rewrite killLoop_consume; [reflexivity|exact Hk].
  - unfold consume, grow, st1; cbn [allNodes count].
    rewrite count_swap_or_not. destruct (cursor_dir tech); reflexivity.
  - unfold consume, grow; cbn [leftNeedle]. reflexivity.
  - unfold consume, grow; cbn [allEdges leftNeedle count edgeFlag].
    unfold st1 at 1 3. rewrite allEdges_swap_or_not, count_swap_or_not.
    rewrite <- app_assoc. reflexivity.
  - exact Hused.
  - exact Hadded.
  - rewrite fan_length, Hused, Hadded. reflexivity.
  - intros u a Hu Ha. apply fan_In. exists u, a. auto.
  - intros e H. apply fan_In in H as (u & a & Hu & Ha & ->).
    repeat apply conj; [reflexivity|reflexivity|exact Hu|exact Ha].
  - intros e H. apply hLinks_In in H as (-> & _). split; reflexivity.
  - intros pattern e. apply compiled_edge_weight.
Qed.

(** C5. In a successful compile the node ids are [0 .. N-1] in creation
    order; every horizontal edge goes from a node to the one created right
    after it; and no horizontal edge crosses a needle swap or a row boundary:
    both raise the edge flag, and no horizontal edge of the result ends at
    the first node created after a configuration whose flag is raised. *)
Theorem dense_ids_and_pass_local_links (pattern : string) :
  success (parsePattern pattern) = true ->
  let r := parsePattern pattern in
  map id (nodes r) = seq 0 (List.length (nodes r)) /\
  (forall e, In e (edges r) -> edge_type e = horizontal ->
             target e = S (source e) /\ target e < List.length (nodes r)) /\
  (forall st tokens rows,
     Reach (tokenRows pattern) st tokens rows ->
     (tokens = [] -> edgeFlag (endOfLine st) = true) /\
     (forall s rest, tokens = s :: rest -> Js.toLowerCase s = "turn" ->
        processToken st s (hd_error rest) = Ok (swapNeedles st, false) /\
        edgeFlag (swapNeedles st) = true) /\
     (edgeFlag st = true ->
      forall e, In e (edges r) -> edge_type e = horizontal ->
                target e <> count st)).
Proof.
  intros Hs r. unfold r. revert Hs. rewrite parsePattern_rows.
  destruct (runRows initialState (tokenRows pattern)) as [final|] eqn:E;
    simpl; [intros _|discriminate].
  pose proof (compile_Inv _ _ E) as (Hid & Hed & _).
  assert (Hlen : List.length (allNodes final) = count final).
  { rewrite <- (length_map id), Hid, length_seq. reflexivity. }
  rewrite Forall_forall in Hed.
  split; [|split].
  - rewrite Hlen. exact Hid.
  - intros e He Hty. rewrite Hlen.
    destruct (Hed e He) as (Ht & [[_ Hs]|Hv]).
    + split; assumption.
    + rewrite Hv in Hty. discriminate.
  - intros st tokens rows HR. split; [|split].
    + intros _. apply endOfLine_rearms. eapply Reach_Inv; eauto.
    + intros s rest _ Hturn. split; [|reflexivity].
      unfold processToken. rewrite Hturn.
      change (bind (execTechnique "turn" (mkTechnique "k" 0 0 true) st)
                   (fun st' => Ok (st', false))
              = Ok (swapNeedles st, false)).
      rewrite execTechnique_eq. cbn [kill add cursor_dir killLoop].
      rewrite grow_0. reflexivity.
    + intros Hfl e He Hty Heq.
      destruct (Reach_final _ _ _ _ _ HR E) as (_ & _ & HL & _).
      pose proof (Reach_Inv _ _ _ _ HR) as (_ & Hold & _).
      rewrite Forall_forall in Hold.
      destruct (HL e He) as [Hin|[_ Hnew]].
      * destruct (Hold e Hin) as [Ht _]. lia.
      * specialize (Hnew Hty Hfl). lia.
Qed.

End GraphStructure.

(** [kfb3-3] on a holding needle of three stitches: nine vertical edges. *)
Lemma technique_step_fans_witness :
  exists st',
    Compiler.processToken (Compiler.mkState [] [] [] [0; 1; 2] 3 true)
                          "kfb3-3" None = Compiler.Ok (st', false) /\
    Compiler.allEdges st' =
      [Shape.hEdge 3 4; Shape.hEdge 4 5;
       Shape.vEdge 2 3; Shape.vEdge 2 4; Shape.vEdge 2 5;
       Shape.vEdge 1 3; Shape.vEdge 1 4; Shape.vEdge 1 5;
       Shape.vEdge 0 3; Shape.vEdge 0 4; Shape.vEdge 0 5].
Proof.
  destruct (technique_step_fans
              (Compiler.mkState [] [] [] [0; 1; 2] 3 true) "kfb3-3" None
              (Compiler.mkTechnique "k" 3 3 false)
              eq_refl eq_refl (le_n 3))
    as (st' & Hstep & _ & _ & Hedges & _).
  exists st'. split; [exact Hstep|exact Hedges].
Defined.

(** Two rows of three stitches: ids [0 .. 5]. *)
Lemma dense_ids_witness :
  map Compiler.id
      (Compiler.nodes
         (Compiler.parsePattern ("co 3" ++ String Compiler.newline "k k k")))
  = [0; 1; 2; 3; 4; 5].
Proof.
  exact (proj1 (dense_ids_and_pass_local_links
                  ("co 3" ++ String Compiler.newline "k k k") eq_refl)).
Defined.

(** ** Plain knit rows on a cast-on *)
Section KnitRows.
Import Compiler Exec Shape Invariant.

Lemma processToken_k st next l u :
  leftNeedle st = l ++ [u] ->
  processToken st "k" next =
  Ok (mkState (allNodes st ++ [kNode (count st)])
              (allEdges st ++ hLinks (edgeFlag st) (count st) 1
                           ++ [vEdge u (count st)])
              (rightNeedle st ++ [count st]) l (S (count st)) false,
      false).
Proof.
  intros Hl. unfold processToken.
  change (bind (execTechnique "k" kTechnique st) (fun st' => Ok (st', false))
          = Ok (mkState (allNodes st ++ [kNode (count st)])
                  (allEdges st ++ hLinks (edgeFlag st) (count st) 1
                               ++ [vEdge u (count st)])
                  (rightNeedle st ++ [count st]) l (S (count st)) false,
                false)).
  rewrite execTechnique_eq. cbn [kill add cursor_dir character kTechnique].
  rewrite killLoop_consume by (cbn [grow leftNeedle]; rewrite Hl, length_app;
                               simpl; lia).
  unfold consume, grow, fan;
    cbn [allNodes allEdges rightNeedle leftNeedle count edgeFlag bind].
  rewrite Hl, rev_app_distr, length_app. simpl.
  replace (List.length l + 1 - 1) with (List.length l) by lia.
  rewrite firstn_app, firstn_all, Nat.sub_diag. simpl.
  rewrite !app_nil_r, <- app_assoc, Nat.add_1_r. reflexivity.
Qed.

Lemma runTokens_knit used : forall st l,
  leftNeedle st = l ++ rev used ->
  runTokens st (repeat "k" (List.length used)) =
  Ok (mkState (allNodes st ++ map kNode (seq (count st) (List.length used)))
              (allEdges st ++ knitEdges (edgeFlag st) (count st) used)
              (rightNeedle st ++ seq (count st) (List.length used))
              l
              (count st + List.length used)
              (match used with [] => edgeFlag st | _ :: _ => false end)).
Proof.
  induction used as [|u used IH]; intros st l Hl.
  - simpl. simpl in Hl. rewrite !app_nil_r in *. rewrite Nat.add_0_r.
    rewrite <- Hl. f_equal. apply State_eta.
  - simpl in Hl. rewrite app_assoc in Hl.
    cbn [List.length repeat]. rewrite runTokens_cons.
    rewrite (processToken_k _ _ _ _ Hl).
    cbn [bind fst snd advance].
    replace (advance false (repeat "k" (List.length used)))
      with (repeat "k" (List.length used))
      by (destruct (repeat "k" (List.length used)); reflexivity).
    rewrite (IH _ l) by reflexivity.
    cbn [allNodes allEdges rightNeedle leftNeedle count edgeFlag].
    f_equal. f_equal.
    + rewrite <- app_assoc. reflexivity.
    + rewrite <- !app_assoc. reflexivity.
    + rewrite <- app_assoc. reflexivity.
    + lia.
    + destruct used; reflexivity.
Qed.

Lemma runTokens_row n i :
  1 <= n ->
  exists st', runTokens (rowState n i) (repeat "k" n) = Ok st' /\
              endOfLine st' = rowState n (S i).
Proof.
  intros Hn.
  pose proof (runTokens_knit (rev (seq (n * i) n)) (rowState n i) []) as H.
  rewrite length_rev, length_seq, rev_involutive in H.
  specialize (H eq_refl). eexists. split; [exact H|].
  unfold endOfLine.
  cbn [allNodes allEdges rightNeedle leftNeedle count edgeFlag].
  destruct (rightNeedle (rowState n i) ++ seq (count (rowState n i)) n)
    as [|x right] eqn:E.
  - apply (f_equal (@List.length nat)) in E.
    rewrite length_app, length_seq in E. simpl in E. lia.
  - rewrite <- E. unfold rowState.
    cbn [allNodes allEdges rightNeedle leftNeedle count edgeFlag].
    rewrite app_nil_l.
    replace (n * S i + n) with (n * S (S i)) by lia.
    f_equal.
    + rewrite <- app_assoc, <- map_app. f_equal. f_equal.
      replace (n * S i) with (n + n * i) at 1 by lia.
      rewrite <- seq_app. f_equal. lia.
    + rewrite <- app_assoc. f_equal.
      rewrite seq_S, flat_map_app. simpl flat_map. rewrite app_nil_r.
      unfold knitRow. f_equal. f_equal. f_equal. f_equal. lia.
Qed.

Lemma runRows_knit n m : forall i,
  1 <= n ->
  runRows (rowState n i) (repeat (repeat "k" n) m) = Ok (rowState n (i + m)).
Proof.
  induction m as [|m IH]; intros i Hn; simpl.
  - rewrite Nat.add_0_r. reflexivity.
  - destruct (runTokens_row n i Hn) as (st' & Hrun & Heol).
    rewrite Hrun. simpl. rewrite Heol, IH by exact Hn.
    f_equal. f_equal. lia.
Qed.

Lemma runTokens_cast_on s n :
  Js.parseInt s = Some (Z.of_nat n) -> 1 <= n ->
  exists st', runTokens initialState ["co"; s] = Ok st' /\
              endOfLine st' = rowState n 0.
Proof.
  intros Hs Hn. eexists. split.
  - rewrite runTokens_cons. unfold processToken.
    change (Js.toLowerCase "co") with "co".
    change (String.eqb "co" "co" || Js.startsWith "co" "co") with true.
    cbv iota. unfold castOnCount.
    change (String.eqb "co" "co") with true. cbv iota.
    cbn [hd_error]. rewrite Hs, Nat2Z.id, castOnLoop_grow.
    cbn [bind fst snd advance runTokens]. reflexivity.
  - unfold endOfLine, rowState, grow, initialState;
      cbn [allNodes allEdges rightNeedle leftNeedle count edgeFlag].
    destruct n as [|n]; [lia|].
    rewrite Nat.mul_0_r, Nat.mul_1_r. simpl app.
    change (seq 1 0) with (@nil nat). simpl flat_map.
    rewrite !app_nil_r. reflexivity.
Qed.

Lemma knitEdges_counts used : forall flag c,
  List.length (filter isVertical (knitEdges flag c used)) = List.length used /\
  List.length (filter isHorizontal (knitEdges flag c used)) =
    List.length used - (if negb flag && (0 <? c) then 0 else 1).
Proof.
  induction used as [|u used IH]; intros flag c.
  - simpl. split; reflexivity.
  - destruct (IH false (S c)) as [IHv IHh]. simpl in IHh.
    cbn [knitEdges hLinks]. rewrite app_nil_r.
    rewrite !filter_app, !length_app.
    destruct (negb flag && (0 <? c)); simpl; rewrite IHv, IHh; lia.
Qed.

Lemma knitEdges_vertical used : forall flag c j,
  j < List.length used ->
  In (vEdge (nth j used 0) (c + j)) (knitEdges flag c used).
Proof.
  induction used as [|u used IH]; intros flag c j Hj; simpl in Hj; [lia|].
  cbn [knitEdges]. apply in_or_app. right.
  destruct j as [|j].
  - left. rewrite Nat.add_0_r. reflexivity.
  - right. replace (c + S j) with (S c + j) by lia.
    apply IH. lia.
Qed.

(** C1. A pattern whose rows are the cast-on [co N] ([N >= 1]) followed
    by lines of exactly [N] tokens [k] compiles; the graph has the [N] cast-on
    nodes followed by [N] knit nodes for each row, [N * (rows + 1)] in all;
    its edges are the links of the cast-on followed, row after row, by the
    edges of that row, which are exactly [N] vertical ones (one from every
    stitch of the row below) and [N - 1] horizontal ones; and at the start of
    every knit row the end-of-line rule has put the previous row on the
    left needle, emptied the right needle and raised the edge flag. *)
Theorem knit_rows_graph (pattern s : string) (n rows : nat) :
  tokenRows pattern = ["co"; s] :: repeat (repeat "k" n) rows ->
  Js.parseInt s = Some (Z.of_nat n) ->
  1 <= n ->
  let r := parsePattern pattern in
  success r = true /\ error r = None /\
  nodes r = map coNode (seq 0 n) ++ map kNode (seq n (n * rows)) /\
  List.length (nodes r) = n * S rows /\
  edges r = hLinks true 0 n ++ flat_map (knitRow n) (seq 1 rows) /\
  (forall i, 1 <= i <= rows ->
     List.length (filter isVertical (knitRow n i)) = n /\
     List.length (filter isHorizontal (knitRow n i)) = n - 1 /\
     (forall j, j < n ->
        In (vEdge (n * i - 1 - j) (n * i + j)) (knitRow n i))) /\
  (forall i, i < rows ->
     Reach (tokenRows pattern) (rowState n i) (repeat "k" n)
           (repeat (repeat "k" n) (rows - S i))).
Proof.
  intros Hrows Hs Hn r.
  destruct (runTokens_cast_on s n Hs Hn) as (st0 & Hrun0 & Heol0).
  assert (Hres : r = mkResult (allNodes (rowState n rows))
                              (allEdges (rowState n rows)) true None).
  { unfold r. rewrite parsePattern_rows, Hrows. cbn [runRows].
    rewrite Hrun0. cbn [bind]. rewrite Heol0, runRows_knit by exact Hn.
    reflexivity. }
  rewrite Hres. cbn [success error nodes edges rowState allNodes allEdges].
  repeat apply conj; try reflexivity.
  - rewrite length_app, !length_map, !length_seq. lia.
  - intros i Hi. unfold knitRow.
    destruct (knitEdges_counts (rev (seq (n * (i - 1)) n)) true (n * i))
      as [Hv Hh].
    rewrite length_rev, length_seq in Hv, Hh.
    repeat apply conj; [exact Hv|exact Hh|].
    intros j Hj.
    pose proof (knitEdges_vertical (rev (seq (n * (i - 1)) n)) true (n * i) j)
      as Hin.
    rewrite length_rev, length_seq in Hin. specialize (Hin Hj).
    rewrite rev_nth, length_seq, seq_nth in Hin
      by (rewrite ?length_seq; lia).
    replace (n * (i - 1) + (n - S j)) with (n * i - 1 - j) in Hin by nia.
    exact Hin.
  - intros i. induction i as [|i IH]; intros Hi.
    + destruct rows as [|rows]; [lia|].
      replace (S rows - 1) with rows by lia.
      rewrite <- Heol0. apply Reach_line.
      apply (Reach_row_end _ ["co"; s] initialState); [|exact Hrun0].
      apply Reach_start. exact Hrows.
    + destruct (runTokens_row n i Hn) as (st' & Hrun & Heol).
      rewrite <- Heol.
      assert (IH' := IH ltac:(lia)).
      replace (rows - S i) with (S (rows - S (S i))) in IH' by lia.
      apply Reach_line.
      apply (Reach_row_end _ (repeat "k" n) (rowState n i)); assumption.
Qed.

End KnitRows.

(** Two knit rows of three stitches on [co 3]. *)
Lemma knit_rows_graph_witness :
  let r := Compiler.parsePattern
             ("co 3" ++ String Compiler.newline
                          ("k k k" ++ String Compiler.newline "k k k")) in
  List.length (Compiler.nodes r) = 9 /\
  Compiler.edges r =
    Shape.hLinks true 0 3 ++ Shape.knitRow 3 1 ++ Shape.knitRow 3 2.
Proof.
  destruct (knit_rows_graph
              ("co 3" ++ String Compiler.newline
                           ("k k k" ++ String Compiler.newline "k k k"))
              "3" 3 2 eq_refl eq_refl (le_S _ _ (le_S _ _ (le_n 1))))
    as (_ & _ & _ & Hlen & Hedges & _).
  split; [exact Hlen|exact Hedges].
Defined.

(** ** Grid seeding of a cast-on row *)
Section GridSingleRow.
Import Compiler Exec Shape Layout.

(** The graph of a pattern made of one cast-on. *)
Lemma cast_on_graph pattern s n :
  tokenRows pattern = [["co"; s]] ->
  Js.parseInt s = Some (Z.of_nat n) -> 1 <= n ->
  parsePattern pattern =
  mkResult (map coNode (seq 0 n)) (hLinks true 0 n) true None.
Proof.
  intros Hrows Hs Hn.
  destruct (runTokens_cast_on s n Hs Hn) as (st0 & Hrun & Heol).
  rewrite parsePattern_rows, Hrows. cbn [runRows]. rewrite Hrun.
  cbn [bind runRows]. rewrite Heol. unfold rowState.
  cbn [allNodes allEdges]. rewrite Nat.mul_0_r. simpl seq at 2 3.
  simpl map at 2. simpl flat_map. rewrite !app_nil_r. reflexivity.
Qed.

Lemma hLinks_mem n : forall flag c j,
  1 <= j < n -> In (hEdge (c + j - 1) (c + j)) (hLinks flag c n).
Proof.
  induction n as [|n IH]; intros flag c j Hj; [lia|].
  cbn [hLinks]. apply in_or_app. right.
  destruct (Nat.eq_dec j 1) as [->|Hne].
  - destruct n as [|n]; [lia|]. cbn [hLinks]. simpl.
    left. f_equal; lia.
  - replace (c + j - 1) with (S c + (j - 1) - 1) by lia.
    replace (c + j) with (S c + (j - 1)) by lia.
    apply IH. lia.
Qed.

Definition unplaced (i : nat) : Placed := mkPlaced (coNode i) None.

Lemma idOf_unplaced n i :
  i < n -> idOf (map unplaced (seq 0 n)) i = i.
Proof.
  intros Hi. unfold idOf.
  rewrite nth_error_map, nth_error_nth' with (d := 0)
    by (rewrite length_seq; exact Hi).
  rewrite seq_nth by exact Hi. reflexivity.
Qed.

Lemma sortById_seq store m : forall a,
  (forall i, a <= i < a + m -> idOf store i = i) ->
  sortById store (seq a m) = seq a m.
Proof.
  unfold sortById. induction m as [|m IH]; intros a Hid; [reflexivity|].
  cbn [seq fold_right]. rewrite IH by (intros i Hi; apply Hid; lia).
  destruct m as [|m]; [reflexivity|].
  cbn [seq insertById]. rewrite !Hid by lia.
  replace (a <=? S a) with true by (symmetry; apply Nat.leb_le; lia).
  reflexivity.
Qed.

Lemma hasHorizontalEdge_link n k :
  1 <= k < n -> hasHorizontalEdge (hLinks true 0 n) (k - 1) k = true.
Proof.
  intros Hk. unfold hasHorizontalEdge. apply existsb_exists.
  exists (hEdge (k - 1) k). split.
  - apply (hLinks_mem n true 0 k Hk).
  - simpl. rewrite !Nat.eqb_refl. reflexivity.
Qed.

Lemma groupLoop_chain n m : forall k,
  1 <= k -> k + m <= n ->
  groupLoop (map unplaced (seq 0 n)) (hLinks true 0 n)
            (Some (k - 1)) (seq 0 k) [] (seq k m)
  = ([], seq 0 (k + m)).
Proof.
  induction m as [|m IH]; intros k Hk Hn.
  - rewrite Nat.add_0_r. reflexivity.
  - cbn [seq groupLoop].
    destruct (seq 0 k) as [|z row] eqn:E.
    + apply (f_equal (@List.length nat)) in E.
      rewrite length_seq in E. simpl in E. lia.
    + rewrite <- E.
      rewrite !idOf_unplaced by lia.
      rewrite hasHorizontalEdge_link by lia.
      replace (seq 0 k ++ [k]) with (seq 0 (S k))
        by (rewrite seq_S; reflexivity).
      replace (Some k) with (Some (S k - 1)) by (f_equal; lia).
      rewrite IH by lia. f_equal. f_equal. lia.
Qed.

Lemma groupRows_chain n :
  1 <= n ->
  groupRows (map unplaced (seq 0 n)) (hLinks true 0 n) (seq 0 n)
  = [seq 0 n].
Proof.
  intros Hn. destruct n as [|n]; [lia|].
  pose proof (groupLoop_chain (S n) n 1 (le_n 1) ltac:(lia)) as H.
  change (Some (1 - 1)) with (Some 0) in H.
  change (seq 0 1) with [0] in H.
  change (1 + n) with (S n) in H.
  set (store := map unplaced (seq 0 (S n))) in *.
  set (links := hLinks true 0 (S n)) in *.
  change (seq 0 (S n)) with (0 :: seq 1 n) at 1.
  unfold groupRows. cbn [groupLoop app]. rewrite H.
  destruct (seq 0 (S n)) eqn:E; [discriminate|reflexivity].
Qed.

Lemma assign_app (A B : Store) pl p k :
  List.length A = k ->
  assign k p (A ++ pl :: B)
  = A ++ mkPlaced (placed_node pl) (Some p) :: B.
Proof.
  intros <-. induction A as [|a A IH]; simpl; [reflexivity|].
  rewrite IH. reflexivity.
Qed.

Lemma placeRow_seq gs X Y m : forall k,
  placeRow gs X Y k (seq k m)
    (map (fun i => mkPlaced (coNode i)
                     (Some (mkPoint (X + ofNat i * gs)%Q Y))) (seq 0 k)
     ++ map unplaced (seq k m))
  = map (fun i => mkPlaced (coNode i)
                    (Some (mkPoint (X + ofNat i * gs)%Q Y))) (seq 0 (k + m)).
Proof.
  induction m as [|m IH]; intros k.
  - simpl. rewrite app_nil_r, Nat.add_0_r. reflexivity.
  - cbn [seq map placeRow].
    set (placedF := fun i => mkPlaced (coNode i)
                               (Some (mkPoint (X + ofNat i * gs)%Q Y))).
    rewrite assign_app by (rewrite length_map, length_seq; reflexivity).
    cbn [placed_node unplaced].
    replace (map placedF (seq 0 k)
             ++ mkPlaced (coNode k) (Some (mkPoint (X + ofNat k * gs)%Q Y))
             :: map unplaced (seq (S k) m))
      with (map placedF (seq 0 (S k)) ++ map unplaced (seq (S k) m)).
    + fold placedF in IH. rewrite IH. f_equal. f_equal. lia.
    + rewrite seq_S, map_app, <- app_assoc. reflexivity.
Qed.

Lemma ofNat_S i : (ofNat (S i) == ofNat i + 1)%Q.
Proof.
  unfold ofNat. rewrite Nat2Z.inj_succ, <- Z.add_1_r, inject_Z_plus.
  reflexivity.
Qed.


End GridSingleRow.


(** ** The segment-intersection predicate *)
Section SegmentIntersection.
Import Geometry.

Lemma doSegmentsIntersect_sym {num : Type} (ops : NumOps num)
      (p1 p2 q1 q2 : Point num) :
  doSegmentsIntersect ops p1 p2 q1 q2 = doSegmentsIntersect ops q1 q2 p1 p2.
Proof.
  unfold doSegmentsIntersect.
  destruct (orientation ops p1 p2 q1 =? orientation ops p1 p2 q2);
  destruct (orientation ops q1 q2 p1 =? orientation ops q1 q2 p2);
  destruct (orientation ops p1 p2 q1 =? 0);
  destruct (orientation ops p1 p2 q2 =? 0);
  destruct (orientation ops q1 q2 p1 =? 0);
  destruct (orientation ops q1 q2 p2 =? 0);
  destruct (onSegment ops p1 q1 p2);
  destruct (onSegment ops p1 q2 p2);
  destruct (onSegment ops q1 p1 q2);
  destruct (onSegment ops q1 p2 q2);
  reflexivity.
Qed.

Lemma orientation_0 a b c :
  orientation QOps a b c = 0 <-> (cross a b c == 0)%Q.
Proof.
  unfold orientation, cross; simpl.
  destruct (Qeq_bool _ 0) eqn:E.
  - apply Qeq_bool_iff in E. tauto.
  - split; [destruct (negb _); discriminate|].
    intros H. apply Qeq_bool_iff in H. congruence.
Qed.

Lemma orientation_1 a b c :
  orientation QOps a b c = 1 <-> (0 < cross a b c)%Q.
Proof.
  unfold orientation, cross; simpl.
  destruct (Qeq_bool _ 0) eqn:E.
  - apply Qeq_bool_iff in E. split; [discriminate|]. intros H. lra.
  - destruct (Qle_bool _ 0) eqn:L; simpl.
    + apply Qle_bool_iff in L. split; [discriminate|]. intros H. lra.
    + split; [intros _|reflexivity].
      apply Qnot_le_lt. intros H. apply Qle_bool_iff in H. congruence.
Qed.

Lemma orientation_2 a b c :
  orientation QOps a b c = 2 <-> (cross a b c < 0)%Q.
Proof.
  unfold orientation, cross; simpl.
  destruct (Qeq_bool _ 0) eqn:E.
  - apply Qeq_bool_iff in E. split; [discriminate|]. intros H. lra.
  - destruct (Qle_bool _ 0) eqn:L; simpl.
    + apply Qle_bool_iff in L. split; [intros _|reflexivity].
      apply Qeq_bool_neq in E. lra.
    + split; [discriminate|]. intros H.
      assert (Qle_bool
                ((y b - y a) * (x c - x b) - (x b - x a) * (y c - y b)) 0
              = true) by (apply Qle_bool_iff; lra).
      congruence.
Qed.

Lemma orientation_cases a b c :
  orientation QOps a b c = 0 \/ orientation QOps a b c = 1 \/
  orientation QOps a b c = 2.
Proof.
  unfold orientation. destruct (isZero _ _); [auto|].
  destruct (isPositive _ _); auto.
Qed.

Lemma onSegment_iff a b c :
  onSegment QOps a b c = true <->
  between (x a) (x b) (x c) /\ between (y a) (y b) (y c).
Proof.
  unfold onSegment, between; simpl.
  rewrite !andb_true_iff, !Qle_bool_iff.
  destruct (Qle_bool (x a) (x c)) eqn:EX;
  destruct (Qle_bool (y a) (y c)) eqn:EY;
  try (apply Qle_bool_iff in EX); try (apply Qle_bool_iff in EY);
  try (assert (HX : (x c < x a)%Q)
        by (apply Qnot_le_lt; intros HH; apply Qle_bool_iff in HH;
            congruence));
  try (assert (HY : (y c < y a)%Q)
        by (apply Qnot_le_lt; intros HH; apply Qle_bool_iff in HH;
            congruence));
  intuition lra.
Qed.

Lemma between_scale a w b c k :
  between a w b -> between (c + a * k)%Q (c + w * k)%Q (c + b * k)%Q.
Proof.
  unfold between. intros H.
  destruct (Qlt_le_dec k 0) as [Hk|Hk]; destruct H as [[H1 H2]|[H1 H2]];
    [right|left|left|right]; split; nra.
Qed.

Lemma between_unscale a w b c k :
  ~ (k == 0)%Q ->
  between (c + a * k)%Q (c + w * k)%Q (c + b * k)%Q -> between a w b.
Proof.
  unfold between. intros Hk H.
  destruct (Qlt_le_dec k 0) as [Hk'|Hk'].
  - destruct H as [[H1 H2]|[H1 H2]]; [right|left]; split; nra.
  - assert (0 < k)%Q
      by (destruct (Qlt_le_dec 0 k); [assumption|exfalso; apply Hk; lra]).
    destruct H as [[H1 H2]|[H1 H2]]; [left|right]; split; nra.
Qed.

(** An affine function positive at both ends of a segment is positive at
    every point of the segment; here the segment goes left to right. *)
Lemma side_convex_x (A B C q1x q1y q2x q2y ex ey : Q) :
  (0 < A * q1x + B * q1y + C)%Q ->
  (0 < A * q2x + B * q2y + C)%Q ->
  ((q2y - q1y) * (ex - q2x) - (q2x - q1x) * (ey - q2y) == 0)%Q ->
  (q1x < q2x)%Q -> (q1x <= ex)%Q -> (ex <= q2x)%Q ->
  (0 < A * ex + B * ey + C)%Q.
Proof.
  intros H1 H2 Hc Lx Hx1 Hx2.
  set (F1 := (A * q1x + B * q1y + C)%Q) in *.
  set (F2 := (A * q2x + B * q2y + C)%Q) in *.
  set (Fe := (A * ex + B * ey + C)%Q).
  assert (Hid : ((q2x - q1x) * Fe ==
                 (q2x - ex) * F1 + (ex - q1x) * F2
                 - B * ((q2y - q1y) * (ex - q2x)
                        - (q2x - q1x) * (ey - q2y)))%Q)
    by (unfold Fe, F1, F2; ring).
  rewrite Hc in Hid.
  assert (P1 : (0 <= (q2x - ex) * F1)%Q) by nra.
  assert (P2 : (0 <= (ex - q1x) * F2)%Q) by nra.
  assert (P : (0 < (q2x - ex) * F1 + (ex - q1x) * F2)%Q).
  { destruct (Qlt_le_dec ex q2x) as [L|L].
    - assert (0 < (q2x - ex) * F1)%Q by nra. lra.
    - assert (0 < (ex - q1x) * F2)%Q by nra. lra. }
  destruct (Qlt_le_dec 0 Fe) as [L|L]; [exact L|].
  exfalso. assert ((q2x - q1x) * Fe <= 0)%Q by nra. lra.
Qed.

Lemma side_convex (A B C q1x q1y q2x q2y ex ey : Q) :
  (0 < A * q1x + B * q1y + C)%Q ->
  (0 < A * q2x + B * q2y + C)%Q ->
  ((q2y - q1y) * (ex - q2x) - (q2x - q1x) * (ey - q2y) == 0)%Q ->
  between q1x ex q2x -> between q1y ey q2y ->
  (0 < A * ex + B * ey + C)%Q.
Proof.
  intros H1 H2 Hc Hx Hy. unfold between in Hx, Hy.
  assert (Hc' : ((q1y - q2y) * (ex - q1x) - (q1x - q2x) * (ey - q1y)
                 == 0)%Q).
  { assert (E : ((q1y - q2y) * (ex - q1x) - (q1x - q2x) * (ey - q1y) ==
                 - ((q2y - q1y) * (ex - q2x) - (q2x - q1x) * (ey - q2y)))%Q)
      by ring.
    rewrite Hc in E. lra. }
  destruct (Qlt_le_dec q1x q2x) as [Lx|Lx].
  { apply (side_convex_x A B C q1x q1y q2x q2y); auto; lra. }
  destruct (Qlt_le_dec q2x q1x) as [Lx'|Lx'].
  { apply (side_convex_x A B C q2x q2y q1x q1y); auto; lra. }
  destruct (Qlt_le_dec q1y q2y) as [Ly|Ly].
  { assert (0 < B * ey + A * ex + C)%Q; [|lra].
    apply (side_convex_x B A C q1y q1x q2y q2x); try lra. }
  destruct (Qlt_le_dec q2y q1y) as [Ly'|Ly'].
  { assert (0 < B * ey + A * ex + C)%Q; [|lra].
    apply (side_convex_x B A C q2y q2x q1y q1x); try lra. }
  assert (Ex : (ex == q1x)%Q) by lra.
  assert (Ey : (ey == q1y)%Q) by lra.
  rewrite Ex, Ey. exact H1.
Qed.

Lemma cross_affine p1 p2 e :
  (cross p1 p2 e ==
   (y p2 - y p1) * x e + (- (x p2 - x p1)) * y e
   + (- (y p2 - y p1) * x p2 + (x p2 - x p1) * y p2))%Q.
Proof. unfold cross. ring. Qed.

(** A point of the line through [p1] and [p2] cannot lie on a segment
    whose ends are strictly on one side of that line. *)
Lemma separated_no_touch p1 p2 q1 q2 e :
  (cross p1 p2 e == 0)%Q ->
  orientation QOps p1 p2 q1 = orientation QOps p1 p2 q2 ->
  orientation QOps p1 p2 q1 <> 0 ->
  (orientation QOps q1 q2 e =? 0) && onSegment QOps q1 e q2 = false.
Proof.
  intros He Hsame Hne.
  destruct ((orientation QOps q1 q2 e =? 0) && onSegment QOps q1 e q2)
    eqn:E; [exfalso|reflexivity].
  apply andb_true_iff in E as [Ho Hs].
  apply Nat.eqb_eq, orientation_0 in Ho. unfold cross in Ho.
  apply onSegment_iff in Hs as [Hx Hy].
  rewrite cross_affine in He.
  destruct (orientation_cases p1 p2 q1) as [H0|[H1|H2]]; [contradiction| |].
  - pose proof H1 as H1'. rewrite Hsame in H1'.
    apply orientation_1 in H1, H1'. rewrite cross_affine in H1, H1'.
    pose proof (side_convex _ _ _ _ _ _ _ _ _ H1 H1' Ho Hx Hy). lra.
  - pose proof H2 as H2'. rewrite Hsame in H2'.
    apply orientation_2 in H2, H2'. rewrite cross_affine in H2, H2'.
    assert (N1 : (0 < (- (y p2 - y p1)) * x q1 + (x p2 - x p1) * y q1
                      + ((y p2 - y p1) * x p2 - (x p2 - x p1) * y p2))%Q)
      by lra.
    assert (N2 : (0 < (- (y p2 - y p1)) * x q2 + (x p2 - x p1) * y q2
                      + ((y p2 - y p1) * x p2 - (x p2 - x p1) * y p2))%Q)
      by lra.
    pose proof (side_convex _ _ _ _ _ _ _ _ _ N1 N2 Ho Hx Hy). lra.
Qed.

(** No intersection is reported when a segment lies strictly on one side of
    the line through the other. *)
Lemma separated_false p1 p2 q1 q2 :
  orientation QOps p1 p2 q1 = orientation QOps p1 p2 q2 ->
  orientation QOps p1 p2 q1 <> 0 ->
  doSegmentsIntersect QOps p1 p2 q1 q2 = false.
Proof.
  intros Hsame Hne. unfold doSegmentsIntersect.
  rewrite (separated_no_touch p1 p2 q1 q2 p1)
    by (auto; unfold cross; ring).
  rewrite (separated_no_touch p1 p2 q1 q2 p2)
    by (auto; unfold cross; ring).
  rewrite <- Hsame, Nat.eqb_refl.
  apply Nat.eqb_neq in Hne. rewrite Hne. reflexivity.
Qed.

Lemma cross_along a d t1 t2 u :
  (cross (along a d t1) (along a d t2) (along a d u) == 0)%Q.
Proof. unfold cross, along; simpl. ring. Qed.

Lemma onSegment_along a d t1 u t2 :
  between t1 u t2 ->
  onSegment QOps (along a d t1) (along a d u) (along a d t2) = true.
Proof.
  intros H. apply onSegment_iff. unfold along; simpl.
  split; apply between_scale; exact H.
Qed.

Lemma onSegment_along_inv a d t1 u t2 :
  ~ (x d == 0 /\ y d == 0)%Q ->
  onSegment QOps (along a d t1) (along a d u) (along a d t2) = true ->
  between t1 u t2.
Proof.
  intros Hd H. apply onSegment_iff in H as [Hx Hy].
  unfold along in Hx, Hy; simpl in Hx, Hy.
  destruct (Qeq_dec (x d) 0) as [Ex|Ex].
  - destruct (Qeq_dec (y d) 0) as [Ey|Ey]; [tauto|].
    eapply between_unscale; eauto.
  - eapply between_unscale; eauto.
Qed.

Lemma overlap_endpoint t1 t2 u1 u2 w :
  between t1 w t2 -> between u1 w u2 ->
  between t1 u1 t2 \/ between t1 u2 t2 \/
  between u1 t1 u2 \/ between u1 t2 u2.
Proof. unfold between. lra. Qed.

(** Two segments of one line that share a point are reported to
    intersect. *)
Lemma collinear_overlap_true a d t1 t2 u1 u2 w :
  between t1 w t2 -> between u1 w u2 ->
  doSegmentsIntersect QOps (along a d t1) (along a d t2)
                           (along a d u1) (along a d u2) = true.
Proof.
  intros Ht Hu. unfold doSegmentsIntersect.
  rewrite !(proj2 (orientation_0 _ _ _)) by apply cross_along.
  simpl.
  destruct (overlap_endpoint _ _ _ _ _ Ht Hu) as [H|[H|[H|H]]];
    rewrite (onSegment_along _ _ _ _ _ H);
    repeat match goal with
           | |- context [if ?b then true else _] => destruct b
           end; reflexivity.
Qed.

(** Two segments of one line that share no point are not. *)
Lemma collinear_disjoint_false a d t1 t2 u1 u2 :
  ~ (x d == 0 /\ y d == 0)%Q ->
  (forall w, between t1 w t2 -> between u1 w u2 -> False) ->
  doSegmentsIntersect QOps (along a d t1) (along a d t2)
                           (along a d u1) (along a d u2) = false.
Proof.
  intros Hd Hno. unfold doSegmentsIntersect.
  rewrite !(proj2 (orientation_0 _ _ _)) by apply cross_along.
  simpl.
  assert (B : forall v, between v v v) by (intros v; unfold between; lra).
  assert (L : forall a b, between a a b) by (intros; unfold between; lra).
  assert (R : forall a b, between a b b) by (intros; unfold between; lra).
  destruct (onSegment QOps (along a d t1) (along a d u1) (along a d t2))
    eqn:E1.
  { apply onSegment_along_inv in E1; [|exact Hd].
    exfalso. apply (Hno u1); auto. }
  destruct (onSegment QOps (along a d t1) (along a d u2) (along a d t2))
    eqn:E2.
  { apply onSegment_along_inv in E2; [|exact Hd].
    exfalso. apply (Hno u2); auto. }
  destruct (onSegment QOps (along a d u1) (along a d t1) (along a d u2))
    eqn:E3.
  { apply onSegment_along_inv in E3; [|exact Hd].
    exfalso. apply (Hno t1); auto. }
  destruct (onSegment QOps (along a d u1) (along a d t2) (along a d u2))
    eqn:E4.
  { apply onSegment_along_inv in E4; [|exact Hd].
    exfalso. apply (Hno t2); auto. }
  reflexivity.
Qed.

End SegmentIntersection.



(** ** The remap of seed coordinates *)
Section Remap.
Import Simulation.

Lemma signQ_zero q : (q == 0)%Q -> signQ q = Eq.
Proof. intros H. unfold signQ. apply Qeq_alt. exact H. Qed.

(** A coordinate that is missing, or that sits in an extent of width zero,
    remaps to [NaN]. *)
Lemma remapCoordinate_degenerate v lo hi c :
  (v = NaN \/ exists q, v = Fin q /\ (q == c)%Q) ->
  ((lo = NaN /\ hi = NaN) \/
   exists a b, lo = Fin a /\ hi = Fin b /\ (a == c)%Q /\ (b == c)%Q) ->
  remapCoordinate v lo hi = NaN.
Proof.
  unfold remapCoordinate.
  intros [->|(q & -> & Hq)] [[-> ->]|(a & b & -> & -> & Ha & Hb)];
    try reflexivity.
  simpl. rewrite (signQ_zero (b - a)) by lra.
  rewrite (signQ_zero (q - a)) by lra. reflexivity.
Qed.

Lemma extentFrom_degenerate c values : forall a b,
  (a == c)%Q -> (b == c)%Q ->
  Forall (fun v => v = NaN \/ exists q, v = Fin q /\ (q == c)%Q) values ->
  exists a' b', extentFrom (Fin a) (Fin b) values = (Fin a', Fin b') /\
                (a' == c)%Q /\ (b' == c)%Q.
Proof.
  induction values as [|v values IH]; intros a b Ha Hb Hall.
  - exists a, b. auto.
  - inversion Hall as [|? ? Hv Hrest]; subst.
    destruct Hv as [->|(q & -> & Hq)]; simpl.
    + apply IH; assumption.
    + destruct (negb (Qle_bool a q)); destruct (negb (Qle_bool q b));
        apply IH; assumption.
Qed.

Lemma extent_degenerate c values :
  Forall (fun v => v = NaN \/ exists q, v = Fin q /\ (q == c)%Q) values ->
  (extent values = (NaN, NaN)) \/
  exists a b, extent values = (Fin a, Fin b) /\ (a == c)%Q /\ (b == c)%Q.
Proof.
  induction values as [|v values IH]; intros Hall.
  - left. reflexivity.
  - inversion Hall as [|? ? Hv Hrest]; subst.
    destruct Hv as [->|(q & -> & Hq)]; simpl.
    + apply IH. exact Hrest.
    + right. apply extentFrom_degenerate; assumption.
Qed.

Lemma remapNode_fallback ex ey n :
  isNaN (remapCoordinate (x n) (fst ex) (snd ex))
  || isNaN (remapCoordinate (y n) (fst ey) (snd ey)) = true ->
  remapNode ex ey n =
  mkSimNode (id n) (Fin 500) (Fin 300) (Fin 0) (Fin 0) (Fin 500) (Fin 300).
Proof. intros H. unfold remapNode. rewrite H. reflexivity. Qed.

Lemma remapNodes_degenerate_x c nodes o :
  Forall (fun n => x n = NaN \/ exists q, x n = Fin q /\ (q == c)%Q) nodes ->
  In o (remapNodes nodes) -> x o = Fin 500 /\ y o = Fin 300.
Proof.
  intros Hall Ho. unfold remapNodes in Ho.
  apply in_map_iff in Ho as (n & <- & Hn).
  rewrite remapNode_fallback; [split; reflexivity|].
  apply orb_true_iff. left.
  rewrite remapCoordinate_degenerate with (c := c); [reflexivity| |].
  - rewrite Forall_forall in Hall. apply Hall. exact Hn.
  - assert (Hx : Forall (fun v => v = NaN \/
                                  exists q, v = Fin q /\ (q == c)%Q)
                        (map x nodes))
      by (apply Forall_map; exact Hall).
    destruct (extent_degenerate c _ Hx) as [->|(a & b & -> & Ha & Hb)].
    + left. split; reflexivity.
    + right. exists a, b. auto.
Qed.

Lemma remapNodes_degenerate_y c nodes o :
  Forall (fun n => y n = NaN \/ exists q, y n = Fin q /\ (q == c)%Q) nodes ->
  In o (remapNodes nodes) -> x o = Fin 500 /\ y o = Fin 300.
Proof.
  intros Hall Ho. unfold remapNodes in Ho.
  apply in_map_iff in Ho as (n & <- & Hn).
  rewrite remapNode_fallback; [split; reflexivity|].
  apply orb_true_iff. right.
  rewrite remapCoordinate_degenerate with (c := c); [reflexivity| |].
  - rewrite Forall_forall in Hall. apply Hall. exact Hn.
  - assert (Hy : Forall (fun v => v = NaN \/
                                  exists q, v = Fin q /\ (q == c)%Q)
                        (map y nodes))
      by (apply Forall_map; exact Hall).
    destruct (extent_degenerate c _ Hy) as [->|(a & b & -> & Ha & Hb)].
    + left. split; reflexivity.
    + right. exists a, b. auto.
Qed.

(** C7, as amended.  The remap is total and keeps the nodes in order.  A
    node one of whose remapped coordinates is not a number gets the fixed
    position [(500, 300)], both coordinates at once; any other node gets its
    remapped coordinates; so no coordinate of the result is [NaN].  In
    particular, when all the nodes that have an [x] have the same [x] (an
    extent of width zero), or all have the same [y], every node gets
    [(500, 300)]. *)
Theorem remap_fallback (nodes : list SimNode) :
  let extentx := extent (map x nodes) in
  let extenty := extent (map y nodes) in
  map id (remapNodes nodes) = map id nodes /\
  (forall i n,
     nth_error nodes i = Some n ->
     exists o,
       nth_error (remapNodes nodes) i = Some o /\
       let x1 := remapCoordinate (x n) (fst extentx) (snd extentx) in
       let y1 := remapCoordinate (y n) (fst extenty) (snd extenty) in
       (isNaN x1 || isNaN y1 = true -> x o = Fin 500 /\ y o = Fin 300) /\
       (isNaN x1 || isNaN y1 = false -> x o = x1 /\ y o = y1) /\
       isNaN (x o) = false /\ isNaN (y o) = false) /\
  (forall c o,
     Forall (fun n => x n = NaN \/ exists q, x n = Fin q /\ (q == c)%Q)
            nodes ->
     In o (remapNodes nodes) -> x o = Fin 500 /\ y o = Fin 300) /\
  (forall c o,
     Forall (fun n => y n = NaN \/ exists q, y n = Fin q /\ (q == c)%Q)
            nodes ->
     In o (remapNodes nodes) -> x o = Fin 500 /\ y o = Fin 300).
Proof.
  intros extentx extenty. repeat apply conj.
  - unfold remapNodes. rewrite map_map. apply map_ext.
    intros n. unfold remapNode.
    destruct (isNaN _ || isNaN _); reflexivity.
  - intros i n Hn. exists (remapNode extentx extenty n). split.
    + unfold remapNodes. fold extentx extenty.
      rewrite nth_error_map, Hn. reflexivity.
    + unfold remapNode. cbv zeta.
      destruct (isNaN (remapCoordinate (x n) (fst extentx) (snd extentx))
                || isNaN (remapCoordinate (y n) (fst extenty) (snd extenty)))
        eqn:E; simpl.
      * repeat split; discriminate.
      * apply orb_false_iff in E as [Ex Ey]. repeat split; auto; discriminate.
  - intros c o. apply remapNodes_degenerate_x.
  - intros c o. apply remapNodes_degenerate_y.
Qed.

End Remap.

(** Two nodes on one horizontal line: an extent of height zero. *)
Lemma remap_fallback_witness :
  Forall (fun o => Simulation.x o = Simulation.Fin 500 /\
                   Simulation.y o = Simulation.Fin 300)
    (Simulation.remapNodes
       [Simulation.mkSimNode 0 (Simulation.Fin 0) (Simulation.Fin 5)
          Simulation.NaN Simulation.NaN Simulation.NaN Simulation.NaN;
        Simulation.mkSimNode 1 (Simulation.Fin 10) (Simulation.Fin 5)
          Simulation.NaN Simulation.NaN Simulation.NaN Simulation.NaN]).
Proof.
  apply Forall_forall. intros o.
  apply (proj2 (proj2 (proj2 (remap_fallback _))) 5%Q o).
  apply Forall_cons; [right; exists 5%Q; split; reflexivity|].
  apply Forall_cons; [right; exists 5%Q; split; reflexivity|].
  apply Forall_nil.
Defined.

(** C7 as stated fails.  With the nodes [(0, 5)] and [(10, 5)] the remapped
    [y] is not a number while the remapped [x] of the first node is the
    number 0; the claim gives that node the position [(0, 500)], the code
    gives it [(500, 300)]: [y] is not the center of the domain, and [x] is
    overwritten although it was a number. *)
Lemma remap_counterexample :
  let nodes :=
    [Simulation.mkSimNode 0 (Simulation.Fin 0) (Simulation.Fin 5)
       Simulation.NaN Simulation.NaN Simulation.NaN Simulation.NaN;
     Simulation.mkSimNode 1 (Simulation.Fin 10) (Simulation.Fin 5)
       Simulation.NaN Simulation.NaN Simulation.NaN Simulation.NaN] in
  let extentx := Simulation.extent (map Simulation.x nodes) in
  let extenty := Simulation.extent (map Simulation.y nodes) in
  Simulation.isNaN
    (Simulation.remapCoordinate (Simulation.Fin 5)
       (fst extenty) (snd extenty)) = true /\
  (exists q, Simulation.remapCoordinate (Simulation.Fin 0)
               (fst extentx) (snd extentx) = Simulation.Fin q /\
             (q == 0)%Q) /\
  map (fun o => (Simulation.x o, Simulation.y o))
      (Simulation.remapNodes nodes) =
    [(Simulation.Fin 500, Simulation.Fin 300);
     (Simulation.Fin 500, Simulation.Fin 300)] /\
  Simulation.Fin 300 <> Simulation.domainCenter.
Proof.
  repeat apply conj.
  - reflexivity.
  - eexists. split; [reflexivity|reflexivity].
  - reflexivity.
  - discriminate.
Qed.

(** ** The scale-calibration search *)
Section ScaleSearch.
Import Simulation.
Variable sqrt : Q -> Q.
Variable edges : list SimEdge.

Local Abbreviation objective := (Simulation.objective sqrt edges).

Lemma costs_objective m :
  costs sqrt edges m = (objective m, objective (m + epsilon)%Q).
Proof.
  unfold costs, Simulation.objective.
  generalize 0%Q at 1 3. generalize 0%Q.
  induction edges as [|e es IH]; intros a b; simpl; [reflexivity|].
  apply IH.
Qed.

Lemma objective_acc (es : list SimEdge) s : forall c,
  (fold_left (fun c e => c + penalty e (edgeLength sqrt e * s)) es c ==
   c + fold_left (fun c e => c + penalty e (edgeLength sqrt e * s)) es 0)%Q.
Proof.
  induction es as [|e es IH]; intros c; simpl.
  - ring.
  - rewrite IH. rewrite (IH (0 + _)%Q). ring.
Qed.

(** The increase of one summand over a step [epsilon] grows with the
    scale. *)
Lemma penalty_slope_mono e s s' :
  (s <= s')%Q ->
  (penalty e (edgeLength sqrt e * (s + epsilon))
   - penalty e (edgeLength sqrt e * s)
   <= penalty e (edgeLength sqrt e * (s' + epsilon))
      - penalty e (edgeLength sqrt e * s'))%Q.
Proof.
  intros Hs. unfold penalty, Qdiv.
  set (d := edgeLength sqrt e). set (r := (/ (30 * weight e))%Q).
  set (t := (30 * weight e)%Q).
  assert (Hid : (((d * (s' + epsilon) - t) * r) ^ 2
                 - ((d * s' - t) * r) ^ 2
                 - (((d * (s + epsilon) - t) * r) ^ 2
                    - ((d * s - t) * r) ^ 2)
                 == 2 * epsilon * (s' - s) * ((d * r) * (d * r)))%Q)
    by ring.
  assert (Hsq : (0 <= (d * r) * (d * r))%Q) by nra.
  assert (He : (0 <= 2 * epsilon * (s' - s))%Q)
    by (unfold epsilon; lra).
  assert (Hp : (0 <= 2 * epsilon * (s' - s) * ((d * r) * (d * r)))%Q)
    by (apply Qmult_le_0_compat; assumption).
  lra.
Qed.

(** The objective is convex: its increase over a step [epsilon] grows with
    the scale. *)
Lemma objective_slope_mono s s' :
  (s <= s')%Q ->
  (objective (s + epsilon) - objective s
   <= objective (s' + epsilon) - objective s')%Q.
Proof.
  intros Hs. unfold Simulation.objective.
  induction edges as [|e es IH]; simpl.
  - lra.
  - rewrite (objective_acc es (s + epsilon)),
            (objective_acc es s),
            (objective_acc es (s' + epsilon)),
            (objective_acc es s').
    pose proof (penalty_slope_mono e s s' Hs). lra.
Qed.

Lemma Qltb_true a b : Qltb a b = true <-> (a < b)%Q.
Proof.
  unfold Qltb. rewrite negb_true_iff. split.
  - intros H. apply Qnot_le_lt. intros Hle.
    apply Qle_bool_iff in Hle. congruence.
  - intros H. destruct (Qle_bool b a) eqn:E; [|reflexivity].
    apply Qle_bool_iff in E. lra.
Qed.

Lemma Qltb_false a b : Qltb a b = false <-> (b <= a)%Q.
Proof.
  unfold Qltb. rewrite negb_false_iff. apply Qle_bool_iff.
Qed.

Lemma pow2_pos n : (1 <= inject_Z (2 ^ Z.of_nat n))%Q.
Proof.
  change 1%Q with (inject_Z 1). rewrite <- Zle_Qle.
  change 1%Z with (2 ^ 0)%Z. apply Z.pow_le_mono_r; lia.
Qed.

Lemma pow2_S n :
  (inject_Z (2 ^ Z.of_nat (S n)) == 2 * inject_Z (2 ^ Z.of_nat n))%Q.
Proof.
  rewrite Nat2Z.inj_succ, Z.pow_succ_r by lia.
  rewrite inject_Z_mult. reflexivity.
Qed.

(** The loop seen through an invariant [I]: with the interval [n] halvings
    away from the final width, [n] units of fuel are enough, the loop ends
    with the final width, and the invariant still holds. *)
Lemma searchLoop_invariant (I : Search -> Prop) :
  (forall st,
     I st -> (epsilon < ub st - lb st)%Q ->
     let m := ((ub st + lb st) / 2)%Q in
     ((objective m < objective (m + epsilon))%Q ->
      I (mkSearch m (lb st) (Some m) (Some (objective m)))) /\
     ((objective (m + epsilon) <= objective m)%Q ->
      I (mkSearch (ub st) m (Some m) (Some (objective m))))) ->
  forall n fuel st,
    n <= fuel ->
    (ub st - lb st == (5 # 65536) * inject_Z (2 ^ Z.of_nat n))%Q ->
    I st ->
    exists r, searchLoop sqrt fuel edges st = Some r /\
              (ub r - lb r == 5 # 65536)%Q /\ I r.
Proof.
  intros Hstep. induction n as [|n IH]; intros fuel st Hfuel Hw HI.
  - exists st. change (inject_Z (2 ^ Z.of_nat 0)) with 1%Q in Hw.
    assert (Hexit : Qltb epsilon (ub st - lb st) = false)
      by (apply Qltb_false; unfold epsilon; lra).
    assert (Hfin : (ub st - lb st == 5 # 65536)%Q) by lra.
    destruct fuel; simpl; rewrite Hexit; repeat split; auto.
  - destruct fuel as [|fuel]; [lia|].
    rewrite pow2_S in Hw. pose proof (pow2_pos n) as Hp.
    assert (Hhalf : ((ub st + lb st) / 2 - lb st ==
                     (5 # 65536) * inject_Z (2 ^ Z.of_nat n))%Q /\
                    (ub st - (ub st + lb st) / 2 ==
                     (5 # 65536) * inject_Z (2 ^ Z.of_nat n))%Q /\
                    (epsilon < ub st - lb st)%Q).
    { remember (inject_Z (2 ^ Z.of_nat n)) as P. clear HeqP.
      unfold epsilon, Qdiv. change (/ 2)%Q with (1 # 2)%Q.
      repeat split; lra. }
    destruct Hhalf as (Hleft & Hright & Hgo).
    simpl. rewrite (proj2 (Qltb_true _ _) Hgo).
    rewrite costs_objective.
    destruct (Hstep st HI Hgo) as [Hup Hlow].
    destruct (Qltb (objective ((ub st + lb st) / 2))
                   (objective ((ub st + lb st) / 2 + epsilon))) eqn:E.
    + apply Qltb_true in E. apply IH; [lia|exact Hleft|auto].
    + apply Qltb_false in E. apply IH; [lia|exact Hright|auto].
Qed.

(** With less fuel than halvings to do, the loop does not finish. *)
Lemma searchLoop_out_of_fuel : forall fuel n st,
  fuel < n ->
  (ub st - lb st == (5 # 65536) * inject_Z (2 ^ Z.of_nat n))%Q ->
  searchLoop sqrt fuel edges st = None.
Proof.
  induction fuel as [|fuel IH]; intros n st Hn Hw;
    (destruct n as [|n]; [lia|]);
    rewrite pow2_S in Hw; pose proof (pow2_pos n) as Hp;
    assert (Hhalf : ((ub st + lb st) / 2 - lb st ==
                     (5 # 65536) * inject_Z (2 ^ Z.of_nat n))%Q /\
                    (ub st - (ub st + lb st) / 2 ==
                     (5 # 65536) * inject_Z (2 ^ Z.of_nat n))%Q /\
                    (epsilon < ub st - lb st)%Q)
      by (remember (inject_Z (2 ^ Z.of_nat n)) as P; clear HeqP;
          unfold epsilon, Qdiv; change (/ 2)%Q with (1 # 2)%Q;
          repeat split; lra);
    destruct Hhalf as (Hleft & Hright & Hgo);
    simpl; rewrite (proj2 (Qltb_true _ _) Hgo).
  - reflexivity.
  - rewrite costs_objective.
    destruct (Qltb _ _); apply (IH n); try lia; assumption.
Qed.

Lemma penalty_proper e d d' :
  (d == d')%Q -> (penalty e d == penalty e d')%Q.
Proof. intros H. unfold penalty. rewrite H. reflexivity. Qed.

Lemma objective_proper s s' :
  (s == s')%Q -> (objective s == objective s')%Q.
Proof.
  intros H. unfold Simulation.objective. generalize 0%Q.
  induction edges as [|e es IH]; intros c; simpl.
  - reflexivity.
  - rewrite (objective_acc es s), (objective_acc es s').
    rewrite IH.
    rewrite (penalty_proper e (edgeLength sqrt e * s)
                              (edgeLength sqrt e * s'))
      by (rewrite H; reflexivity).
    reflexivity.
Qed.


End ScaleSearch.



(** ** Words of a text *)
Section Words.
Import Compiler Filter.

Lemma space_not_word c : Js.isSpace c = true -> Js.isWord c = false.
Proof.
  destruct c as [[] [] [] [] [] [] [] []]; try discriminate; reflexivity.
Qed.

Lemma letter_is_word l c :
  In l ["t"%char; "u"%char; "r"%char; "n"%char] ->
  isLetter l c = true -> Js.isWord c = true /\ Js.isSpace c = false.
Proof.
  intros Hl. simpl in Hl.
  destruct Hl as [<-|[<-|[<-|[<-|[]]]]];
    destruct c as [[] [] [] [] [] [] [] []]; try discriminate;
    split; reflexivity.
Qed.

Lemma splitWsFrom_cons b c s :
  Js.isSpace c = false ->
  Js.splitWsFrom b (String c s) =
  String c (hd EmptyString (Js.splitWs s)) :: tl (Js.splitWs s).
Proof.
  intros Hc. unfold Js.splitWs. simpl. rewrite Hc.
  destruct (Js.splitWsFrom false s); reflexivity.
Qed.

Lemma words_inSep s :
  filter (fun w => negb (Js.isEmpty w)) (Js.splitWsFrom true s) = words s.
Proof.
  unfold words, Js.splitWs. destruct s as [|c s]; [reflexivity|].
  simpl. destruct (Js.isSpace c); reflexivity.
Qed.

Lemma headWord_hd s : headWord s = hd EmptyString (Js.splitWs s).
Proof.
  induction s as [|c s IH]; [reflexivity|].
  destruct (Js.isSpace c) eqn:E.
  - unfold Js.splitWs. simpl. rewrite E. reflexivity.
  - unfold Js.splitWs. rewrite splitWsFrom_cons by exact E.
    simpl. rewrite E, IH. reflexivity.
Qed.

Lemma restWords_tl s :
  restWords s = filter (fun w => negb (Js.isEmpty w)) (tl (Js.splitWs s)).
Proof.
  induction s as [|c s IH]; [reflexivity|].
  destruct (Js.isSpace c) eqn:E.
  - unfold Js.splitWs. simpl. rewrite E. simpl. symmetry. apply words_inSep.
  - unfold Js.splitWs. rewrite splitWsFrom_cons by exact E.
    simpl. rewrite E. exact IH.
Qed.

Lemma words_nil : words EmptyString = [].
Proof. reflexivity. Qed.

Lemma words_space c s : Js.isSpace c = true -> words (String c s) = words s.
Proof.
  intros E. unfold words, Js.splitWs. simpl. rewrite E. simpl.
  apply words_inSep.
Qed.

Lemma words_char c s :
  Js.isSpace c = false ->
  words (String c s) = String c (headWord s) :: restWords s.
Proof.
  intros E. unfold words, Js.splitWs.
  rewrite splitWsFrom_cons by exact E. simpl.
  rewrite headWord_hd, restWords_tl. reflexivity.
Qed.

Lemma words_head_rest s :
  words s = (if Js.isEmpty (headWord s) then [] else [headWord s])
            ++ restWords s.
Proof.
  destruct s as [|c s]; [reflexivity|].
  destruct (Js.isSpace c) eqn:E.
  - rewrite words_space by exact E. simpl. rewrite E. reflexivity.
  - rewrite words_char by exact E. simpl. rewrite E. reflexivity.
Qed.

Lemma words_trimStart s : words (Js.trimStart s) = words s.
Proof.
  induction s as [|c s IH]; [reflexivity|].
  simpl. destruct (Js.isSpace c) eqn:E; [|reflexivity].
  rewrite IH. symmetry. now apply words_space.
Qed.

Lemma headWord_char c s :
  Js.isSpace c = false -> headWord (String c s) = String c (headWord s).
Proof. intros E. simpl. rewrite E. reflexivity. Qed.

Lemma headWord_space c s :
  Js.isSpace c = true -> headWord (String c s) = EmptyString.
Proof. intros E. simpl. rewrite E. reflexivity. Qed.

Lemma restWords_char c s :
  Js.isSpace c = false -> restWords (String c s) = restWords s.
Proof. intros E. simpl. rewrite E. reflexivity. Qed.

Lemma restWords_space c s :
  Js.isSpace c = true -> restWords (String c s) = words s.
Proof. intros E. simpl. rewrite E. reflexivity. Qed.

Lemma trimEnd_facts s :
  headWord (Js.trimEnd s) = headWord s /\
  restWords (Js.trimEnd s) = restWords s /\
  words (Js.trimEnd s) = words s.
Proof.
  induction s as [|c s (IHh & IHr & IHw)]; [repeat split; reflexivity|].
  cbn [Js.trimEnd]. destruct (Js.trimEnd s) as [|d r] eqn:Et.
  - destruct (Js.isSpace c) eqn:E.
    + rewrite (words_space c s E), (headWord_space c s E),
              (restWords_space c s E), <- IHw.
      repeat split; reflexivity.
    + rewrite !(words_char c _ E), !(headWord_char c _ E),
              !(restWords_char c _ E), <- IHh, <- IHr.
      repeat split; reflexivity.
  - destruct (Js.isSpace c) eqn:E.
    + rewrite !(words_space c _ E), !(headWord_space c _ E),
              !(restWords_space c _ E), IHw.
      repeat split; reflexivity.
    + rewrite !(words_char c _ E), !(headWord_char c _ E),
              !(restWords_char c _ E), IHh, IHr.
      repeat split; reflexivity.
Qed.

Lemma words_trim s : words (Js.trim s) = words s.
Proof.
  unfold Js.trim. rewrite (proj2 (proj2 (trimEnd_facts _))).
  apply words_trimStart.
Qed.

(** Every piece [split(/\s+/)] returns is empty or begins with a character
    that is not white space. *)
Lemma splitWsFrom_pieces s : forall b w,
  In w (Js.splitWsFrom b s) ->
  match w with
  | EmptyString => True
  | String c _ => Js.isSpace c = false
  end.
Proof.
  induction s as [|c s IH]; intros b w Hw.
  - simpl in Hw. destruct Hw as [<-|[]]. exact I.
  - destruct (Js.isSpace c) eqn:E.
    + simpl in Hw. rewrite E in Hw. destruct b.
      * eapply IH; eauto.
      * destruct Hw as [<-|Hw]; [exact I|]. eapply IH; eauto.
    + rewrite splitWsFrom_cons in Hw by exact E.
      destruct Hw as [<-|Hw]; [exact E|].
      apply (IH false). unfold Js.splitWs in Hw.
      destruct (Js.splitWsFrom false s); simpl in Hw; [contradiction|].
      right. exact Hw.
Qed.

Lemma trimStart_keeps c s :
  Js.isSpace c = false -> Js.trimStart (String c s) = String c s.
Proof. intros E. simpl. rewrite E. reflexivity. Qed.

Lemma trimEnd_keeps c s :
  Js.isSpace c = false -> Js.isEmpty (Js.trimEnd (String c s)) = false.
Proof.
  intros E. simpl. destruct (Js.trimEnd s); [rewrite E|]; reflexivity.
Qed.

Lemma lineTokens_words t : lineTokens t = words t.
Proof.
  unfold lineTokens, words. apply filter_ext_in. intros w Hw.
  apply (splitWsFrom_pieces t false) in Hw.
  destruct w as [|c w]; [reflexivity|].
  unfold Js.trim. rewrite trimStart_keeps by exact Hw.
  rewrite trimEnd_keeps by exact Hw. reflexivity.
Qed.

Lemma split_cons c s :
  Js.split newline (String c s) =
  if Ascii.eqb c newline then EmptyString :: Js.split newline s
  else String c (hd EmptyString (Js.split newline s))
       :: tl (Js.split newline s).
Proof.
  simpl. destruct (Ascii.eqb c newline); [reflexivity|].
  destruct (Js.split newline s); reflexivity.
Qed.

Lemma split_nonempty s : Js.split newline s <> [].
Proof.
  destruct s as [|c s]; [discriminate|]. rewrite split_cons.
  destruct (Ascii.eqb c newline); discriminate.
Qed.

(** Cutting a text into lines and the lines into words gives the words of
    the text. *)
Lemma split_words s :
  headWord (hd EmptyString (Js.split newline s)) = headWord s /\
  restWords (hd EmptyString (Js.split newline s))
  ++ List.concat (map words (tl (Js.split newline s))) = restWords s.
Proof.
  induction s as [|c s (IHh & IHr)]; [split; reflexivity|].
  assert (IHw : List.concat (map words (Js.split newline s)) = words s).
  { destruct (Js.split newline s) as [|h t] eqn:E;
      [exfalso; now apply (split_nonempty s)|].
    simpl in *. rewrite (words_head_rest h), (words_head_rest s).
    rewrite IHh, <- IHr, <- app_assoc. reflexivity. }
  rewrite split_cons. destruct (Ascii.eqb c newline) eqn:En.
  - apply Ascii.eqb_eq in En. subst c.
    change (Js.isSpace newline) with true. simpl hd. simpl tl.
    simpl. split; [reflexivity|exact IHw].
  - simpl hd. simpl tl. simpl headWord. simpl restWords.
    destruct (Js.isSpace c) eqn:E.
    + split; [reflexivity|].
      rewrite <- IHw.
      destruct (Js.split newline s) as [|h t]; reflexivity.
    + rewrite IHh. split; [reflexivity|exact IHr].
Qed.

Lemma concat_split_words s :
  List.concat (map words (Js.split newline s)) = words s.
Proof.
  destruct (split_words s) as [Hh Hr].
  destruct (Js.split newline s) as [|h t] eqn:E;
    [exfalso; now apply (split_nonempty s)|].
  simpl in *. rewrite (words_head_rest h), (words_head_rest s).
  rewrite Hh, <- Hr, <- app_assoc. reflexivity.
Qed.

Lemma blank_words line :
  Js.isEmpty (Js.trim line) = true -> words line = [].
Proof.
  intros H. rewrite <- words_trim.
  destruct (Js.trim line); [reflexivity|discriminate].
Qed.

Lemma trimStart_head s :
  match Js.trimStart s with
  | EmptyString => True
  | String c _ => Js.isSpace c = false
  end.
Proof.
  induction s as [|c s IH]; [exact I|].
  simpl. destruct (Js.isSpace c) eqn:E; [exact IH|exact E].
Qed.

Lemma nonblank_words line :
  Js.isEmpty (Js.trim line) = false -> words line <> [].
Proof.
  intros H. rewrite <- words_trimStart.
  pose proof (trimStart_head line) as Hc.
  unfold Js.trim in H.
  destruct (Js.trimStart line) as [|c s]; [discriminate|].
  rewrite words_char by exact Hc. discriminate.
Qed.

(** The tokens the compiler reads, row after row, are the words of the
    pattern, and no row is empty. *)
Lemma tokenRows_words pattern :
  List.concat (tokenRows pattern) = words pattern /\
  Forall (fun row => row <> []) (tokenRows pattern).
Proof.
  unfold tokenRows.
  rewrite <- (words_trim pattern), <- concat_split_words.
  generalize (Js.split newline (Js.trim pattern)) as lines.
  induction lines as [|line lines [IHc IHf]]; [split; [reflexivity|constructor]|].
  simpl. destruct (Js.isEmpty (Js.trim line)) eqn:E; simpl.
  - rewrite (blank_words line E). split; [exact IHc|exact IHf].
  - rewrite lineTokens_words, words_trim, IHc. split; [reflexivity|].
    constructor; [|exact IHf]. now apply nonblank_words.
Qed.

End Words.

(** ** The input filter *)
Section InputFilter.
Import Compiler Filter.

Lemma words_app_space a sp b :
  Js.isSpace sp = true ->
  headWord (a ++ String sp b) = headWord a /\
  restWords (a ++ String sp b) = restWords a ++ words b /\
  words (a ++ String sp b) = words a ++ words b.
Proof.
  intros Hsp.
  assert (H : headWord (a ++ String sp b) = headWord a /\
              restWords (a ++ String sp b) = restWords a ++ words b).
  { induction a as [|c a [IHh IHr]].
    - simpl. rewrite Hsp. split; reflexivity.
    - change ((String c a ++ String sp b)%string)
        with (String c (a ++ String sp b)).
      destruct (Js.isSpace c) eqn:E.
      + rewrite !(headWord_space c _ E), !(restWords_space c _ E).
        split; [reflexivity|].
        rewrite (words_head_rest (a ++ String sp b)), (words_head_rest a).
        rewrite IHh, IHr, app_assoc. reflexivity.
      + rewrite !(headWord_char c _ E), !(restWords_char c _ E).
        rewrite IHh, IHr. split; reflexivity. }
  destruct H as [Hh Hr]. repeat split; [exact Hh|exact Hr|].
  rewrite (words_head_rest (a ++ String sp b)), (words_head_rest a).
  rewrite Hh, Hr, app_assoc. reflexivity.
Qed.

Lemma headWord_empty s :
  headWord s = EmptyString ->
  match s with
  | EmptyString => True
  | String c _ => Js.isSpace c = true
  end.
Proof.
  destruct s as [|c s]; [trivial|].
  simpl. destruct (Js.isSpace c); [reflexivity|discriminate].
Qed.

(** A text whose first word is [turn] begins with the word [turn]. *)
Lemma headWord_turn s :
  Js.toLowerCase (headWord s) = "turn" -> turnWordAt s = true.
Proof.
  destruct s as [|c1 s]; [discriminate|]. simpl headWord.
  destruct (Js.isSpace c1); [discriminate|].
  destruct s as [|c2 s]; [discriminate|]. simpl headWord.
  destruct (Js.isSpace c2); [discriminate|].
  destruct s as [|c3 s]; [discriminate|]. simpl headWord.
  destruct (Js.isSpace c3); [discriminate|].
  destruct s as [|c4 s]; [discriminate|]. simpl headWord.
  destruct (Js.isSpace c4); [discriminate|].
  intros H. simpl in H. inversion H as [[H1 H2 H3 H4 H5]].
  unfold turnWordAt, isLetter. rewrite H1, H2, H3, H4. simpl.
  destruct s as [|c5 s]; [reflexivity|].
  simpl in H5. destruct (Js.isSpace c5); [reflexivity|discriminate].
Qed.

(** The checker [noTurnWord] is sound for the words of a text. *)
Lemma noTurnWord_words s :
  (noTurnWord true s = true ->
   forall w, In w (words s) -> Js.toLowerCase w <> "turn") /\
  (noTurnWord false s = true ->
   forall w, In w (restWords s) -> Js.toLowerCase w <> "turn").
Proof.
  induction s as [|c s [IHt IHf]]; [split; intros _ w []|].
  destruct (Js.isSpace c) eqn:E.
  - rewrite (words_space c s E), (restWords_space c s E).
    simpl. rewrite E. split; exact IHt.
  - rewrite (words_char c s E), (restWords_char c s E).
    cbn [noTurnWord]. rewrite E. split.
    + intros H. apply andb_true_iff in H as [Hno Hrest].
      intros w [<-|Hw]; [|now apply IHf].
      intros Hturn.
      rewrite <- (headWord_char c s E) in Hturn.
      apply headWord_turn in Hturn.
      rewrite Hturn in Hno. discriminate.
    + rewrite andb_false_l. exact IHf.
Qed.

Lemma removeTurnFrom_word c s :
  removeTurnFrom 0 true (String c s) =
  String c (removeTurnFrom 0 (Js.isWord c) s).
Proof. reflexivity. Qed.

(** If the text left after a word character begins with the word [turn],
    so did the text before the removal, and the pattern matches there. *)
Lemma turnWordAt_matches c x :
  turnWordAt (String c (removeTurnFrom 0 true x)) = true ->
  matchesTurn (String c x) = true /\ Js.isWord c = true.
Proof.
  intros H.
  destruct x as [|c2 x]; [simpl in H; discriminate|].
  rewrite removeTurnFrom_word in H.
  destruct x as [|c3 x];
    [destruct (Js.isWord c2); simpl in H; discriminate|].
  assert (L1 : isLetter "t" c = true /\ isLetter "u" c2 = true).
  { unfold turnWordAt in H.
    destruct (removeTurnFrom 0 (Js.isWord c2) (String c3 x))
      as [|? [|? ?]]; try discriminate.
    destruct (isLetter "t" c); [|discriminate].
    destruct (isLetter "u" c2); [|discriminate]. split; reflexivity. }
  destruct L1 as [L1 L2].
  destruct (letter_is_word "t" c ltac:(simpl; auto) L1) as [W1 _].
  destruct (letter_is_word "u" c2 ltac:(simpl; auto) L2) as [W2 _].
  rewrite W2, removeTurnFrom_word in H.
  destruct x as [|c4 x];
    [destruct (Js.isWord c3); simpl in H; discriminate|].
  assert (L3 : isLetter "r" c3 = true).
  { unfold turnWordAt in H. rewrite L1, L2 in H.
    destruct (removeTurnFrom 0 (Js.isWord c3) (String c4 x));
      try discriminate.
    destruct (isLetter "r" c3); [reflexivity|discriminate]. }
  destruct (letter_is_word "r" c3 ltac:(simpl; auto) L3) as [W3 _].
  rewrite W3, removeTurnFrom_word in H.
  unfold turnWordAt in H. rewrite L1, L2, L3 in H.
  destruct (isLetter "n" c4) eqn:L4; [|discriminate].
  destruct (letter_is_word "n" c4 ltac:(simpl; auto) L4) as [W4 _].
  rewrite W4 in H. split; [|exact W1].
  unfold matchesTurn. rewrite L1, L2, L3, L4.
  destruct x as [|c5 x]; [reflexivity|].
  rewrite removeTurnFrom_word in H. simpl in H.
  simpl. rewrite (space_not_word c5 H). reflexivity.
Qed.

Lemma matchesTurn_rest c x :
  matchesTurn (String c x) = true -> startsNonWord (Js.substring 3 x) = true.
Proof.
  destruct x as [|c2 [|c3 [|c4 x]]]; try discriminate.
  unfold matchesTurn. intros H. apply andb_true_iff in H as [_ H].
  simpl. destruct x; exact H.
Qed.

(** After the removal no word of the text is [turn]. *)
Lemma removeTurnFrom_noTurnWord x : forall skip prevWord atStart,
  (skip = 0 -> atStart = true -> prevWord = true ->
   startsNonWord x = true) ->
  (0 < skip -> startsNonWord (Js.substring skip x) = true) ->
  noTurnWord atStart (removeTurnFrom skip prevWord x) = true.
Proof.
  induction x as [|c x IH]; intros skip prevWord atStart H0 Hskip;
    [destruct skip; reflexivity|].
  destruct skip as [|skip].
  - cbn [removeTurnFrom].
    destruct (negb prevWord && matchesTurn (String c x)) eqn:T.
    + apply andb_true_iff in T as [_ Hm].
      apply IH; [discriminate|]. intros _. now apply (matchesTurn_rest c).
    + cbn [noTurnWord]. destruct (Js.isSpace c) eqn:E.
      * apply IH; [|intros Hlt; inversion Hlt].
        intros _ _ Hw. rewrite (space_not_word c E) in Hw. discriminate.
      * apply andb_true_iff. split.
        -- apply negb_true_iff.
           destruct atStart; [|reflexivity]. rewrite andb_true_l.
           destruct (turnWordAt
                       (String c (removeTurnFrom 0 (Js.isWord c) x))) eqn:Tw;
             [|reflexivity].
           exfalso.
           assert (Wc : Js.isWord c = true).
           { unfold turnWordAt in Tw.
             destruct (removeTurnFrom 0 (Js.isWord c) x)
               as [|? [|? [|? ?]]]; try discriminate.
             destruct (isLetter "t" c) eqn:L; [|discriminate].
             apply (letter_is_word "t" c); simpl; auto. }
           rewrite Wc in Tw.
           destruct (turnWordAt_matches c x Tw) as [Hm _].
           rewrite Hm, andb_true_r in T. apply negb_false_iff in T.
           specialize (H0 eq_refl eq_refl T). simpl in H0.
           rewrite Wc in H0. discriminate.
        -- apply IH; [discriminate|intros Hlt; inversion Hlt].
  - cbn [removeTurnFrom]. apply IH.
    + intros -> _ _. apply (Hskip (Nat.lt_0_succ 0)).
    + intros _. exact (Hskip (Nat.lt_0_succ skip)).
Qed.

Lemma removeTurn_words pattern w :
  In w (words (removeTurn pattern)) -> Js.toLowerCase w <> "turn".
Proof.
  apply (proj1 (noTurnWord_words _)).
  apply removeTurnFrom_noTurnWord; [discriminate|intros H; inversion H].
Qed.

Lemma turnWordAt_other c s : isLetter "t" c = false ->
  turnWordAt (String c s) = false.
Proof.
  intros H. unfold turnWordAt. rewrite H.
  destruct s as [|? [|? [|? ?]]]; reflexivity.
Qed.

(** Decimal numerals contain no word [turn]. *)
Lemma decimal_noTurnWord d : forall b,
  noTurnWord b (NilEmpty.string_of_uint d) = true.
Proof.
  induction d as [|d IH|d IH|d IH|d IH|d IH|d IH|d IH|d IH|d IH|d IH];
    intros b; [reflexivity|..];
    cbn [NilEmpty.string_of_uint noTurnWord];
    (match goal with
     | |- context [Js.isSpace ?c] =>
         change (Js.isSpace c) with false; cbv iota;
         rewrite (turnWordAt_other c) by reflexivity
     end);
    rewrite andb_false_r; simpl; apply IH.
Qed.

Lemma concat_first {A : Type} (rows : list (list A)) x xs :
  List.concat rows = x :: xs ->
  Forall (fun row => row <> []) rows ->
  exists rest rows', rows = (x :: rest) :: rows'.
Proof.
  intros Hc Hf. destruct rows as [|row rows]; [discriminate|].
  inversion Hf as [|? ? Hrow _]; subst.
  destruct row as [|y rest]; [congruence|].
  simpl in Hc. inversion Hc; subst. now exists rest, rows.
Qed.

End InputFilter.

Section FilterTheorem.
Import Compiler Filter.

(** The words of what [filterPattern] returns: the words left by the
    removal, after [co] and a numeral when a cast-on is added. *)
Lemma filterPattern_words pattern :
  let filtered := Js.trim (removeTurn pattern) in
  let firstToken := hd EmptyString (Js.splitWs filtered) in
  (Js.isEmpty firstToken
   || negb (Js.startsWith (Js.toLowerCase firstToken) "co") = true ->
   filterPattern pattern =
     ("co " ++ castOnNumeral filtered ++ newlineString ++ filtered)%string /\
   words (filterPattern pattern) =
     "co" :: words (castOnNumeral filtered) ++ words (removeTurn pattern)) /\
  (Js.isEmpty firstToken
   || negb (Js.startsWith (Js.toLowerCase firstToken) "co") = false ->
   filterPattern pattern = filtered /\
   words (filterPattern pattern) =
     firstToken :: restWords filtered /\
   words (filterPattern pattern) = words (removeTurn pattern)).
Proof.
  intros filtered firstToken. split; intros Htest.
  - assert (Heq : filterPattern pattern =
                  ("co " ++ castOnNumeral filtered ++ newlineString
                   ++ filtered)%string).
    { unfold filterPattern, castOnNumeral. fold filtered. fold firstToken.
      rewrite Htest. destruct (countColumns filtered) as [n|];
        [destruct (0 <? n)%Z|]; reflexivity. }
    split; [exact Heq|]. rewrite Heq.
    change ("co " ++ castOnNumeral filtered ++ newlineString ++ filtered)%string
      with (String "c" (String "o" (String " "
              (castOnNumeral filtered ++ String newline filtered)))).
    rewrite words_char by reflexivity.
    rewrite headWord_char by reflexivity.
    rewrite headWord_space by reflexivity.
    rewrite restWords_char by reflexivity.
    rewrite restWords_space by reflexivity.
    rewrite (proj2 (proj2 (words_app_space _ newline _ eq_refl))).
    unfold filtered. rewrite words_trim. reflexivity.
  - assert (Heq : filterPattern pattern = filtered).
    { unfold filterPattern. fold filtered. fold firstToken.
      rewrite Htest. reflexivity. }
    rewrite Heq. repeat split.
    + apply orb_false_iff in Htest as [Hne _].
      rewrite words_head_rest. unfold firstToken in *.
      rewrite <- headWord_hd in *. rewrite Hne. reflexivity.
    + unfold filtered. apply words_trim.
Qed.

Lemma castOnNumeral_words filtered w :
  In w (words (castOnNumeral filtered)) -> Js.toLowerCase w <> "turn".
Proof.
  apply (proj1 (noTurnWord_words _)). unfold castOnNumeral.
  destruct (countColumns filtered) as [n|]; [|reflexivity].
  destruct (0 <? n)%Z; [|reflexivity].
  apply decimal_noTurnWord.
Qed.


End FilterTheorem.

Example filterPattern_plain :
  Filter.filterPattern "k k k turn k k k" =
  ("co 6" ++ Filter.newlineString ++ "k k k  k k k")%string.
Proof. reflexivity. Qed.

Example filterPattern_keeps_cast_on :
  Filter.filterPattern "CO 5 Turn k k" = "CO 5  k k".
Proof. reflexivity. Qed.

Example filterPattern_boundaries :
  Filter.filterPattern "turnturn x-turn k" =
  ("co 1" ++ Filter.newlineString ++ "turnturn x- k")%string.
Proof. reflexivity. Qed.

Example filterPattern_only_turn :
  Filter.filterPattern "turn" = ("co 10" ++ Filter.newlineString)%string.
Proof. reflexivity. Qed.

Example filterPattern_inherited_name :
  Filter.filterPattern "k __proto__" =
  ("co 10" ++ Filter.newlineString ++ "k __proto__")%string.
Proof. reflexivity. Qed.

(** ** Invariants carried through every run *)
Section RunInvariant.
Import Compiler Exec Shape.

Variable P : State -> Prop.
Hypothesis P_grow : forall ty ch tech n st, P st -> P (grow ty ch tech n st).
Hypothesis P_end : forall st, P st -> P (endOfLine st).
Hypothesis P_exec : forall stitch tech st st',
  P st -> execTechnique stitch tech st = Ok st' -> P st'.

Lemma processToken_keeps st s next st' skip :
  P st -> processToken st s next = Ok (st', skip) -> P st'.
Proof.
  intros HP. unfold processToken.
  destruct (String.eqb (Js.toLowerCase s) "co"
            || Js.startsWith (Js.toLowerCase s) "co").
  - destruct (castOnCount _ _) as [n sk]. intros H; inversion H; subst.
    rewrite castOnLoop_grow. now apply P_grow.
  - destruct (lookupTechnique (Js.toLowerCase s)) as [tech| |].
    + destruct (execTechnique _ tech st) as [st2|] eqn:E; simpl;
        [|discriminate].
      intros H; inversion H; subst. eapply P_exec; eauto.
    + intros H; inversion H; subst. exact HP.
    + destruct (_ && _); [|discriminate].
      intros H; inversion H; subst. exact HP.
Qed.

Lemma Reach_keeps rows0 st tokens rows :
  P initialState -> Reach rows0 st tokens rows -> P st.
Proof.
  intros H0. induction 1 as [| st s rest rows st' skip _ IH Hstep
                             | st tokens rows _ IH].
  - exact H0.
  - eapply processToken_keeps; eauto.
  - now apply P_end.
Qed.

Lemma runTokens_keeps tokens : forall st st',
  P st -> runTokens st tokens = Ok st' -> P st'.
Proof.
  remember (List.length tokens) as n eqn:Hn.
  assert (Hle : List.length tokens <= n) by lia. clear Hn.
  revert tokens Hle. induction n as [|n IH]; intros tokens Hle st st' HP.
  - destruct tokens; [|simpl in Hle; lia]. simpl.
    intros H; inversion H; subst. exact HP.
  - destruct tokens as [|s rest].
    + simpl. intros H; inversion H; subst. exact HP.
    + rewrite runTokens_cons.
      destruct (processToken st s (hd_error rest)) as [[st1 skip]|] eqn:E;
        simpl; [|discriminate].
      apply IH.
      * pose proof (advance_length skip rest). simpl in Hle. lia.
      * eapply processToken_keeps; eauto.
Qed.

Lemma runRows_keeps rows : forall st st',
  P st -> runRows st rows = Ok st' -> P st'.
Proof.
  induction rows as [|tokens rows IH]; intros st st' HP; simpl.
  - intros H; inversion H; subst. exact HP.
  - destruct (runTokens st tokens) as [st1|] eqn:E; simpl; [|discriminate].
    apply IH. apply P_end. eapply runTokens_keeps; eauto.
Qed.

End RunInvariant.

Section NeedleInvariant.
Import Compiler Exec Shape Invariant WellFormed.

Lemma Needles_initial : Needles initialState.
Proof.
  unfold Needles; simpl. repeat apply conj; try constructor.
  intros e [].
Qed.

Lemma NoDup_app_seq (l : list nat) c n :
  Forall (fun s => s < c) l -> NoDup l -> NoDup (l ++ seq c n).
Proof.
  intros Hb Hl. induction l as [|a l IH]; simpl.
  - apply seq_NoDup.
  - inversion Hb; subst. inversion Hl; subst. constructor; auto.
    rewrite in_app_iff, in_seq. intros [H|H]; [contradiction|lia].
Qed.

Lemma NoDup_app_inv (l1 l2 : list nat) :
  NoDup (l1 ++ l2) ->
  NoDup l1 /\ NoDup l2 /\ (forall a, In a l1 -> ~ In a l2).
Proof.
  induction l1 as [|a l1 IH]; simpl; intros H.
  - repeat apply conj; [constructor|exact H|tauto].
  - inversion H as [|? ? Hn Hd]; subst. destruct (IH Hd) as (H1 & H2 & H3).
    rewrite in_app_iff in Hn. repeat apply conj.
    + constructor; tauto.
    + exact H2.
    + intros b [<-|Hb]; [tauto|now apply H3].
Qed.

Lemma Needles_grow ty ch tech n st : Needles st -> Needles (grow ty ch tech n st).
Proof.
  intros (Hb & Hd & He & Hv).
  unfold Needles, grow; cbn [allEdges rightNeedle leftNeedle count].
  rewrite app_assoc. repeat apply conj.
  - apply Forall_app. split.
    + eapply Forall_impl; [|exact Hb]. simpl. intros; lia.
    + apply Forall_forall. intros a Ha. apply in_seq in Ha. lia.
  - now apply NoDup_app_seq.
  - apply Forall_app. split.
    + eapply Forall_impl; [|exact He]. simpl. intros e [? ?]. split; lia.
    + apply Forall_forall. intros e Hin.
      apply hLinks_In in Hin as (_ & Hs & Hr & _). split; lia.
  - intros e Hin Hty Hs. apply in_app_iff in Hin as [Hin|Hin].
    + apply in_app_iff in Hs as [Hs|Hs]; [now apply (Hv e)|].
      apply in_seq in Hs. rewrite Forall_forall in He.
      destruct (He e Hin). lia.
    + apply hLinks_In in Hin as (Heq & _). rewrite Heq in Hty.
      discriminate.
Qed.

Lemma Needles_swap st : Needles st -> Needles (swapNeedles st).
Proof.
  intros (Hb & Hd & He & Hv).
  unfold Needles, swapNeedles; cbn [allEdges rightNeedle leftNeedle count].
  assert (Hperm : forall a, In a (rightNeedle st ++ leftNeedle st) <->
                            In a (leftNeedle st ++ rightNeedle st))
    by (intros a; rewrite !in_app_iff; tauto).
  repeat apply conj; auto.
  - apply Forall_forall. intros a Ha. rewrite Forall_forall in Hb.
    apply Hb, Hperm, Ha.
  - apply NoDup_app_inv in Hd as (H1 & H2 & H3).
    apply NoDup_app; auto. intros a Ha Hb'. exact (H3 a Hb' Ha).
  - intros e Hin Hty Hs. apply (Hv e Hin Hty), Hperm, Hs.
Qed.

Lemma Needles_endOfLine st : Needles st -> Needles (endOfLine st).
Proof.
  intros H. unfold endOfLine. destruct (rightNeedle st) as [|r rs] eqn:E;
    [exact H|].
  destruct H as (Hb & Hd & He & Hv). rewrite E in *.
  unfold Needles; cbn [allEdges rightNeedle leftNeedle count].
  rewrite app_nil_r. repeat apply conj; auto.
  - apply Forall_app in Hb. tauto.
  - apply NoDup_app_remove_l in Hd. exact Hd.
  - intros e Hin Hty Hs. apply (Hv e Hin Hty).
    apply in_app_iff. now right.
Qed.

Lemma firstn_rev_split (l : list nat) k :
  k <= List.length l ->
  l = firstn (List.length l - k) l ++ rev (firstn k (rev l)).
Proof.
  intros Hk. rewrite <- (firstn_skipn (List.length l - k) l) at 1.
  f_equal. rewrite firstn_rev, rev_involutive. reflexivity.
Qed.

Lemma Needles_exec stitch tech st st' :
  Needles st -> execTechnique stitch tech st = Ok st' -> Needles st'.
Proof.
  intros HN H. apply execTechnique_Ok in H as [Hk ->].
  set (st1 := if cursor_dir tech then swapNeedles st else st) in *.
  assert (HN1 : Needles st1)
    by (unfold st1; destruct (cursor_dir tech);
        [apply Needles_swap|]; exact HN).
  assert (Hc : count st1 = count st) by apply count_swap_or_not.
  pose proof (Needles_grow stitch (character tech) tech (add tech) st1 HN1)
    as (Hb & Hd & He & Hv).
  destruct HN1 as (Hb1 & _ & _ & _).
  unfold grow in Hb, Hd, He, Hv;
    cbn [allEdges rightNeedle leftNeedle count] in Hb, Hd, He, Hv.
  unfold Needles, consume, grow;
    cbn [allEdges rightNeedle leftNeedle count].
  set (L := leftNeedle st1) in *.
  set (R := rightNeedle st1 ++ seq (count st1) (add tech)) in *.
  set (keep := firstn (List.length L - kill tech) L).
  set (used := firstn (kill tech) (rev L)).
  assert (HL : L = keep ++ rev used) by now apply firstn_rev_split.
  assert (Hsub : forall a, In a (keep ++ R) -> In a (L ++ R)).
  { intros a Ha. rewrite HL. rewrite !in_app_iff in *. tauto. }
  repeat apply conj.
  - apply Forall_forall. intros a Ha. rewrite Forall_forall in Hb.
    apply Hb, Hsub, Ha.
  - rewrite HL, <- app_assoc in Hd.
    apply NoDup_app_inv in Hd as (H1 & H2 & H3).
    apply NoDup_app_inv in H2 as (_ & H2 & _).
    apply NoDup_app; auto. intros a Ha Hr. apply (H3 a Ha).
    apply in_app_iff. now right.
  - apply Forall_app. split; [exact He|].
    apply Forall_forall. intros e Hin.
    apply fan_In in Hin as (u & a & Hu & Ha & ->). simpl.
    apply in_seq in Ha. split; [|lia].
    assert (HuL : In u L).
    { rewrite HL. apply in_app_iff. right. now apply in_rev in Hu. }
    rewrite Forall_forall in Hb1.
    assert (u < count st1) by (apply Hb1, in_app_iff; now left). lia.
  - intros e Hin Hty Hs. apply in_app_iff in Hin as [Hin|Hin].
    + apply (Hv e Hin Hty), Hsub, Hs.
    + apply fan_In in Hin as (u & a & Hu & Ha & ->). simpl in Hs.
      rewrite HL, <- app_assoc in Hd.
      apply in_rev in Hu.
      apply NoDup_app_inv in Hd as (H1 & H2 & H3).
      apply NoDup_app_inv in H2 as (_ & _ & H4).
      apply in_app_iff in Hs as [Hs|Hs].
      * apply (H3 u Hs). apply in_app_iff. now left.
      * exact (H4 u Hu Hs).
Qed.

End NeedleInvariant.

Section SimpleGraph.
Import Compiler Exec Shape Invariant WellFormed.

Lemma NoDup_app_gen {A : Type} (l1 l2 : list A) :
  NoDup l1 -> NoDup l2 -> (forall a, In a l1 -> In a l2 -> False) ->
  NoDup (l1 ++ l2).
Proof.
  intros H1 H2 H. apply NoDup_app; auto.
Qed.

Lemma hLinks_NoDup flag c n : NoDup (hLinks flag c n).
Proof.
  revert flag c; induction n as [|n IH]; intros flag c; simpl.
  - constructor.
  - apply NoDup_app_gen; [| apply IH |].
    + destruct (negb flag && (0 <? c)); repeat constructor; simpl; tauto.
    + intros e He Hin. apply hLinks_In in Hin as (_ & _ & Hr & _).
      destruct (negb flag && (0 <? c)); [|contradiction].
      destruct He as [<-|[]]. simpl in Hr. lia.
Qed.

Lemma fan_NoDup used added :
  NoDup used -> NoDup added -> NoDup (fan used added).
Proof.
  intros Hu Ha. induction Hu as [|u used Hn Hu IH]; simpl.
  - constructor.
  - change (NoDup (map (fun a => vEdge u a) added ++ fan used added)).
    apply NoDup_app_gen; [| exact IH |].
    + clear -Ha. induction Ha as [|a added Hn Ha IH]; simpl; constructor; auto.
      intros Hin. apply in_map_iff in Hin as (b & Hb & Hin).
      inversion Hb; subst. contradiction.
    + intros e He Hin. apply in_map_iff in He as (a & <- & _).
      apply fan_In in Hin as (u' & a' & Hu' & _ & Heq).
      inversion Heq; subst. contradiction.
Qed.

Lemma Simple_initial : Simple initialState.
Proof. split; [apply Needles_initial|constructor]. Qed.

Lemma grow_edges_NoDup ty ch tech n st :
  Simple st -> NoDup (allEdges (grow ty ch tech n st)).
Proof.
  intros [(_ & _ & He & _) Hd]. unfold grow; cbn [allEdges].
  apply NoDup_app_gen; [exact Hd|apply hLinks_NoDup|].
  intros e Hin Hnew. rewrite Forall_forall in He.
  destruct (He e Hin) as [_ Ht].
  apply hLinks_In in Hnew as (_ & _ & Hr & _). lia.
Qed.

Lemma Simple_grow ty ch tech n st : Simple st -> Simple (grow ty ch tech n st).
Proof.
  intros H. split; [apply Needles_grow, H|now apply grow_edges_NoDup].
Qed.

Lemma Simple_swap st : Simple st -> Simple (swapNeedles st).
Proof. intros [H Hd]. split; [now apply Needles_swap|exact Hd]. Qed.

Lemma Simple_endOfLine st : Simple st -> Simple (endOfLine st).
Proof.
  intros [H Hd]. split; [now apply Needles_endOfLine|].
  unfold endOfLine. destruct (rightNeedle st); exact Hd.
Qed.

Lemma Simple_exec stitch tech st st' :
  Simple st -> execTechnique stitch tech st = Ok st' -> Simple st'.
Proof.
  intros HS H. split; [eapply Needles_exec; [apply HS|exact H]|].
  apply execTechnique_Ok in H as [Hk ->].
  set (st1 := if cursor_dir tech then swapNeedles st else st) in *.
  assert (HS1 : Simple st1)
    by (unfold st1; destruct (cursor_dir tech);
        [apply Simple_swap|]; exact HS).
  assert (Hc : count st1 = count st) by apply count_swap_or_not.
  pose proof (grow_edges_NoDup stitch (character tech) tech (add tech) st1 HS1)
    as Hd.
  destruct HS1 as [(_ & Hnd & He & _) _].
  unfold consume, grow in *; cbn [allEdges rightNeedle leftNeedle count] in *.
  apply NoDup_app_gen; [exact Hd| |].
  - apply fan_NoDup; [|apply seq_NoDup].
    apply NoDup_app_inv in Hnd as (Hl & _ & _).
    apply NoDup_rev in Hl.
    rewrite <- (firstn_skipn (kill tech) (rev (leftNeedle st1))) in Hl.
    apply NoDup_app_remove_r in Hl. exact Hl.
  - intros e Hin Hf. apply fan_In in Hf as (u & a & _ & Ha & ->).
    apply in_seq in Ha. apply in_app_iff in Hin as [Hin|Hin].
    + rewrite Forall_forall in He. destruct (He _ Hin) as [_ Ht].
      simpl in Ht. lia.
    + apply hLinks_In in Hin as (Heq & _). discriminate Heq.
Qed.

Lemma Reach_Simple rows0 st tokens rows :
  Reach rows0 st tokens rows -> Simple st.
Proof.
  apply (Reach_keeps Simple Simple_grow Simple_endOfLine Simple_exec).
  apply Simple_initial.
Qed.

Lemma runRows_Simple rows st st' :
  Simple st -> runRows st rows = Ok st' -> Simple st'.
Proof.
  apply (runRows_keeps Simple Simple_grow Simple_endOfLine Simple_exec).
Qed.

End SimpleGraph.

(** ** Further properties of the compiler *)
Section CompilerOutcome.
Import Compiler Exec Shape Invariant WellFormed.

(** The two ways one iteration of the token loop throws. *)
Lemma processToken_Throw st s next message :
  processToken st s next = Throw message ->
  (message = unknownStitchMessage (Js.toLowerCase s) /\
   lookupTechnique (Js.toLowerCase s) = Absent /\
   Js.startsWith (Js.toLowerCase s) "co" = false /\
   Js.startsWith (Js.toLowerCase s) "c"
     && Js.endsWithChar (Js.toLowerCase s) "c"%char = false) \/
  (message = emptyNeedleMessage (Js.toLowerCase s) /\
   exists tech, lookupTechnique (Js.toLowerCase s) = Own tech /\
                List.length (leftNeedle st) < kill tech).
Proof.
  unfold processToken.
  destruct (String.eqb _ "co" || Js.startsWith _ "co") eqn:Hco.
  - destruct (castOnCount _ _); discriminate.
  - apply orb_false_iff in Hco as [_ Hco].
    destruct (lookupTechnique _) as [tech| |] eqn:Hl.
    + rewrite execTechnique_eq.
      set (st1 := if cursor_dir tech then swapNeedles st else st).
      destruct (le_lt_dec (kill tech) (List.length (leftNeedle st1)))
        as [Hle|Hlt].
      * rewrite killLoop_consume by exact Hle. discriminate.
      * rewrite killLoop_underflow; [|exact Hlt|lia]. simpl.
        intros H; inversion H. right. split; [reflexivity|].
        exists tech. split; [reflexivity|].
        assert (Hk : 0 < kill tech) by lia.
        destruct (killing_technique _ _ Hl Hk) as [_ Hcur].
        unfold st1 in Hlt. rewrite Hcur in Hlt. exact Hlt.
    + discriminate.
    + destruct (_ && _) eqn:Hc; [discriminate|].
      intros H; inversion H. left. auto.
Qed.

(** A throw of a row comes from a token the loop arrived at. *)
Lemma runTokens_raise rows0 rows message tokens : forall st,
  Reach rows0 st tokens rows ->
  runTokens st tokens = Throw message ->
  exists st1 s rest,
    Reach rows0 st1 (s :: rest) rows /\
    processToken st1 s (hd_error rest) = Throw message.
Proof.
  remember (List.length tokens) as n eqn:Hn.
  assert (Hle : List.length tokens <= n) by lia. clear Hn.
  revert tokens Hle. induction n as [|n IH]; intros tokens Hle st HR.
  - destruct tokens; [|simpl in Hle; lia]. discriminate.
  - destruct tokens as [|s rest]; [discriminate|].
    rewrite runTokens_cons.
    destruct (processToken st s (hd_error rest)) as [[st1 skip]|m] eqn:E;
      simpl.
    + apply IH.
      * pose proof (advance_length skip rest). simpl in Hle. lia.
      * eapply Reach_token; eauto.
    + intros H; inversion H; subst. now exists st, s, rest.
Qed.

Lemma Reach_raise rows0 message rows : forall st tokens,
  Reach rows0 st tokens rows ->
  bind (runTokens st tokens) (fun st' => runRows (endOfLine st') rows)
    = Throw message ->
  exists st1 s rest rows1,
    Reach rows0 st1 (s :: rest) rows1 /\
    processToken st1 s (hd_error rest) = Throw message.
Proof.
  induction rows as [|tokens' rows IH]; intros st tokens HR.
  - destruct (runTokens st tokens) as [st'|m] eqn:E; simpl; [discriminate|].
    intros H; inversion H; subst.
    destruct (runTokens_raise _ _ _ _ _ HR E) as (st1 & s & rest & H1 & H2).
    now exists st1, s, rest, [].
  - destruct (runTokens st tokens) as [st'|m] eqn:E; simpl.
    + apply IH. apply Reach_line. eapply Reach_row_end; eauto.
    + intros H; inversion H; subst.
      destruct (runTokens_raise _ _ _ _ _ HR E) as (st1 & s & rest & H1 & H2).
      now exists st1, s, rest, (tokens' :: rows).
Qed.

Lemma compile_raise pattern message :
  runRows initialState (tokenRows pattern) = Throw message ->
  exists st s rest rows,
    Reach (tokenRows pattern) st (s :: rest) rows /\
    processToken st s (hd_error rest) = Throw message.
Proof.
  destruct (tokenRows pattern) as [|tokens rows] eqn:E; [discriminate|].
  intros H. apply (Reach_raise _ _ rows initialState tokens).
  - now apply Reach_start.
  - exact H.
Qed.

Lemma runRows_app rows1 rows2 : forall st,
  runRows st (rows1 ++ rows2) =
  bind (runRows st rows1) (fun st' => runRows st' rows2).
Proof.
  induction rows1 as [|tokens rows1 IH]; intros st; simpl; [reflexivity|].
  destruct (runTokens st tokens) as [st'|m]; simpl; [apply IH|reflexivity].
Qed.

Lemma endOfLine_RowStart st : Inv st -> RowStart (endOfLine st).
Proof.
  intros HI. split; [|now apply endOfLine_rearms].
  unfold endOfLine. destruct (rightNeedle st) eqn:E; [exact E|reflexivity].
Qed.

Lemma runRows_RowStart rows : forall st st',
  Inv st -> RowStart st -> runRows st rows = Ok st' ->
  Inv st' /\ RowStart st'.
Proof.
  induction rows as [|tokens rows IH]; intros st st' HI HS; simpl.
  - intros H; inversion H; subst. now split.
  - destruct (runTokens st tokens) as [st1|] eqn:E; simpl; [|discriminate].
    apply runTokens_Inv_Later in E as [HI1 _]; [|exact HI].
    apply IH; [now apply Inv_endOfLine|now apply endOfLine_RowStart].
Qed.

(** A line made of [turn] alone, started with an empty working needle and
    the flag raised, leaves the state as it found it. *)
Lemma lone_turn_row st t :
  Js.toLowerCase t = "turn" -> RowStart st ->
  bind (runTokens st [t]) (fun st' => Ok (endOfLine st')) = Ok st.
Proof.
  intros Ht [Hr Hf]. cbn [runTokens hd_error].
  unfold processToken. rewrite Ht.
  change (bind (match bind (execTechnique "turn" (mkTechnique "k" 0 0 true) st)
                            (fun st' => Ok (st', false)) with
                | Ok (st', _) => Ok st'
                | Throw e => Throw e
                end) (fun st' => Ok (endOfLine st')) = Ok st).
  rewrite execTechnique_eq. cbn [kill add cursor_dir killLoop].
  rewrite grow_0. cbn [bind]. f_equal.
  destruct st as [ns es r l c f]; simpl in Hr, Hf; subst r f.
  destruct l; reflexivity.
Qed.

End CompilerOutcome.

Section CompilerExtras.
Import Compiler Exec Shape Invariant WellFormed.

(** X1. Every failure of [parsePattern] is raised by one token the loop
    arrived at, and in one of two ways only: the token is no cast-on, no key
    of the technique table, no inherited property name and not of the shape
    [c...c], and the message names it as an unknown stitch; or the token is a
    technique of the table that consumes more stitches than the holding
    needle has, and the message says that the left needle is empty. *)
Theorem compile_failure_cause (pattern : string) :
  success (parsePattern pattern) = false ->
  exists st s rest rows,
    Reach (tokenRows pattern) st (s :: rest) rows /\
    ((error (parsePattern pattern)
        = Some (unknownStitchMessage (Js.toLowerCase s)) /\
      lookupTechnique (Js.toLowerCase s) = Absent /\
      Js.startsWith (Js.toLowerCase s) "co" = false /\
      Js.startsWith (Js.toLowerCase s) "c"
        && Js.endsWithChar (Js.toLowerCase s) "c"%char = false) \/
     (error (parsePattern pattern)
        = Some (emptyNeedleMessage (Js.toLowerCase s)) /\
      exists tech, lookupTechnique (Js.toLowerCase s) = Own tech /\
                   List.length (leftNeedle st) < kill tech)).
Proof.
  rewrite parsePattern_rows.
  destruct (runRows initialState (tokenRows pattern)) as [final|m] eqn:E;
    simpl; [discriminate|intros _].
  destruct (compile_raise _ _ E) as (st & s & rest & rows & HR & Hstep).
  exists st, s, rest, rows. split; [exact HR|].
  apply processToken_Throw in Hstep as [(-> & H)|(-> & H)]; [left|right];
    (split; [reflexivity|exact H]).
Qed.

Lemma compile_failure_cause_witness :
  exists st s rest rows,
    Exec.Reach (Compiler.tokenRows "co 1 k2tog") st (s :: rest) rows /\
    ((Compiler.error (Compiler.parsePattern "co 1 k2tog")
        = Some (Compiler.unknownStitchMessage (Js.toLowerCase s)) /\
      Compiler.lookupTechnique (Js.toLowerCase s) = Compiler.Absent /\
      Js.startsWith (Js.toLowerCase s) "co" = false /\
      Js.startsWith (Js.toLowerCase s) "c"
        && Js.endsWithChar (Js.toLowerCase s) "c"%char = false) \/
     (Compiler.error (Compiler.parsePattern "co 1 k2tog")
        = Some (Compiler.emptyNeedleMessage (Js.toLowerCase s)) /\
      exists tech,
        Compiler.lookupTechnique (Js.toLowerCase s) = Compiler.Own tech /\
        List.length (Compiler.leftNeedle st) < Compiler.kill tech)).
Proof. apply (compile_failure_cause "co 1 k2tog"). reflexivity. Defined.

(** X2. A technique of the table that asks for more stitches than the
    holding needle has makes the whole compile fail with the empty-needle
    message, however many stitches are there: nothing is consumed in part,
    and the nodes the step had already created are dropped with the rest. *)
Theorem short_needle_fails (pattern : string) st s rest rows tech :
  Reach (tokenRows pattern) st (s :: rest) rows ->
  lookupTechnique (Js.toLowerCase s) = Own tech ->
  List.length (leftNeedle st) < kill tech ->
  parsePattern pattern =
    mkResult [] [] false (Some (emptyNeedleMessage (Js.toLowerCase s))).
Proof.
  intros HR Hlook Hlt.
  assert (Hk : 0 < kill tech) by lia.
  apply (Reach_throw _ _ _ _ _ _ HR).
  destruct (killing_technique _ _ Hlook Hk) as [Hco Hcur].
  unfold processToken. rewrite Hco, Hlook, execTechnique_eq, Hcur.
  rewrite killLoop_underflow; [reflexivity|exact Hlt|exact Hk].
Qed.

Lemma short_needle_fails_witness :
  Compiler.parsePattern ("co 2" ++ String Compiler.newline "k k3tog") =
    Compiler.mkResult [] [] false
      (Some "Left needle is empty while processing kill stitches for k3tog").
Proof.
  refine (short_needle_fails
            ("co 2" ++ String Compiler.newline "k k3tog")
            _ "k3tog" [] [] (Compiler.mkTechnique "k" 3 1 false) _ _ _).
  - eapply (Exec.Reach_token _ _ "k" ["k3tog"] [] _ false).
    + apply Exec.Reach_line.
      eapply (Exec.Reach_token _ _ "co" ["2"] [["k"; "k3tog"]] _ true).
      * apply Exec.Reach_start. reflexivity.
      * reflexivity.
    + reflexivity.
  - reflexivity.
  - simpl. lia.
Defined.

(** X3. The graph of a successful compile is simple and ordered by creation:
    no edge occurs twice, and every edge, horizontal or vertical, goes from
    a node to a node created later, both being nodes of the result.  So
    there is no self-loop and no cycle. *)
Theorem compiled_graph_simple (pattern : string) :
  success (parsePattern pattern) = true ->
  let r := parsePattern pattern in
  NoDup (edges r) /\
  (forall e, In e (edges r) ->
             source e < target e /\ target e < List.length (nodes r)).
Proof.
  intros Hs r. unfold r. revert Hs. rewrite parsePattern_rows.
  destruct (runRows initialState (tokenRows pattern)) as [final|] eqn:E;
    simpl; [intros _|discriminate].
  pose proof (compile_Inv _ _ E) as (Hid & _ & _).
  assert (Hlen : List.length (allNodes final) = count final).
  { rewrite <- (length_map id), Hid, length_seq. reflexivity. }
  destruct (runRows_Simple _ _ _ Simple_initial E) as [(_ & _ & He & _) Hd].
  split; [exact Hd|].
  intros e Hin. rewrite Forall_forall in He. rewrite Hlen. now apply He.
Qed.

Lemma compiled_graph_simple_witness :
  let r := Compiler.parsePattern
             ("co 3" ++ String Compiler.newline "k2tog kfb") in
  NoDup (Compiler.edges r) /\
  (forall e, In e (Compiler.edges r) ->
             Compiler.source e < Compiler.target e /\
             Compiler.target e < List.length (Compiler.nodes r)).
Proof.
  apply (compiled_graph_simple
           ("co 3" ++ String Compiler.newline "k2tog kfb")).
  reflexivity.
Defined.

(** X4. At every configuration the compiler goes through, the two needles
    together hold existing stitches, none of them twice, and no stitch that
    a technique has consumed (the source of a vertical edge) is on a needle:
    a stitch is worked at most once. *)
Theorem needles_hold_live_stitches (pattern : string) st tokens rows :
  Reach (tokenRows pattern) st tokens rows ->
  NoDup (leftNeedle st ++ rightNeedle st) /\
  Forall (fun s => s < count st) (leftNeedle st ++ rightNeedle st) /\
  (forall e, In e (allEdges st) -> edge_type e = vertical ->
             ~ In (source e) (leftNeedle st ++ rightNeedle st)).
Proof.
  intros HR. destruct (Reach_Simple _ _ _ _ HR) as [(Hb & Hd & _ & Hv) _].
  auto.
Qed.

Lemma needles_hold_live_stitches_witness :
  let st := Compiler.castOnLoop 2 Compiler.initialState in
  NoDup (Compiler.leftNeedle st ++ Compiler.rightNeedle st) /\
  Forall (fun s => s < Compiler.count st)
         (Compiler.leftNeedle st ++ Compiler.rightNeedle st) /\
  (forall e, In e (Compiler.allEdges st) ->
             Compiler.edge_type e = Compiler.vertical ->
             ~ In (Compiler.source e)
                  (Compiler.leftNeedle st ++ Compiler.rightNeedle st)).
Proof.
  refine (needles_hold_live_stitches "co 2 k" _ ["k"] [] _).
  eapply (Exec.Reach_token _ _ "co" ["2"; "k"] [] _ true).
  - apply Exec.Reach_start. reflexivity.
  - reflexivity.
Defined.

(** X5. A line that consists of [turn] alone changes nothing: the needles
    are swapped and rotated back at the end of the line.  Two patterns whose
    token rows differ only by such a line compile to the same result. *)
Theorem lone_turn_line_is_void (p1 p2 : string) rows1 rows2 t :
  tokenRows p1 = rows1 ++ [t] :: rows2 ->
  Js.toLowerCase t = "turn" ->
  tokenRows p2 = rows1 ++ rows2 ->
  parsePattern p1 = parsePattern p2.
Proof.
  intros H1 Ht H2. rewrite !parsePattern_rows, H1, H2, !runRows_app.
  destruct (runRows initialState rows1) as [st|m] eqn:E; cbn [bind];
    [|reflexivity].
  assert (HS : RowStart st).
  { eapply runRows_RowStart; [apply Inv_initial| |exact E].
    split; reflexivity. }
  pose proof (lone_turn_row st t Ht HS) as Hrow.
  replace (runRows st ([t] :: rows2)) with (runRows st rows2); [reflexivity|].
  change (runRows st ([t] :: rows2))
    with (bind (runTokens st [t])
               (fun st' => runRows (endOfLine st') rows2)).
  destruct (runTokens st [t]) as [st'|m]; simpl in Hrow |- *;
    [|discriminate].
  inversion Hrow as [Heq]. rewrite Heq. reflexivity.
Qed.

Lemma lone_turn_line_is_void_witness :
  Compiler.parsePattern
    ("co 2" ++ String Compiler.newline
       ("Turn" ++ String Compiler.newline "k k")) =
  Compiler.parsePattern ("co 2" ++ String Compiler.newline "k k").
Proof.
  apply (lone_turn_line_is_void _ _ [["co"; "2"]] [["k"; "k"]] "Turn");
    reflexivity.
Defined.

End CompilerExtras.

(** ** Letter case of a pattern *)
Section LetterCase.
Import Compiler Exec.

Ltac each_char c := destruct c as [[] [] [] [] [] [] [] []].

Lemma lowerChar_idem c : Js.lowerChar (Js.lowerChar c) = Js.lowerChar c.
Proof. each_char c; reflexivity. Qed.

Lemma isSpace_lower c : Js.isSpace (Js.lowerChar c) = Js.isSpace c.
Proof. each_char c; reflexivity. Qed.

Lemma newline_lower c :
  Ascii.eqb (Js.lowerChar c) newline = Ascii.eqb c newline.
Proof. each_char c; reflexivity. Qed.

Lemma digitValue_lower radix c :
  Js.digitValue radix (Js.lowerChar c) = Js.digitValue radix c.
Proof. each_char c; reflexivity. Qed.

Lemma toLowerCase_idem s :
  Js.toLowerCase (Js.toLowerCase s) = Js.toLowerCase s.
Proof.
  induction s as [|c s IH]; simpl; [reflexivity|].
  now rewrite lowerChar_idem, IH.
Qed.

Lemma trimStart_lower s :
  Js.trimStart (Js.toLowerCase s) = Js.toLowerCase (Js.trimStart s).
Proof.
  induction s as [|c s IH]; simpl; [reflexivity|].
  rewrite isSpace_lower. destruct (Js.isSpace c); [exact IH|reflexivity].
Qed.

Lemma trimEnd_lower s :
  Js.trimEnd (Js.toLowerCase s) = Js.toLowerCase (Js.trimEnd s).
Proof.
  induction s as [|c s IH]; simpl; [reflexivity|].
  rewrite IH, isSpace_lower.
  destruct (Js.trimEnd s); simpl; [|reflexivity].
  destruct (Js.isSpace c); reflexivity.
Qed.

Lemma trim_lower s : Js.trim (Js.toLowerCase s) = Js.toLowerCase (Js.trim s).
Proof. unfold Js.trim. now rewrite trimStart_lower, trimEnd_lower. Qed.

Lemma isEmpty_lower s : Js.isEmpty (Js.toLowerCase s) = Js.isEmpty s.
Proof. destruct s; reflexivity. Qed.

Lemma split_lower s :
  Js.split newline (Js.toLowerCase s) = map Js.toLowerCase (Js.split newline s).
Proof.
  induction s as [|c s IH]; simpl; [reflexivity|].
  rewrite newline_lower, IH.
  destruct (Ascii.eqb c newline); [reflexivity|].
  destruct (Js.split newline s); reflexivity.
Qed.

Lemma splitWsFrom_lower s : forall b,
  Js.splitWsFrom b (Js.toLowerCase s) =
  map Js.toLowerCase (Js.splitWsFrom b s).
Proof.
  induction s as [|c s IH]; intros b; simpl; [reflexivity|].
  rewrite isSpace_lower, !IH.
  destruct (Js.isSpace c); [destruct b; reflexivity|].
  destruct (Js.splitWsFrom false s); reflexivity.
Qed.

Lemma filter_map_lower (f : string -> bool) (l : list string) :
  (forall x, f (Js.toLowerCase x) = f x) ->
  filter f (map Js.toLowerCase l) = map Js.toLowerCase (filter f l).
Proof.
  intros Hf. induction l as [|x l IH]; simpl; [reflexivity|].
  rewrite Hf, IH. destruct (f x); reflexivity.
Qed.

Lemma lineTokens_lower s :
  lineTokens (Js.toLowerCase s) = map Js.toLowerCase (lineTokens s).
Proof.
  unfold lineTokens, Js.splitWs. rewrite splitWsFrom_lower.
  apply filter_map_lower. intros x. now rewrite trim_lower, isEmpty_lower.
Qed.

Lemma tokenRows_lower pattern :
  tokenRows (Js.toLowerCase pattern) =
  map (map Js.toLowerCase) (tokenRows pattern).
Proof.
  unfold tokenRows. rewrite trim_lower, split_lower.
  rewrite filter_map_lower
    by (intros x; now rewrite trim_lower, isEmpty_lower).
  rewrite !map_map. apply map_ext. intros line.
  now rewrite trim_lower, lineTokens_lower.
Qed.

Lemma readDigits_lower radix s : forall acc seen,
  Js.readDigits radix acc seen (Js.toLowerCase s) =
  Js.readDigits radix acc seen s.
Proof.
  induction s as [|c s IH]; intros acc seen; simpl; [reflexivity|].
  rewrite digitValue_lower. destruct (Js.digitValue radix c); [apply IH|].
  reflexivity.
Qed.

(** The part of [parseInt] after the sign. *)
Lemma unsigned_lower (sign : Z) s :
  (let '(radix, s3) :=
     match Js.toLowerCase s with
     | String "0"%char (String "x"%char r) => (16%Z, r)
     | String "0"%char (String "X"%char r) => (16%Z, r)
     | _ => (10%Z, Js.toLowerCase s)
     end in
   match Js.readDigits radix 0%Z false s3 with
   | Some v => Some (sign * v)%Z
   | None => None
   end) =
  (let '(radix, s3) :=
     match s with
     | String "0"%char (String "x"%char r) => (16%Z, r)
     | String "0"%char (String "X"%char r) => (16%Z, r)
     | _ => (10%Z, s)
     end in
   match Js.readDigits radix 0%Z false s3 with
   | Some v => Some (sign * v)%Z
   | None => None
   end).
Proof.
  assert (Hplain : forall t,
    match Js.readDigits 10 0 false (Js.toLowerCase t) with
    | Some v => Some (sign * v)%Z
    | None => None
    end =
    match Js.readDigits 10 0 false t with
    | Some v => Some (sign * v)%Z
    | None => None
    end) by (intros t; now rewrite readDigits_lower).
  destruct s as [|c r]; [reflexivity|].
  each_char c;
    try (match goal with
         | |- context [Js.toLowerCase (String ?a r)] =>
             exact (Hplain (String a r))
         end).
  destruct r as [|c2 r2]; [reflexivity|].
  each_char c2;
    try (match goal with
         | |- context [Js.toLowerCase (String ?a (String ?b r2))] =>
             exact (Hplain (String a (String b r2)))
         end);
    exact (f_equal (fun o : option Z =>
                      match o with
                      | Some v => Some (sign * v)%Z
                      | None => None
                      end) (readDigits_lower 16%Z r2 0%Z false)).
Qed.

Lemma parseInt_lower s : Js.parseInt (Js.toLowerCase s) = Js.parseInt s.
Proof.
  unfold Js.parseInt. rewrite trimStart_lower.
  destruct (Js.trimStart s) as [|c r]; [reflexivity|].
  each_char c;
    match goal with
    | |- context [Js.toLowerCase (String ?a r)] =>
        first [ exact (unsigned_lower 1%Z (String a r))
              | exact (unsigned_lower (-1)%Z r)
              | exact (unsigned_lower 1%Z r) ]
    end.
Qed.

Lemma processToken_lower st s next :
  processToken st (Js.toLowerCase s) (option_map Js.toLowerCase next) =
  processToken st s next.
Proof.
  unfold processToken. rewrite toLowerCase_idem.
  replace (castOnCount (Js.toLowerCase s) (option_map Js.toLowerCase next))
    with (castOnCount (Js.toLowerCase s) next); [reflexivity|].
  unfold castOnCount. destruct next as [t|]; simpl; [|reflexivity].
  now rewrite parseInt_lower.
Qed.

Lemma runTokens_lower tokens : forall st,
  runTokens st (map Js.toLowerCase tokens) = runTokens st tokens.
Proof.
  remember (List.length tokens) as n eqn:Hn.
  assert (Hle : List.length tokens <= n) by lia. clear Hn.
  revert tokens Hle. induction n as [|n IH]; intros tokens Hle st.
  - destruct tokens; [reflexivity|simpl in Hle; lia].
  - destruct tokens as [|s rest]; [reflexivity|].
    cbn [map]. rewrite !runTokens_cons.
    replace (hd_error (map Js.toLowerCase rest))
      with (option_map Js.toLowerCase (hd_error rest))
      by (destruct rest; reflexivity).
    rewrite processToken_lower.
    destruct (processToken st s (hd_error rest)) as [[st1 skip]|m];
      simpl; [|reflexivity].
    replace (advance skip (map Js.toLowerCase rest))
      with (map Js.toLowerCase (advance skip rest))
      by (destruct skip, rest; reflexivity).
    apply IH. pose proof (advance_length skip rest). simpl in Hle. lia.
Qed.

Lemma runRows_lower rows : forall st,
  runRows st (map (map Js.toLowerCase) rows) = runRows st rows.
Proof.
  induction rows as [|tokens rows IH]; intros st; simpl; [reflexivity|].
  rewrite runTokens_lower.
  destruct (runTokens st tokens); simpl; [apply IH|reflexivity].
Qed.

(** X6. The compiler does not look at letter case: a pattern and its
    lower-cased text give the same result, nodes, edges and error message
    included (a count such as [0X10] after [co] is read alike). *)
Theorem parsePattern_ignores_case (pattern : string) :
  parsePattern (Js.toLowerCase pattern) = parsePattern pattern.
Proof.
  rewrite !parsePattern_rows, tokenRows_lower, runRows_lower. reflexivity.
Qed.

End LetterCase.

(** ** What [doSegmentsIntersect] decides *)
Section SegmentsMeet.
Import Geometry Segments.

Lemma line_param (x1 y1 x2 y2 ex ey : Q) :
  ~ (x2 - x1 == 0)%Q ->
  ((y2 - y1) * (ex - x2) - (x2 - x1) * (ey - y2) == 0)%Q ->
  (ex == x1 + (ex - x1) / (x2 - x1) * (x2 - x1) /\
   ey == y1 + (ex - x1) / (x2 - x1) * (y2 - y1))%Q.
Proof.
  intros Hd Hc. split; [field; exact Hd|].
  transitivity (y1 + (ex - x1) / (x2 - x1) * (y2 - y1)
                - ((y2 - y1) * (ex - x2) - (x2 - x1) * (ey - y2))
                  / (x2 - x1))%Q.
  - field. exact Hd.
  - rewrite Hc. field. exact Hd.
Qed.

Lemma general_position (a1 b1 a2 b2 c1 d1 c2 d2 : Q) :
  let K1 := ((b2 - b1) * (c1 - a2) - (a2 - a1) * (d1 - b2))%Q in
  let K2 := ((b2 - b1) * (c2 - a2) - (a2 - a1) * (d2 - b2))%Q in
  let K3 := ((d2 - d1) * (a1 - c2) - (c2 - c1) * (b1 - d2))%Q in
  let K4 := ((d2 - d1) * (a2 - c2) - (c2 - c1) * (b2 - d2))%Q in
  ~ (K1 - K2 == 0)%Q ->
  (a1 + K3 / (K3 - K4) * (a2 - a1) == c1 + K1 / (K1 - K2) * (c2 - c1) /\
   b1 + K3 / (K3 - K4) * (b2 - b1) == d1 + K1 / (K1 - K2) * (d2 - d1))%Q.
Proof.
  intros K1 K2 K3 K4 Hd.
  assert (Hd' : ~ (K3 - K4 == 0)%Q).
  { intros H. apply Hd. unfold K1, K2, K3, K4 in *.
    transitivity (- ((d2 - d1) * (a1 - c2) - (c2 - c1) * (b1 - d2) -
       ((d2 - d1) * (a2 - c2) - (c2 - c1) * (b2 - d2))))%Q; [ring|].
    rewrite H. ring. }
  unfold K1, K2, K3, K4 in *.
  split; field; split; assumption.
Qed.

Lemma cross_proper a b c a' b' c' :
  same a a' -> same b b' -> same c c' ->
  (cross a b c == cross a' b' c')%Q.
Proof.
  unfold same, cross. intros [H1 H2] [H3 H4] [H5 H6].
  rewrite H1, H2, H3, H4, H5, H6. reflexivity.
Qed.

Lemma orientation_proper a b c a' b' c' :
  same a a' -> same b b' -> same c c' ->
  orientation QOps a b c = orientation QOps a' b' c'.
Proof.
  intros Ha Hb Hc. pose proof (cross_proper _ _ _ _ _ _ Ha Hb Hc) as E.
  destruct (orientation_cases a b c) as [H|[H|H]]; rewrite H; symmetry.
  - apply orientation_0. rewrite <- E. now apply orientation_0.
  - apply orientation_1. rewrite <- E. now apply orientation_1.
  - apply orientation_2. rewrite <- E. now apply orientation_2.
Qed.

Lemma between_proper a w b a' w' b' :
  (a == a')%Q -> (w == w')%Q -> (b == b')%Q ->
  between a w b -> between a' w' b'.
Proof.
  unfold between. intros H1 H2 H3 [[? ?]|[? ?]]; [left|right]; split; lra.
Qed.

Lemma onSegment_proper a b c a' b' c' :
  same a a' -> same b b' -> same c c' ->
  onSegment QOps a b c = onSegment QOps a' b' c'.
Proof.
  unfold same. intros [H1 H2] [H3 H4] [H5 H6]. apply Bool.eq_true_iff_eq.
  rewrite !onSegment_iff. unfold same in *.
  split; intros [Hx Hy];
    (split; [eapply between_proper; [| | |exact Hx]
            |eapply between_proper; [| | |exact Hy]]); lra.
Qed.

Lemma doSegmentsIntersect_proper p1 p2 q1 q2 p1' p2' q1' q2' :
  same p1 p1' -> same p2 p2' -> same q1 q1' -> same q2 q2' ->
  doSegmentsIntersect QOps p1 p2 q1 q2 =
  doSegmentsIntersect QOps p1' p2' q1' q2'.
Proof.
  intros A B C D. unfold doSegmentsIntersect.
  rewrite (orientation_proper p1 p2 q1 p1' p2' q1') by assumption.
  rewrite (orientation_proper p1 p2 q2 p1' p2' q2') by assumption.
  rewrite (orientation_proper q1 q2 p1 q1' q2' p1') by assumption.
  rewrite (orientation_proper q1 q2 p2 q1' q2' p2') by assumption.
  rewrite (onSegment_proper p1 q1 p2 p1' q1' p2') by assumption.
  rewrite (onSegment_proper p1 q2 p2 p1' q2' p2') by assumption.
  rewrite (onSegment_proper q1 p1 q2 q1' p1' q2') by assumption.
  rewrite (onSegment_proper q1 p2 q2 q1' p2' q2') by assumption.
  reflexivity.
Qed.

Lemma same_refl a : same a a.
Proof. split; reflexivity. Qed.

Lemma same_sym a b : same a b -> same b a.
Proof. intros [H1 H2]. split; symmetry; assumption. Qed.

Lemma cross_lerp a b q1 q2 u :
  (cross a b (lerp q1 q2 u) ==
   (1 - u) * cross a b q1 + u * cross a b q2)%Q.
Proof. unfold cross, lerp; simpl. ring. Qed.

Lemma cross_own a b t : (cross a b (lerp a b t) == 0)%Q.
Proof. unfold cross, lerp; simpl. ring. Qed.

(** A common point is on the line of each segment, so neither segment has
    its two ends strictly on one side of the other. *)
Lemma meet_not_separated p1 p2 q1 q2 :
  meet p1 p2 q1 q2 ->
  orientation QOps p1 p2 q1 = orientation QOps p1 p2 q2 ->
  orientation QOps p1 p2 q1 = 0.
Proof.
  intros (t & u & _ & [Hu0 Hu1] & Hw) Hsame.
  assert (E : ((1 - u) * cross p1 p2 q1 + u * cross p1 p2 q2 == 0)%Q).
  { rewrite <- cross_lerp.
    rewrite <- (cross_proper p1 p2 (lerp p1 p2 t) p1 p2 (lerp q1 q2 u));
      auto using same_refl.
    apply cross_own. }
  destruct (orientation_cases p1 p2 q1) as [H|[H|H]]; [exact H| |];
    exfalso; pose proof H as H'; rewrite Hsame in H'.
  - apply orientation_1 in H, H'. nra.
  - apply orientation_2 in H, H'. nra.
Qed.

Lemma meet_sym p1 p2 q1 q2 : meet p1 p2 q1 q2 -> meet q1 q2 p1 p2.
Proof.
  intros (t & u & Ht & Hu & Hw). exists u, t. auto using same_sym.
Qed.

Lemma meet_flip p1 p2 q1 q2 : meet p1 p2 q1 q2 -> meet p2 p1 q1 q2.
Proof.
  intros (t & u & [Ht0 Ht1] & Hu & [Hx Hy]). exists (1 - t)%Q, u.
  split; [split; lra|]. split; [exact Hu|].
  unfold same, lerp in *; simpl in *. split.
  - rewrite <- Hx. ring.
  - rewrite <- Hy. ring.
Qed.

(** A point of the line of a segment that passes the bounding-box test is
    a point of the segment. *)
Lemma onSegment_param p1 p2 e :
  (cross p1 p2 e == 0)%Q -> onSegment QOps p1 e p2 = true ->
  exists t, unit t /\ same e (lerp p1 p2 t).
Proof.
  intros Hc Hon. apply onSegment_iff in Hon as [Hx Hy].
  destruct p1 as [x1 y1], p2 as [x2 y2], e as [ex ey].
  unfold cross, same, lerp, unit, between in *; simpl in *.
  destruct (Qeq_dec (x2 - x1) 0) as [Ex|Ex].
  - destruct (Qeq_dec (y2 - y1) 0) as [Ey|Ey].
    + exists 0%Q. repeat apply conj; lra.
    + assert (Hc' : ((x2 - x1) * (ey - y2) - (y2 - y1) * (ex - x2) == 0)%Q)
        by lra.
      destruct (line_param y1 x1 y2 x2 ey ex Ey Hc') as [Py Px].
      set (s := ((ey - y1) / (y2 - y1))%Q) in *.
      exists s. repeat apply conj; try assumption.
      * destruct (Qlt_le_dec 0 (y2 - y1)); nra.
      * destruct (Qlt_le_dec 0 (y2 - y1)); nra.
  - assert (Hc' : ((y2 - y1) * (ex - x2) - (x2 - x1) * (ey - y2) == 0)%Q)
      by lra.
    destruct (line_param x1 y1 x2 y2 ex ey Ex Hc') as [Px Py].
    set (s := ((ex - x1) / (x2 - x1))%Q) in *.
    exists s. repeat apply conj; try assumption.
    * destruct (Qlt_le_dec 0 (x2 - x1)); nra.
    * destruct (Qlt_le_dec 0 (x2 - x1)); nra.
Qed.

Lemma on_line p1 p2 e :
  ~ ((x p2 - x p1 == 0)%Q /\ (y p2 - y p1 == 0)%Q) ->
  (cross p1 p2 e == 0)%Q ->
  exists s, same e (lerp p1 p2 s).
Proof.
  intros Hd Hc.
  destruct p1 as [x1 y1], p2 as [x2 y2], e as [ex ey].
  unfold cross, same, lerp in *; simpl in *.
  destruct (Qeq_dec (x2 - x1) 0) as [Ex|Ex].
  - assert (Ey : ~ (y2 - y1 == 0)%Q) by tauto.
    assert (Hc' : ((x2 - x1) * (ey - y2) - (y2 - y1) * (ex - x2) == 0)%Q)
      by lra.
    destruct (line_param y1 x1 y2 x2 ey ex Ey Hc') as [Py Px].
    eexists. split; eassumption.
  - assert (Hc' : ((y2 - y1) * (ex - x2) - (x2 - x1) * (ey - y2) == 0)%Q)
      by lra.
    destruct (line_param x1 y1 x2 y2 ex ey Ex Hc') as [Px Py].
    eexists. split; eassumption.
Qed.

Lemma opposite_sides a b c d :
  orientation QOps a b c <> orientation QOps a b d ->
  ~ (cross a b c - cross a b d == 0)%Q /\
  ((cross a b c <= 0 /\ 0 <= cross a b d)%Q \/
   (cross a b d <= 0 /\ 0 <= cross a b c)%Q).
Proof.
  intros Hne.
  destruct (orientation_cases a b c) as [H|[H|H]];
  destruct (orientation_cases a b d) as [H'|[H'|H']];
  try (exfalso; apply Hne; congruence);
  first [apply orientation_0 in H | apply orientation_1 in H
        | apply orientation_2 in H];
  first [apply orientation_0 in H' | apply orientation_1 in H'
        | apply orientation_2 in H'];
  (split; [lra|]); first [left; lra | right; lra].
Qed.

Lemma ratio_unit (K K' : Q) :
  ~ (K - K' == 0)%Q ->
  ((K <= 0 /\ 0 <= K')%Q \/ (K' <= 0 /\ 0 <= K)%Q) ->
  unit (K / (K - K')).
Proof.
  intros Hd Hs. unfold unit.
  assert (E : (K / (K - K') * (K - K') == K)%Q) by (field; exact Hd).
  set (r := (K / (K - K'))%Q) in *.
  destruct (Qlt_le_dec 0 (K - K')); destruct Hs as [[? ?]|[? ?]];
    split; nra.
Qed.

Lemma intersect_meets p1 p2 q1 q2 :
  doSegmentsIntersect QOps p1 p2 q1 q2 = true -> meet p1 p2 q1 q2.
Proof.
  unfold doSegmentsIntersect.
  destruct (negb (orientation QOps p1 p2 q1 =? orientation QOps p1 p2 q2)
            && negb (orientation QOps q1 q2 p1 =? orientation QOps q1 q2 p2))
    eqn:G.
  - intros _. apply andb_true_iff in G as [G1 G2].
    apply negb_true_iff, Nat.eqb_neq in G1, G2.
    apply opposite_sides in G1 as [D1 S1], G2 as [D2 S2].
    exists (cross q1 q2 p1 / (cross q1 q2 p1 - cross q1 q2 p2))%Q,
           (cross p1 p2 q1 / (cross p1 p2 q1 - cross p1 p2 q2))%Q.
    split; [now apply ratio_unit|]. split; [now apply ratio_unit|].
    destruct p1 as [a1 b1], p2 as [a2 b2], q1 as [c1 d1], q2 as [c2 d2].
    exact (general_position a1 b1 a2 b2 c1 d1 c2 d2 D1).
  - clear G.
    destruct ((orientation QOps p1 p2 q1 =? 0) && onSegment QOps p1 q1 p2)
      eqn:B.
    { intros _. apply andb_true_iff in B as [B1 B2].
      apply Nat.eqb_eq, orientation_0 in B1.
      destruct (onSegment_param _ _ _ B1 B2) as (t & Ht & Hs).
      exists t, 0%Q. split; [exact Ht|]. split; [unfold unit; lra|].
      destruct Hs as [Hx Hy]. unfold same, lerp in *; simpl in *.
      split; [rewrite <- Hx|rewrite <- Hy]; ring. }
    destruct ((orientation QOps p1 p2 q2 =? 0) && onSegment QOps p1 q2 p2)
      eqn:C.
    { intros _. apply andb_true_iff in C as [C1 C2].
      apply Nat.eqb_eq, orientation_0 in C1.
      destruct (onSegment_param _ _ _ C1 C2) as (t & Ht & Hs).
      exists t, 1%Q. split; [exact Ht|]. split; [unfold unit; lra|].
      destruct Hs as [Hx Hy]. unfold same, lerp in *; simpl in *.
      split; [rewrite <- Hx|rewrite <- Hy]; ring. }
    destruct ((orientation QOps q1 q2 p1 =? 0) && onSegment QOps q1 p1 q2)
      eqn:D.
    { intros _. apply andb_true_iff in D as [D1 D2].
      apply Nat.eqb_eq, orientation_0 in D1.
      destruct (onSegment_param _ _ _ D1 D2) as (u & Hu & Hs).
      exists 0%Q, u. split; [unfold unit; lra|]. split; [exact Hu|].
      destruct Hs as [Hx Hy]. unfold same, lerp in *; simpl in *.
      split; [rewrite <- Hx|rewrite <- Hy]; ring. }
    destruct ((orientation QOps q1 q2 p2 =? 0) && onSegment QOps q1 p2 q2)
      eqn:E; [|discriminate].
    intros _. apply andb_true_iff in E as [E1 E2].
    apply Nat.eqb_eq, orientation_0 in E1.
    destruct (onSegment_param _ _ _ E1 E2) as (u & Hu & Hs).
    exists 1%Q, u. split; [unfold unit; lra|]. split; [exact Hu|].
    destruct Hs as [Hx Hy]. unfold same, lerp in *; simpl in *.
    split; [rewrite <- Hx|rewrite <- Hy]; ring.
Qed.

Lemma collinear_meet_true p1 p2 q1 q2 :
  meet p1 p2 q1 q2 ->
  (cross p1 p2 q1 == 0)%Q -> (cross p1 p2 q2 == 0)%Q ->
  doSegmentsIntersect QOps p1 p2 q1 q2 = true.
Proof.
  intros (t & u & [Ht0 Ht1] & [Hu0 Hu1] & [Wx Wy]) C1 C2.
  destruct (Qeq_dec (x p2 - x p1) 0) as [Ex|Ex];
    [destruct (Qeq_dec (y p2 - y p1) 0) as [Ey|Ey]|].
  - (* the first segment is a point *)
    set (d := mkPoint (x q2 - x q1)%Q (y q2 - y q1)%Q).
    rewrite (doSegmentsIntersect_proper p1 p2 q1 q2
               (along q1 d u) (along q1 d u) (along q1 d 0) (along q1 d 1)).
    + apply (collinear_overlap_true q1 d u u 0 1 u); unfold between; lra.
    + unfold same, lerp, along in *; simpl in *. split; nra.
    + unfold same, lerp, along in *; simpl in *. split; nra.
    + unfold same, along; simpl. split; ring.
    + unfold same, along; simpl. split; ring.
  - assert (Hd : ~ ((x p2 - x p1 == 0)%Q /\ (y p2 - y p1 == 0)%Q)) by tauto.
    destruct (on_line _ _ _ Hd C1) as (s1 & [X1 Y1]).
    destruct (on_line _ _ _ Hd C2) as (s2 & [X2 Y2]).
    set (d := mkPoint (x p2 - x p1)%Q (y p2 - y p1)%Q).
    rewrite (doSegmentsIntersect_proper p1 p2 q1 q2
               (along p1 d 0) (along p1 d 1) (along p1 d s1) (along p1 d s2)).
    + apply (collinear_overlap_true p1 d 0 1 s1 s2 t);
        [unfold between; lra|].
      assert (E : (t == s1 + u * (s2 - s1))%Q).
      { unfold lerp in *; simpl in *.
        assert (Z : ((t - (s1 + u * (s2 - s1))) * (y p2 - y p1) == 0)%Q).
        { rewrite Y1, Y2 in Wy. lra. }
        apply Qmult_integral in Z as [Z|Z]; [lra|contradiction]. }
      unfold between. destruct (Qlt_le_dec s1 s2); [left|right]; split; nra.
    + unfold same, along; simpl. split; ring.
    + unfold same, along; simpl. split; ring.
    + split; [exact X1|exact Y1].
    + split; [exact X2|exact Y2].
  - assert (Hd : ~ ((x p2 - x p1 == 0)%Q /\ (y p2 - y p1 == 0)%Q)) by tauto.
    destruct (on_line _ _ _ Hd C1) as (s1 & [X1 Y1]).
    destruct (on_line _ _ _ Hd C2) as (s2 & [X2 Y2]).
    set (d := mkPoint (x p2 - x p1)%Q (y p2 - y p1)%Q).
    rewrite (doSegmentsIntersect_proper p1 p2 q1 q2
               (along p1 d 0) (along p1 d 1) (along p1 d s1) (along p1 d s2)).
    + apply (collinear_overlap_true p1 d 0 1 s1 s2 t);
        [unfold between; lra|].
      assert (E : (t == s1 + u * (s2 - s1))%Q).
      { unfold lerp in *; simpl in *.
        assert (Z : ((t - (s1 + u * (s2 - s1))) * (x p2 - x p1) == 0)%Q).
        { rewrite X1, X2 in Wx. lra. }
        apply Qmult_integral in Z as [Z|Z]; [lra|contradiction]. }
      unfold between. destruct (Qlt_le_dec s1 s2); [left|right]; split; nra.
    + unfold same, along; simpl. split; ring.
    + unfold same, along; simpl. split; ring.
    + split; [exact X1|exact Y1].
    + split; [exact X2|exact Y2].
Qed.

Lemma meets_intersect p1 p2 q1 q2 :
  meet p1 p2 q1 q2 -> doSegmentsIntersect QOps p1 p2 q1 q2 = true.
Proof.
  intros Hm.
  destruct (Nat.eq_dec (orientation QOps p1 p2 q1) (orientation QOps p1 p2 q2))
    as [E1|N1].
  - pose proof (meet_not_separated _ _ _ _ Hm E1) as Z1.
    apply collinear_meet_true; [exact Hm| |]; apply orientation_0; congruence.
  - destruct (Nat.eq_dec (orientation QOps q1 q2 p1)
                         (orientation QOps q1 q2 p2)) as [E2|N2].
    + rewrite doSegmentsIntersect_sym. apply meet_sym in Hm.
      pose proof (meet_not_separated _ _ _ _ Hm E2) as Z2.
      apply collinear_meet_true; [exact Hm| |]; apply orientation_0;
        congruence.
    + unfold doSegmentsIntersect.
      apply Nat.eqb_neq in N1, N2. rewrite N1, N2. reflexivity.
Qed.

Lemma doSegmentsIntersect_flip p1 p2 q1 q2 :
  doSegmentsIntersect QOps p2 p1 q1 q2 = doSegmentsIntersect QOps p1 p2 q1 q2.
Proof.
  apply Bool.eq_true_iff_eq. split; intros H;
    apply meets_intersect, meet_flip, intersect_meets, H.
Qed.

End SegmentsMeet.



(** ** The tick handler never lets an edge cross another *)
Section TickCrossings.
Import Geometry Segments Tick.

Lemma setAdd_In s v m : In m (setAdd s v) <-> In m s \/ m = v.
Proof.
  unfold setAdd. destruct (existsb (Nat.eqb v) s) eqn:E.
  - split; [auto|]. intros [H| ->]; [exact H|].
    apply existsb_exists in E as (w & Hw & Hv).
    apply Nat.eqb_eq in Hv. now subst.
  - rewrite in_app_iff. simpl. intuition congruence.
Qed.

Lemma neighbours_In edges n m :
  In m (neighbours edges n) <->
  exists e, In e edges /\
            ((source e = n /\ target e = m) \/
             (target e = n /\ source e = m)).
Proof.
  unfold neighbours.
  assert (G : forall s,
    In m (fold_left
            (fun s e =>
               let s1 := if source e =? n then setAdd s (target e) else s in
               if target e =? n then setAdd s1 (source e) else s1)
            edges s) <->
    In m s \/
    exists e, In e edges /\
              ((source e = n /\ target e = m) \/
               (target e = n /\ source e = m))).
  { induction edges as [|e edges IH]; intros s; simpl.
    - split; [auto|]. intros [H|(e & [] & _)]. exact H.
    - rewrite IH. clear IH.
      assert (H1 : In m (if source e =? n then setAdd s (target e) else s)
                   <-> In m s \/ (source e = n /\ target e = m)).
      { destruct (source e =? n) eqn:E.
        - apply Nat.eqb_eq in E. rewrite setAdd_In. intuition congruence.
        - apply Nat.eqb_neq in E. intuition congruence. }
      assert (H2 : In m (let s1 := if source e =? n
                                   then setAdd s (target e) else s in
                         if target e =? n then setAdd s1 (source e) else s1)
                   <-> In m s \/ (source e = n /\ target e = m)
                       \/ (target e = n /\ source e = m)).
      { cbv zeta. destruct (target e =? n) eqn:E.
        - apply Nat.eqb_eq in E. rewrite setAdd_In, H1. intuition congruence.
        - apply Nat.eqb_neq in E. rewrite H1. intuition congruence. }
      cbv zeta in H2. rewrite H2. split.
      + intros [[H|H]|(e' & He' & H)].
        * now left.
        * right. exists e. split; [now left|exact H].
        * right. exists e'. split; [now right|exact H].
      + intros [H|(e' & [<-|He'] & H)].
        * left. now left.
        * left. now right.
        * right. exists e'. now split. }
  rewrite G. simpl. tauto.
Qed.

Lemma meet_point p r q1 q2 : meet p p q1 q2 -> meet p r q1 q2.
Proof.
  intros (t & u & _ & Hu & [Hx Hy]). exists 0%Q, u.
  split; [unfold unit; lra|]. split; [exact Hu|].
  unfold same, lerp in *; simpl in *. split.
  - rewrite <- Hx. ring.
  - rewrite <- Hy. ring.
Qed.

Lemma shares_false e1 e2 :
  shares e1 e2 = false ->
  source e1 <> source e2 /\ source e1 <> target e2 /\
  target e1 <> source e2 /\ target e1 <> target e2.
Proof.
  unfold shares. rewrite !orb_false_iff, !Nat.eqb_neq. tauto.
Qed.

Lemma shares_sym e1 e2 : shares e1 e2 = shares e2 e1.
Proof.
  unfold shares.
  rewrite (Nat.eqb_sym (source e1) (source e2)),
          (Nat.eqb_sym (source e1) (target e2)),
          (Nat.eqb_sym (target e1) (source e2)),
          (Nat.eqb_sym (target e1) (target e2)).
  destruct (source e2 =? source e1), (target e2 =? source e1),
           (source e2 =? target e1), (target e2 =? target e1); reflexivity.
Qed.

Lemma crossFree_spec edges pos :
  crossFree edges pos = true <->
  forall e1 e2, In e1 edges -> In e2 edges -> shares e1 e2 = false ->
    doSegmentsIntersect QOps (pos (source e1)) (pos (target e1))
                             (pos (source e2)) (pos (target e2)) = false.
Proof.
  unfold crossFree. rewrite forallb_forall. split.
  - intros H e1 e2 H1 H2 Hs. specialize (H e1 H1).
    rewrite forallb_forall in H. specialize (H e2 H2).
    rewrite Hs in H. simpl in H. now apply negb_true_iff in H.
  - intros H e1 H1. apply forallb_forall. intros e2 H2.
    destruct (shares e1 e2) eqn:Hs; [reflexivity|]. simpl.
    apply negb_true_iff. now apply H.
Qed.

Lemma safe_spec edges old n pos :
  safe edges old n pos = true <->
  forall n2 e, In n2 (neighbours edges n) -> In e edges ->
    skips e n n2 = false ->
    doSegmentsIntersect QOps pos (old n2)
      (old (source e)) (old (target e)) = false.
Proof.
  unfold safe. rewrite forallb_forall. split.
  - intros H n2 e H1 H2 Hs. specialize (H n2 H1).
    rewrite forallb_forall in H. specialize (H e H2).
    rewrite Hs in H. simpl in H. now apply negb_true_iff in H.
  - intros H n2 H1. apply forallb_forall. intros e H2.
    destruct (skips e n n2) eqn:Hs; [reflexivity|]. simpl.
    apply negb_true_iff. now apply H.
Qed.

(** An edge at the moved node, drawn from the accepted position, meets no
    edge that has no end in common with it. *)
Lemma moved_edge_clear edges old n p e1 e2 :
  safe edges old n p = true ->
  In e1 edges -> In e2 edges -> shares e1 e2 = false ->
  source e1 = n \/ target e1 = n ->
  doSegmentsIntersect QOps
    (update old n p (source e1)) (update old n p (target e1))
    (old (source e2)) (old (target e2)) = false.
Proof.
  intros Hsafe H1 H2 Hs Hinc.
  rewrite safe_spec in Hsafe.
  apply shares_false in Hs as (A & B & C & D).
  unfold update.
  destruct (Nat.eqb_spec (source e1) n) as [Es|Es];
    destruct (Nat.eqb_spec (target e1) n) as [Et|Et].
  - (* a loop at the node *)
    destruct (doSegmentsIntersect QOps p p (old (source e2))
                (old (target e2))) eqn:E; [|reflexivity].
    apply intersect_meets, (meet_point p (old n)), meets_intersect in E.
    rewrite <- E. apply Hsafe; [|exact H2|].
    + apply neighbours_In. exists e1. split; [exact H1|]. left. now split.
    + unfold skips. rewrite !orb_false_iff, !Nat.eqb_neq.
      repeat apply conj; congruence.
  - apply Hsafe; [|exact H2|].
    + apply neighbours_In. exists e1. split; [exact H1|]. left. now split.
    + unfold skips. rewrite !orb_false_iff, !Nat.eqb_neq.
      repeat apply conj; congruence.
  - rewrite doSegmentsIntersect_flip. apply Hsafe; [|exact H2|].
    + apply neighbours_In. exists e1. split; [exact H1|]. right. now split.
    + unfold skips. rewrite !orb_false_iff, !Nat.eqb_neq.
      repeat apply conj; congruence.
  - destruct Hinc; contradiction.
Qed.

Lemma accepted_crossFree edges old n p :
  crossFree edges old = true -> safe edges old n p = true ->
  crossFree edges (update old n p) = true.
Proof.
  intros Hfree Hsafe. rewrite crossFree_spec in Hfree. apply crossFree_spec.
  intros e1 e2 H1 H2 Hs.
  destruct (Nat.eq_dec (source e1) n) as [A1|A1];
    [|destruct (Nat.eq_dec (target e1) n) as [B1|B1]].
  - pose proof (shares_false _ _ Hs) as (A & B & C & D).
    replace (update old n p (source e2)) with (old (source e2))
      by (unfold update; destruct (Nat.eqb_spec (source e2) n); congruence).
    replace (update old n p (target e2)) with (old (target e2))
      by (unfold update; destruct (Nat.eqb_spec (target e2) n); congruence).
    apply (moved_edge_clear edges); auto.
  - pose proof (shares_false _ _ Hs) as (A & B & C & D).
    replace (update old n p (source e2)) with (old (source e2))
      by (unfold update; destruct (Nat.eqb_spec (source e2) n); congruence).
    replace (update old n p (target e2)) with (old (target e2))
      by (unfold update; destruct (Nat.eqb_spec (target e2) n); congruence).
    apply (moved_edge_clear edges); auto.
  - assert (Hs' : shares e2 e1 = false) by (now rewrite shares_sym).
    destruct (Nat.eq_dec (source e2) n) as [A2|A2];
      [|destruct (Nat.eq_dec (target e2) n) as [B2|B2]].
    + rewrite doSegmentsIntersect_sym.
      replace (update old n p (source e1)) with (old (source e1))
        by (unfold update; destruct (Nat.eqb_spec (source e1) n); congruence).
      replace (update old n p (target e1)) with (old (target e1))
        by (unfold update; destruct (Nat.eqb_spec (target e1) n); congruence).
      apply (moved_edge_clear edges); auto.
    + rewrite doSegmentsIntersect_sym.
      replace (update old n p (source e1)) with (old (source e1))
        by (unfold update; destruct (Nat.eqb_spec (source e1) n); congruence).
      replace (update old n p (target e1)) with (old (target e1))
        by (unfold update; destruct (Nat.eqb_spec (target e1) n); congruence).
      apply (moved_edge_clear edges); auto.
    + unfold update.
      apply Nat.eqb_neq in A1, B1, A2, B2. rewrite A1, B1, A2, B2.
      now apply Hfree.
Qed.

Lemma stepNode_crossFree edges old m :
  crossFree edges old = true -> crossFree edges (stepNode edges old m) = true.
Proof.
  intros H. unfold stepNode. cbv zeta.
  match goal with
  | |- context [if safe ?a ?b ?c ?d then _ else _] =>
      destruct (safe a b c d) eqn:E1
  end; [apply accepted_crossFree; assumption|].
  match goal with
  | |- context [if safe ?a ?b ?c ?d then _ else _] =>
      destruct (safe a b c d) eqn:E2
  end; [apply accepted_crossFree; assumption|exact H].
Qed.

Lemma stepNodes_crossFree edges moves : forall old,
  crossFree edges old = true ->
  crossFree edges (stepNodes edges moves old) = true.
Proof.
  unfold stepNodes. induction moves as [|m moves IH]; intros old H; simpl.
  - exact H.
  - apply IH. now apply stepNode_crossFree.
Qed.

Lemma stepNode_frame edges old m k :
  k <> node m -> stepNode edges old m k = old k.
Proof.
  intros Hk. unfold stepNode. cbv zeta.
  assert (U : forall p, update old (node m) p k = old k).
  { intros p. unfold update.
    destruct (Nat.eqb_spec k (node m)); [contradiction|reflexivity]. }
  repeat match goal with
  | |- context [if safe ?a ?b ?c ?d then _ else _] =>
      destruct (safe a b c d)
  end; auto.
Qed.

Lemma stepNodes_frame edges moves : forall old k,
  ~ In k (map node moves) -> stepNodes edges moves old k = old k.
Proof.
  unfold stepNodes. induction moves as [|m moves IH]; intros old k Hk; simpl.
  - reflexivity.
  - simpl in Hk. rewrite IH by tauto. apply stepNode_frame.
    intros ->. tauto.
Qed.

End TickCrossings.



(** In the layout above node 2 stays in place and node 3 takes its
    proposal. *)
Example tick_refuses_crossing :
  let edges := [Tick.mkLink 0 1; Tick.mkLink 2 3] in
  let old := fun n =>
    match n with
    | 0 => Geometry.mkPoint 0%Q 0%Q
    | 1 => Geometry.mkPoint 100%Q 0%Q
    | 2 => Geometry.mkPoint 50%Q 10%Q
    | _ => Geometry.mkPoint 50%Q 50%Q
    end in
  let moves := [Tick.mkMove 2 0%Q (-80)%Q (1 # 2)%Q 0%Q;
                Tick.mkMove 3 5%Q 5%Q 0%Q 0%Q] in
  Tick.stepNodes edges moves old 2 = Geometry.mkPoint 50%Q 10%Q /\
  Tick.stepNodes edges moves old 3 = Geometry.mkPoint (50 + 5)%Q (50 + 5)%Q.
Proof. split; reflexivity. Qed.

(** ** The remap in the regular case *)
Section RemapRange.
Import Simulation.

Lemma signQ_pos q : (0 < q)%Q -> signQ q = Gt.
Proof. intros H. unfold signQ. apply Qgt_alt. exact H. Qed.

Lemma ltb_Fin p q : ltb (Fin p) (Fin q) = true <-> (p < q)%Q.
Proof.
  simpl. rewrite negb_true_iff. split.
  - intros H. apply Qnot_le_lt. intros L.
    apply Qle_bool_iff in L. congruence.
  - intros H. destruct (Qle_bool q p) eqn:E; [|reflexivity].
    apply Qle_bool_iff in E. lra.
Qed.

(** The extent of finite values: its ends are values of the list and every
    value lies between them. *)
Lemma extentFrom_finite values : forall lo hi,
  Forall (fun v => exists q, v = Fin q) values ->
  exists lo' hi',
    extentFrom (Fin lo) (Fin hi) values = (Fin lo', Fin hi') /\
    In (Fin lo') (Fin lo :: values) /\ In (Fin hi') (Fin hi :: values) /\
    (lo' <= lo)%Q /\ (hi <= hi')%Q /\
    (forall q, In (Fin q) values -> (lo' <= q /\ q <= hi')%Q).
Proof.
  induction values as [|v values IH]; intros lo hi Hall.
  - exists lo, hi. simpl. repeat apply conj; auto; try lra. intros q [].
  - inversion Hall as [|? ? (q & ->) Hrest]; subst.
    cbn [extentFrom isNaN].
    set (lo1 := if ltb (Fin q) (Fin lo) then Fin q else Fin lo).
    set (hi1 := if ltb (Fin hi) (Fin q) then Fin q else Fin hi).
    assert (L : exists a, lo1 = Fin a /\ (a <= lo)%Q /\ (a <= q)%Q /\
                          (a = lo \/ a = q)).
    { unfold lo1. destruct (ltb (Fin q) (Fin lo)) eqn:E.
      - apply ltb_Fin in E. exists q. repeat apply conj; auto; lra.
      - exists lo. repeat apply conj; auto; try lra.
        destruct (Qlt_le_dec q lo) as [H|H]; [|exact H].
        apply ltb_Fin in H. congruence. }
    assert (H : exists b, hi1 = Fin b /\ (hi <= b)%Q /\ (q <= b)%Q /\
                          (b = hi \/ b = q)).
    { unfold hi1. destruct (ltb (Fin hi) (Fin q)) eqn:E.
      - apply ltb_Fin in E. exists q. repeat apply conj; auto; lra.
      - exists hi. repeat apply conj; auto; try lra.
        destruct (Qlt_le_dec hi q) as [H|H]; [|exact H].
        apply ltb_Fin in H. congruence. }
    destruct L as (a & -> & La & Lq & Lin), H as (b & -> & Hb & Hq & Hin).
    destruct (IH a b Hrest) as (lo' & hi' & E & I1 & I2 & B1 & B2 & B3).
    exists lo', hi'. repeat apply conj.
    + exact E.
    + destruct I1 as [I1|I1]; [|right; right; exact I1].
      inversion I1; subst. destruct Lin as [->| ->]; simpl; auto.
    + destruct I2 as [I2|I2]; [|right; right; exact I2].
      inversion I2; subst. destruct Hin as [->| ->]; simpl; auto.
    + lra.
    + lra.
    + intros q' [Hq'|Hq'].
      * inversion Hq'; subst. lra.
      * now apply B3.
Qed.

Lemma extent_finite values :
  values <> [] ->
  Forall (fun v => exists q, v = Fin q) values ->
  exists lo hi,
    extent values = (Fin lo, Fin hi) /\
    In (Fin lo) values /\ In (Fin hi) values /\
    (forall q, In (Fin q) values -> (lo <= q /\ q <= hi)%Q).
Proof.
  intros Hne Hall. destruct values as [|v values]; [congruence|].
  inversion Hall as [|? ? (q & ->) Hrest]; subst. cbn [extent isNaN].
  destruct (extentFrom_finite values q q Hrest)
    as (lo & hi & E & I1 & I2 & B1 & B2 & B3).
  exists lo, hi. repeat apply conj; auto.
  intros q' [Hq'|Hq'].
  - inversion Hq'; subst. lra.
  - now apply B3.
Qed.

Lemma remapCoordinate_regular v lo hi :
  (lo < hi)%Q ->
  remapCoordinate (Fin v) (Fin lo) (Fin hi) =
  Fin ((v - lo) / (hi - lo) * 1000).
Proof.
  intros H. unfold remapCoordinate. simpl.
  rewrite signQ_pos by lra. reflexivity.
Qed.

Lemma ratio_range v lo hi :
  (lo < hi)%Q -> (lo <= v)%Q -> (v <= hi)%Q ->
  (0 <= (v - lo) / (hi - lo) * 1000 /\ (v - lo) / (hi - lo) * 1000 <= 1000)%Q.
Proof.
  intros H L U.
  assert (E : ((v - lo) / (hi - lo) * (hi - lo) == v - lo)%Q)
    by (field; lra).
  set (r := ((v - lo) / (hi - lo))%Q) in *.
  split; nra.
Qed.

Lemma remapNode_regular n vx' vy' lox hix loy hiy :
  x n = Fin vx' -> y n = Fin vy' -> (lox < hix)%Q -> (loy < hiy)%Q ->
  remapNode (Fin lox, Fin hix) (Fin loy, Fin hiy) n =
  mkSimNode (id n)
    (Fin ((vx' - lox) / (hix - lox) * 1000))
    (Fin ((vy' - loy) / (hiy - loy) * 1000))
    (Fin 0) (Fin 0)
    (Fin ((vx' - lox) / (hix - lox) * 1000))
    (Fin ((vy' - loy) / (hiy - loy) * 1000)).
Proof.
  intros Hx Hy Lx Ly. unfold remapNode. cbn [fst snd].
  rewrite Hx, Hy, !remapCoordinate_regular by assumption. reflexivity.
Qed.

End RemapRange.



(** ** The cast-on line written by the input filter *)
Section Numerals.
Import Compiler Filter Shape Digits.

Local Abbreviation text := NilEmpty.string_of_uint.

Lemma readDigits_acc d : forall a,
  Js.readDigits 10 (Z.pos a) true (text d) = Some (Z.pos (Pos.of_uint_acc d a)).
Proof.
  induction d as [|d IH|d IH|d IH|d IH|d IH|d IH|d IH|d IH|d IH|d IH];
    intros a; [reflexivity|..];
    cbn [NilEmpty.string_of_uint Pos.of_uint_acc Js.readDigits];
    match goal with
    | |- context [Js.digitValue 10 ?c] =>
        let v := eval vm_compute in (Js.digitValue 10 c) in
        change (Js.digitValue 10 c) with v
    end; cbv iota; rewrite <- IH; f_equal; lia.
Qed.

Lemma readDigits_numeral d : forall seen,
  d <> Decimal.Nil ->
  Js.readDigits 10 0 seen (text d) = Some (Z.of_N (Pos.of_uint d)).
Proof.
  induction d as [|d IH|d IH|d IH|d IH|d IH|d IH|d IH|d IH|d IH|d IH];
    intros seen Hd; [congruence|..];
    cbn [NilEmpty.string_of_uint Pos.of_uint Js.readDigits];
    match goal with
    | |- context [Js.digitValue 10 ?c] =>
        let v := eval vm_compute in (Js.digitValue 10 c) in
        change (Js.digitValue 10 c) with v
    end; cbv iota;
    try (change (0 * 10 + ?k)%Z with k; apply readDigits_acc).
  destruct d; [reflexivity|..]; apply IH; discriminate.
Qed.

Ltac each_char c := destruct c as [[] [] [] [] [] [] [] []].

Lemma parseInt_digits c s :
  isDigit c = true ->
  match s with String c2 _ => isDigit c2 = true | EmptyString => True end ->
  Js.parseInt (String c s) =
  match Js.readDigits 10 0 false (String c s) with
  | Some v => Some (1 * v)%Z
  | None => None
  end.
Proof.
  intros Hc Hs. each_char c; try discriminate Hc;
    (destruct s as [|c2 s]; [reflexivity|]);
    each_char c2; try discriminate Hs; reflexivity.
Qed.

Lemma text_digits d :
  match text d with
  | String c _ => isDigit c = true
  | EmptyString => True
  end.
Proof. destruct d; exact I || reflexivity. Qed.

Lemma parseInt_text d :
  d <> Decimal.Nil -> Js.parseInt (text d) = Some (Z.of_N (Pos.of_uint d)).
Proof.
  intros Hd. pose proof (readDigits_numeral d false Hd) as H.
  pose proof (text_digits d) as H1.
  destruct (text d) as [|c s] eqn:E; [destruct d; try discriminate; congruence|].
  assert (H2 : match s with String c2 _ => isDigit c2 = true
                       | EmptyString => True end).
  { destruct d; try discriminate; inversion E; subst; apply text_digits. }
  rewrite (parseInt_digits c s H1 H2), H. f_equal. apply Z.mul_1_l.
Qed.

Lemma parseInt_decimal_pos n :
  (0 < n)%Z -> Js.parseInt (decimal n) = Some n.
Proof.
  intros Hn. unfold decimal.
  rewrite parseInt_text by apply Unsigned.to_uint_nonnil.
  rewrite Unsigned.of_to. destruct n; try lia. reflexivity.
Qed.

Lemma text_words d :
  d <> Decimal.Nil ->
  headWord (text d) = text d /\ restWords (text d) = [].
Proof.
  intros _.
  induction d as [|d [IHh IHr]|d [IHh IHr]|d [IHh IHr]|d [IHh IHr]
                  |d [IHh IHr]|d [IHh IHr]|d [IHh IHr]|d [IHh IHr]
                  |d [IHh IHr]|d [IHh IHr]];
    [split; reflexivity|..];
    cbn [NilEmpty.string_of_uint];
    rewrite headWord_char, restWords_char, IHh, IHr by reflexivity;
    split; reflexivity.
Qed.

Lemma split_text d b :
  Js.split newline (text d ++ String newline b) =
  text d :: Js.split newline b.
Proof.
  induction d as [|d IH|d IH|d IH|d IH|d IH|d IH|d IH|d IH|d IH|d IH];
    [reflexivity|..];
    cbn [NilEmpty.string_of_uint];
    match goal with
    | |- context [(String ?c ?a ++ ?r)%string] =>
        change ((String c a ++ r)%string) with (String c (a ++ r))
    end;
    rewrite split_cons, IH; reflexivity.
Qed.

Lemma trimEnd_cons c s :
  Js.trimEnd (String c s) =
  match Js.trimEnd s with
  | EmptyString => if Js.isSpace c then EmptyString else String c EmptyString
  | r => String c r
  end.
Proof. reflexivity. Qed.

Lemma string_app_assoc (a b c : string) :
  ((a ++ b) ++ c = a ++ (b ++ c))%string.
Proof. induction a as [|x a IH]; simpl; [reflexivity|now rewrite IH]. Qed.

Lemma trimEnd_app a b :
  b <> EmptyString -> Js.trimEnd b = b ->
  Js.trimEnd (a ++ b) = (a ++ b)%string.
Proof.
  intros Hb Hfix. induction a as [|c a IH]; [exact Hfix|].
  change ((String c a ++ b)%string) with (String c (a ++ b)).
  rewrite trimEnd_cons, IH.
  destruct (a ++ b)%string eqn:E; [|reflexivity].
  destruct a; [simpl in E; congruence|discriminate].
Qed.

Lemma trimEnd_idem s : Js.trimEnd (Js.trimEnd s) = Js.trimEnd s.
Proof.
  induction s as [|c s IH]; [reflexivity|].
  rewrite trimEnd_cons. destruct (Js.trimEnd s) as [|d r] eqn:E.
  - destruct (Js.isSpace c) eqn:Ec; [reflexivity|].
    rewrite trimEnd_cons. simpl. rewrite Ec. reflexivity.
  - rewrite trimEnd_cons, IH. reflexivity.
Qed.

Lemma trimEnd_head c s :
  Js.isSpace c = false ->
  exists r, Js.trimEnd (String c s) = String c r.
Proof.
  intros E. rewrite trimEnd_cons. destruct (Js.trimEnd s).
  - rewrite E. now exists EmptyString.
  - eexists. reflexivity.
Qed.

Lemma trim_fixed s :
  Js.trimStart (Js.trim s) = Js.trim s /\ Js.trimEnd (Js.trim s) = Js.trim s.
Proof.
  unfold Js.trim. split; [|apply trimEnd_idem].
  pose proof (trimStart_head s) as H.
  destruct (Js.trimStart s) as [|c r]; [reflexivity|].
  destruct (trimEnd_head c r H) as (r' & ->).
  now apply trimStart_keeps.
Qed.

Lemma trim_trim s : Js.trim (Js.trim s) = Js.trim s.
Proof.
  destruct (trim_fixed s) as [H1 H2].
  unfold Js.trim at 1. rewrite H1. exact H2.
Qed.

(** The token rows of a text preceded by a line [co N]. *)
Lemma tokenRows_cast_on_line d filtered :
  d <> Decimal.Nil -> filtered <> EmptyString ->
  Js.trim filtered = filtered ->
  tokenRows ("co " ++ text d ++ newlineString ++ filtered) =
  ["co"; text d] :: tokenRows filtered.
Proof.
  intros Hd Hne Hfix.
  assert (Hend : Js.trimEnd filtered = filtered).
  { rewrite <- Hfix at 1. rewrite (proj2 (trim_fixed filtered)). exact Hfix. }
  unfold tokenRows.
  assert (Htrim : Js.trim ("co " ++ text d ++ newlineString ++ filtered)
                  = ("co " ++ text d ++ newlineString ++ filtered)%string).
  { unfold Js.trim.
    change ("co " ++ text d ++ newlineString ++ filtered)%string
      with (String "c" ("o " ++ text d ++ newlineString ++ filtered)).
    rewrite trimStart_keeps by reflexivity.
    change (String "c" ("o " ++ text d ++ newlineString ++ filtered))
      with ("co " ++ (text d ++ newlineString ++ filtered))%string.
    rewrite <- !string_app_assoc. apply trimEnd_app; assumption. }
  rewrite Htrim, Hfix.
  change (Js.split newline ("co " ++ text d ++ newlineString ++ filtered))
    with (Js.split newline
            (String "c" (String "o" (String " "
               (text d ++ String newline filtered))))).
  rewrite !split_cons.
  change (Ascii.eqb "c" newline) with false.
  change (Ascii.eqb "o" newline) with false.
  change (Ascii.eqb " " newline) with false.
  cbv iota. rewrite split_text. cbn [hd tl filter map].
  assert (Hw : words ("co " ++ text d) = ["co"; text d]).
  { change ("co " ++ text d)%string with ("co" ++ String " " (text d))%string.
    rewrite (proj2 (proj2 (words_app_space "co" " " (text d) eq_refl))).
    rewrite (words_head_rest (text d)).
    destruct (text_words d Hd) as [-> ->].
    destruct d; try congruence; reflexivity. }
  assert (Hnb : Js.isEmpty (Js.trim (String "c" (String "o" (String " " (text d)))))
                = false).
  { destruct (Js.isEmpty (Js.trim _)) eqn:E; [|reflexivity].
    apply blank_words in E.
    change (String "c" (String "o" (String " " (text d))))
      with ("co " ++ text d)%string in E.
    rewrite Hw in E. discriminate. }
  rewrite Hnb. cbn [negb]. cbv iota. cbn [map]. f_equal.
  rewrite lineTokens_words, words_trim. exact Hw.
Qed.

Lemma filtered_supplies pattern n :
  let filtered := Js.trim (removeTurn pattern) in
  Js.isEmpty (hd EmptyString (Js.splitWs filtered))
  || negb (Js.startsWith
             (Js.toLowerCase (hd EmptyString (Js.splitWs filtered))) "co")
  = true ->
  countColumns filtered = Some n -> (0 < n)%Z ->
  tokenRows (filterPattern pattern) = ["co"; decimal n] :: tokenRows filtered.
Proof.
  intros filtered Hfirst Hcount Hn.
  destruct (filterPattern_words pattern) as [Hadd _].
  destruct (Hadd Hfirst) as [-> _]. fold filtered.
  assert (Hnum : castOnNumeral filtered = decimal n).
  { unfold castOnNumeral. rewrite Hcount.
    apply Z.ltb_lt in Hn. rewrite Hn. reflexivity. }
  rewrite Hnum. unfold decimal.
  apply tokenRows_cast_on_line.
  - apply Unsigned.to_uint_nonnil.
  - intros E. rewrite E in Hcount. vm_compute in Hcount.
    inversion Hcount. lia.
  - apply trim_trim.
Qed.

End Numerals.





(** ** Grid seeding of an arbitrary graph *)
Section GridGeneral.
Import Compiler Shape Layout Grid.

Lemma insertById_In store ref sorted r :
  In r (insertById store ref sorted) <-> r = ref \/ In r sorted.
Proof.
  induction sorted as [|s sorted IH]; simpl; [intuition congruence|].
  destruct (idOf store ref <=? idOf store s); simpl;
    [intuition congruence|]. rewrite IH. intuition congruence.
Qed.

Lemma insertById_NoDup store ref sorted :
  NoDup sorted -> ~ In ref sorted -> NoDup (insertById store ref sorted).
Proof.
  induction sorted as [|s sorted IH]; intros Hd Hn; simpl.
  - constructor; [tauto|constructor].
  - destruct (idOf store ref <=? idOf store s).
    + constructor; assumption.
    + inversion Hd; subst. constructor.
      * rewrite insertById_In. simpl in Hn. intuition congruence.
      * apply IH; [assumption|]. simpl in Hn. tauto.
Qed.

Lemma sortById_In store refs r : In r (sortById store refs) <-> In r refs.
Proof.
  unfold sortById. induction refs as [|a refs IH]; simpl; [tauto|].
  rewrite insertById_In, IH. intuition congruence.
Qed.

Lemma sortById_NoDup store refs : NoDup refs -> NoDup (sortById store refs).
Proof.
  unfold sortById. induction 1 as [|a refs Hn Hd IH]; simpl; [constructor|].
  apply insertById_NoDup; [exact IH|].
  intros H. apply Hn. now apply (sortById_In store refs a).
Qed.

Lemma groupLoop_concat store edgeData sorted : forall prev cur groups,
  List.concat (fst (groupLoop store edgeData prev cur groups sorted))
  ++ snd (groupLoop store edgeData prev cur groups sorted)
  = List.concat groups ++ cur ++ sorted.
Proof.
  induction sorted as [|ref sorted IH]; intros prev cur groups.
  - simpl. rewrite app_nil_r. reflexivity.
  - cbn [groupLoop]. destruct cur as [|c cur].
    + rewrite IH. reflexivity.
    + destruct prev as [prevRef|].
      * destruct (hasHorizontalEdge _ _ _); rewrite IH.
        -- rewrite <- !app_assoc. reflexivity.
        -- rewrite concat_app. simpl. rewrite app_nil_r, <- !app_assoc.
           reflexivity.
      * rewrite IH, <- !app_assoc. reflexivity.
Qed.

Lemma groupRows_concat store edgeData sorted :
  List.concat (groupRows store edgeData sorted) = sorted.
Proof.
  unfold groupRows.
  pose proof (groupLoop_concat store edgeData sorted None [] []) as H.
  destruct (groupLoop store edgeData None [] [] sorted) as [groups cur].
  simpl in H. destruct cur.
  - rewrite app_nil_r in H. exact H.
  - rewrite concat_app. simpl. rewrite app_nil_r. exact H.
Qed.

Lemma assign_nth ref p store r :
  nth_error (assign ref p store) r =
  if r =? ref then option_map (place p) (nth_error store r)
  else nth_error store r.
Proof.
  revert ref r. induction store as [|pl store IH]; intros ref r.
  - destruct ref; simpl; destruct (r =? _); destruct r; reflexivity.
  - destruct ref as [|ref]; destruct r as [|r]; simpl; try reflexivity.
    apply IH.
Qed.

Lemma placeRow_other g sx y0 row : forall col store r,
  ~ In r row ->
  nth_error (placeRow g sx y0 col row store) r = nth_error store r.
Proof.
  induction row as [|ref row IH]; intros col store r Hr; [reflexivity|].
  cbn [placeRow]. rewrite IH by (simpl in Hr; tauto).
  rewrite assign_nth. destruct (Nat.eqb_spec r ref); [|reflexivity].
  simpl in Hr. subst. tauto.
Qed.

Lemma placeRow_at g sx y0 row : forall col store k ref,
  NoDup row -> nth_error row k = Some ref ->
  nth_error (placeRow g sx y0 col row store) ref =
  option_map (place (mkPoint (sx + ofNat (col + k) * g)%Q y0))
             (nth_error store ref).
Proof.
  induction row as [|a row IH]; intros col store k ref Hd Hk.
  - destruct k; discriminate.
  - inversion Hd as [|? ? Hn Hd']; subst. cbn [placeRow].
    destruct k as [|k]; simpl in Hk.
    + inversion Hk; subst. rewrite placeRow_other by exact Hn.
      rewrite assign_nth, Nat.eqb_refl, Nat.add_0_r. reflexivity.
    + rewrite (IH (S col) _ k ref Hd' Hk), assign_nth.
      destruct (Nat.eqb_spec ref a) as [->|_].
      * exfalso. apply Hn. eapply nth_error_In; eauto.
      * replace (S col + k) with (col + S k) by lia. reflexivity.
Qed.

Lemma NoDup_app_inv_gen {A : Type} (l1 l2 : list A) :
  NoDup (l1 ++ l2) ->
  NoDup l1 /\ NoDup l2 /\ (forall a, In a l1 -> ~ In a l2).
Proof.
  induction l1 as [|a l1 IH]; simpl; intros H.
  - repeat apply conj; [constructor|exact H|tauto].
  - inversion H as [|? ? Hn Hd]; subst. destruct (IH Hd) as (H1 & H2 & H3).
    rewrite in_app_iff in Hn. repeat apply conj.
    + constructor; tauto.
    + exact H2.
    + intros b [<-|Hb]; [tauto|now apply H3].
Qed.

Lemma processed_In i row r : In r (processed i row) <-> In r row.
Proof.
  unfold processed. destruct (Nat.even i); [tauto|].
  symmetry. apply in_rev.
Qed.

Lemma processed_NoDup i row : NoDup row -> NoDup (processed i row).
Proof.
  unfold processed. destruct (Nat.even i); [tauto|apply NoDup_rev].
Qed.

Lemma placeRows_other g c numRows startY vs rows : forall idx store r,
  ~ In r (List.concat rows) ->
  nth_error (placeRows g c numRows startY vs idx rows store) r =
  nth_error store r.
Proof.
  induction rows as [|row rows IH]; intros idx store r Hr; [reflexivity|].
  cbn [placeRows]. simpl in Hr. rewrite in_app_iff in Hr.
  rewrite IH by tauto. apply placeRow_other.
  fold (processed idx row). rewrite processed_In. tauto.
Qed.

Lemma placeRows_at g c numRows startY vs rows : forall idx store i row k ref,
  NoDup (List.concat rows) ->
  nth_error rows i = Some row ->
  nth_error (processed (idx + i) row) k = Some ref ->
  nth_error (placeRows g c numRows startY vs idx rows store) ref =
  option_map
    (place
       (mkPoint
          (x c - ofZ (Z.of_nat (List.length row) - 1) * g / 2
           + (if Nat.even (idx + i) then 0 else g / 2)
           + ofNat k * g)%Q
          (startY + ofZ (Z.of_nat numRows - 1 - Z.of_nat (idx + i)) * vs)%Q))
    (nth_error store ref).
Proof.
  induction rows as [|row0 rows IH]; intros idx store i row k ref Hd Hi Hk.
  - destruct i; discriminate.
  - simpl in Hd. apply NoDup_app_inv_gen in Hd as (Hd0 & Hd1 & Hdis).
    cbn [placeRows]. fold (processed idx row0).
    destruct i as [|i]; simpl in Hi.
    + inversion Hi; subst row0. rewrite Nat.add_0_r in *.
      rewrite placeRows_other.
      * rewrite (placeRow_at _ _ _ _ 0 store k ref);
          [|now apply processed_NoDup|exact Hk].
        reflexivity.
      * apply Hdis. apply nth_error_In in Hk.
        now apply processed_In in Hk.
    + replace (idx + S i) with (S idx + i) in * by lia.
      rewrite (IH (S idx) _ i row k ref Hd1 Hi Hk).
      rewrite placeRow_other; [reflexivity|].
      rewrite processed_In. intros Hin. apply (Hdis ref Hin).
      apply in_concat. exists row. split; [eapply nth_error_In; eauto|].
      apply nth_error_In in Hk. now apply processed_In in Hk.
Qed.

Lemma assign_nodes ref p store :
  map placed_node (assign ref p store) = map placed_node store.
Proof.
  revert ref. induction store as [|pl store IH]; intros ref.
  - destruct ref; reflexivity.
  - destruct ref as [|ref]; simpl; [reflexivity|]. now rewrite IH.
Qed.

Lemma placeRow_nodes g sx y0 row : forall col store,
  map placed_node (placeRow g sx y0 col row store) = map placed_node store.
Proof.
  induction row as [|ref row IH]; intros col store; [reflexivity|].
  cbn [placeRow]. rewrite IH. apply assign_nodes.
Qed.

Lemma placeRows_nodes g c numRows startY vs rows : forall idx store,
  map placed_node (placeRows g c numRows startY vs idx rows store)
  = map placed_node store.
Proof.
  induction rows as [|row rows IH]; intros idx store; [reflexivity|].
  cbn [placeRows]. rewrite IH. apply placeRow_nodes.
Qed.

Lemma rowsOf_concat nodeData edgeData r :
  In r (List.concat (rowsOf nodeData edgeData)) <-> r < List.length nodeData.
Proof.
  unfold rowsOf. rewrite groupRows_concat, sortById_In, in_seq.
  unfold copies. rewrite length_map. lia.
Qed.

Lemma rowsOf_NoDup nodeData edgeData :
  NoDup (List.concat (rowsOf nodeData edgeData)).
Proof.
  unfold rowsOf. rewrite groupRows_concat.
  apply sortById_NoDup, seq_NoDup.
Qed.

Lemma addGridLayout_eq nodeData edgeData g c :
  addGridLayout nodeData edgeData g c =
  placeRows g c (List.length (rowsOf nodeData edgeData))
    (y c - ofZ (Z.of_nat (List.length (rowsOf nodeData edgeData)) - 1)
           * (g * (8 # 10)) / 2)%Q
    (g * (8 # 10))%Q 0 (rowsOf nodeData edgeData) (copies nodeData).
Proof. destruct nodeData; reflexivity. Qed.

Lemma placed_by_row nodeData edgeData g c i row k ref :
  nth_error (rowsOf nodeData edgeData) i = Some row ->
  nth_error (processed i row) k = Some ref ->
  nth_error (addGridLayout nodeData edgeData g c) ref =
  option_map
    (place (gridPoint g c (List.length (rowsOf nodeData edgeData))
                      i (List.length row) k))
    (nth_error (copies nodeData) ref).
Proof.
  intros Hi Hk. rewrite addGridLayout_eq.
  apply (placeRows_at _ _ _ _ _ _ 0 _ i row k ref (rowsOf_NoDup _ _) Hi Hk).
Qed.

Lemma addGridLayout_nodes nodeData edgeData g c :
  map placed_node (addGridLayout nodeData edgeData g c) = nodeData.
Proof.
  rewrite addGridLayout_eq, placeRows_nodes. unfold copies.
  rewrite map_map. simpl. apply map_id.
Qed.

Lemma row_of_ref nodeData edgeData r :
  r < List.length nodeData ->
  exists i row k,
    nth_error (rowsOf nodeData edgeData) i = Some row /\
    nth_error (processed i row) k = Some r.
Proof.
  intros Hlt. apply (rowsOf_concat nodeData edgeData) in Hlt.
  apply in_concat in Hlt as (row & Hrow & Hin).
  apply In_nth_error in Hrow as (i & Hi).
  apply (processed_In i) in Hin. apply In_nth_error in Hin as (k & Hk).
  now exists i, row, k.
Qed.

End GridGeneral.

(** X13. For every list of nodes and of edges, [addGridLayout] returns the
    nodes it was given, in the same order, and every one of them has
    received coordinates. *)
Theorem grid_places_every_node
    (nodeData : list Compiler.Node) (edgeData : list Compiler.Edge)
    (gridSpacing : Q) (center : Layout.Point) :
  map Layout.placed_node
      (Layout.addGridLayout nodeData edgeData gridSpacing center)
    = nodeData /\
  Forall (fun pl => Layout.placed_at pl <> None)
         (Layout.addGridLayout nodeData edgeData gridSpacing center).
Proof.
  pose proof (addGridLayout_nodes nodeData edgeData gridSpacing center)
    as Hnodes.
  split; [exact Hnodes|].
  apply Forall_forall. intros pl Hpl.
  apply In_nth_error in Hpl as (r & Hr).
  assert (Hlt : r < List.length nodeData).
  { rewrite <- Hnodes, length_map. apply nth_error_Some. congruence. }
  destruct (row_of_ref nodeData edgeData r Hlt) as (i & row & k & Hi & Hk).
  rewrite (placed_by_row _ _ gridSpacing center _ _ _ _ Hi Hk) in Hr.
  destruct (nth_error (Grid.copies nodeData) r); [|discriminate].
  inversion Hr. discriminate.
Qed.

(** X14. The position of every node after [addGridLayout]: the node laid
    out at column [k] of row [i] (rows are the groups of the grouping loop,
    taken in order; odd rows are laid out reversed) gets the abscissa
    [center.x - (len - 1) * spacing / 2 + k * spacing], shifted by half a
    spacing on odd rows, and the ordinate of its row, rows being
    [0.8 * spacing] apart, the first row having the largest [y] and the
    grid being centred on [center.y]; no later assignment overwrites it. *)
Theorem grid_position_of_node
    (nodeData : list Compiler.Node) (edgeData : list Compiler.Edge)
    (gridSpacing : Q) (center : Layout.Point)
    (i k ref : nat) (row : list nat) :
  nth_error (Grid.rowsOf nodeData edgeData) i = Some row ->
  nth_error (Grid.processed i row) k = Some ref ->
  exists node,
    nth_error nodeData ref = Some node /\
    nth_error (Layout.addGridLayout nodeData edgeData gridSpacing center) ref
    = Some (Layout.mkPlaced node
              (Some (Grid.gridPoint gridSpacing center
                       (List.length (Grid.rowsOf nodeData edgeData))
                       i (List.length row) k))).
Proof.
  intros Hi Hk.
  assert (Hin : In ref (List.concat (Grid.rowsOf nodeData edgeData))).
  { apply in_concat. exists row. split; [eapply nth_error_In; eauto|].
    apply nth_error_In in Hk. now apply processed_In in Hk. }
  apply rowsOf_concat in Hin.
  destruct (nth_error nodeData ref) as [node|] eqn:En;
    [|apply nth_error_None in En; lia].
  exists node. split; [reflexivity|].
  rewrite (placed_by_row _ _ gridSpacing center _ _ _ _ Hi Hk).
  unfold Grid.copies. rewrite nth_error_map, En. reflexivity.
Qed.

(** The graph of [co 2] followed by a row [k k]: node 3 is laid out first
    in the second row, which is reversed. *)
Lemma grid_position_of_node_witness :
  let r := Compiler.parsePattern ("co 2" ++ String Compiler.newline "k k") in
  let center := Layout.mkPoint 400%Q 300%Q in
  exists node,
    nth_error (Compiler.nodes r) 3 = Some node /\
    nth_error (Layout.addGridLayout (Compiler.nodes r) (Compiler.edges r)
                                    40%Q center) 3
    = Some (Layout.mkPlaced node
              (Some (Grid.gridPoint 40%Q center
                       (List.length (Grid.rowsOf (Compiler.nodes r)
                                                 (Compiler.edges r)))
                       1 (List.length [2; 3]) 0))).
Proof.
  intros r center.
  apply (grid_position_of_node (Compiler.nodes r) (Compiler.edges r)
           40%Q center 1 0 3 [2; 3]); reflexivity.
Defined.

(** ** What the scale search converges to *)
Section ScaleOptimum.
Import Simulation Optimum.
Variable sqrt : Q -> Q.
Variable edges : list SimEdge.
Hypothesis weights : Forall (fun e => (0 < weight e)%Q) edges.

Local Abbreviation objective := (Simulation.objective sqrt edges).
Local Abbreviation A := (sumSquares sqrt edges).
Local Abbreviation B := (sumStretch sqrt edges).

Lemma penalty_stretch e s :
  (0 < weight e)%Q ->
  (penalty e (edgeLength sqrt e * s) ==
   stretch sqrt e * stretch sqrt e * (s * s) - 2 * stretch sqrt e * s + 1)%Q.
Proof.
  intros Hw. unfold penalty, stretch. simpl. field. lra.
Qed.

Lemma objective_quadratic_of (es : list SimEdge) s :
  Forall (fun e => (0 < weight e)%Q) es ->
  (Simulation.objective sqrt es s ==
   sumSquares sqrt es * (s * s) - 2 * sumStretch sqrt es * s
   + inject_Z (Z.of_nat (List.length es)))%Q.
Proof.
  unfold Simulation.objective, sumSquares, sumStretch.
  induction 1 as [|e es' He Hes IH].
  - simpl. ring.
  - cbn [fold_left fold_right List.length].
    rewrite (objective_acc sqrt es' s), IH, (penalty_stretch e s He).
    rewrite Nat2Z.inj_succ, <- Z.add_1_r, inject_Z_plus.
    change (inject_Z 1) with 1%Q. ring.
Qed.

Lemma objective_quadratic s :
  (objective s == A * (s * s) - 2 * B * s
                  + inject_Z (Z.of_nat (List.length edges)))%Q.
Proof. apply objective_quadratic_of. exact weights. Qed.

Lemma slope_sign m :
  (objective (m + epsilon) - objective m ==
   epsilon * (2 * A * m + A * epsilon - 2 * B))%Q.
Proof. rewrite !objective_quadratic. ring. Qed.

Lemma slope_test m :
  (0 < A)%Q ->
  ((objective m < objective (m + epsilon))%Q <-> (threshold sqrt edges < m)%Q).
Proof.
  intros HA. pose proof (slope_sign m) as H.
  assert (E : (2 * (threshold sqrt edges * A) == 2 * B - A * epsilon)%Q).
  { unfold threshold, bestScale. field. lra. }
  set (t := threshold sqrt edges) in *.
  set (a := A) in *. set (b := B) in *.
  set (d := (objective (m + epsilon) - objective m)%Q) in *.
  assert (D : (objective m < objective (m + epsilon) <-> 0 < d)%Q)
    by (unfold d; split; lra).
  rewrite D. clearbody d t a b. unfold epsilon in *.
  split; intros L.
  - assert (P' : (0 < 2 * a * m + a * (1 # 10000) - 2 * b)%Q) by nra.
    nra.
  - assert (P' : (0 < 2 * a * m + a * (1 # 10000) - 2 * b)%Q) by nra.
    nra.
Qed.

Lemma best_is_least s :
  (0 < A)%Q -> (objective (bestScale sqrt edges) <= objective s)%Q.
Proof.
  intros HA. rewrite !objective_quadratic.
  assert (E : (bestScale sqrt edges * A == B)%Q)
    by (unfold bestScale; field; lra).
  set (b := bestScale sqrt edges) in *. clearbody b.
  set (a := A) in *. set (c := B) in *. clearbody a c.
  assert (S0 : (0 <= (s - b) * (s - b))%Q)
    by (destruct (Qlt_le_dec s b); nra).
  assert (Q0 : (0 <= a * ((s - b) * (s - b)))%Q)
    by (apply Qmult_le_0_compat; lra).
  assert (I : (a * (s * s) - 2 * c * s - (a * (b * b) - 2 * c * b)
               == a * ((s - b) * (s - b)))%Q)
    by (rewrite <- E; ring).
  lra.
Qed.


End ScaleOptimum.


(** ** Zoom and pan; the first line parser *)
Section CanvasView.
Import View.

Lemma zoomFactor_pos d : (0 < zoomFactor d)%Q.
Proof. unfold zoomFactor. destruct (Qle_bool 0 d); reflexivity. Qed.

Lemma handle_scale_pos v e : (0 < scale v)%Q -> (0 < scale (handle v e))%Q.
Proof.
  intros H. destruct e as [ex ey d|cx cy|cx cy|]; simpl; try exact H.
  - pose proof (zoomFactor_pos d). nra.
  - destruct (isDragging v); exact H.
Qed.

Lemma run_scale_pos events : forall v,
  (0 < scale v)%Q -> (0 < scale (run v events))%Q.
Proof.
  unfold run. induction events as [|e events IH]; intros v H; simpl.
  - exact H.
  - apply IH. now apply handle_scale_pos.
Qed.

Lemma wheel_anchor v ex ey d :
  (0 < scale v)%Q ->
  (worldX (handle v (Wheel ex ey d)) ex == worldX v ex)%Q /\
  (worldY (handle v (Wheel ex ey d)) ey == worldY v ey)%Q.
Proof.
  intros H. pose proof (zoomFactor_pos d) as Hz.
  unfold worldX, worldY. simpl.
  split; field; split; lra.
Qed.

(** Moves of the mouse during a drag keep what the press recorded. *)
Lemma drag_moves v moves : forall w,
  isDragging w = true -> scale w = scale v ->
  dragStartX w = dragStartX v -> dragStartY w = dragStartY v ->
  lastOffsetX w = lastOffsetX v -> lastOffsetY w = lastOffsetY v ->
  let w' := run w (map (fun m => MouseMove (fst m) (snd m)) moves) in
  isDragging w' = true /\ scale w' = scale v /\
  dragStartX w' = dragStartX v /\ dragStartY w' = dragStartY v /\
  lastOffsetX w' = lastOffsetX v /\ lastOffsetY w' = lastOffsetY v /\
  (forall cx cy, last moves (cx, cy) = (cx, cy) -> moves <> [] ->
     offsetX w' = (lastOffsetX v + (cx - dragStartX v))%Q /\
     offsetY w' = (lastOffsetY v + (cy - dragStartY v))%Q).
Proof.
  induction moves as [|[mx my] moves IH]; intros w Hd Hs Hx Hy Hlx Hly;
    cbn zeta.
  - simpl. repeat apply conj; auto. intros cx cy _ H. congruence.
  - change (run w (map (fun m => MouseMove (fst m) (snd m))
                       ((mx, my) :: moves)))
      with (run (handle w (MouseMove mx my))
                (map (fun m => MouseMove (fst m) (snd m)) moves)).
    set (w1 := handle w (MouseMove mx my)).
    assert (H1 : isDragging w1 = true /\ scale w1 = scale v /\
                 dragStartX w1 = dragStartX v /\
                 dragStartY w1 = dragStartY v /\
                 lastOffsetX w1 = lastOffsetX v /\
                 lastOffsetY w1 = lastOffsetY v /\
                 offsetX w1 = (lastOffsetX v + (mx - dragStartX v))%Q /\
                 offsetY w1 = (lastOffsetY v + (my - dragStartY v))%Q).
    { unfold w1. simpl. rewrite Hd. simpl.
      rewrite Hs, Hx, Hy, Hlx, Hly. repeat apply conj; reflexivity. }
    destruct H1 as (D1 & S1 & X1 & Y1 & LX1 & LY1 & OX1 & OY1).
    destruct (IH w1 D1 S1 X1 Y1 LX1 LY1) as (D & S & X & Y & LX & LY & O).
    repeat apply conj; auto.
    intros cx cy Hlast _. destruct moves as [|m moves'].
    + simpl in Hlast. inversion Hlast; subst. simpl. auto.
    + apply O; [exact Hlast|discriminate].
Qed.

End CanvasView.




Section OriginalParser.
Import Original.

Lemma mapi_ids (lines : list string) : forall k,
  map id (mapi (fun line i => mkNode i line) k lines)
  = seq k (List.length lines).
Proof.
  induction lines as [|l lines IH]; intros k; simpl; [reflexivity|].
  now rewrite IH.
Qed.

Lemma mapi_labels (lines : list string) : forall k,
  map label (mapi (fun line i => mkNode i line) k lines) = lines.
Proof.
  induction lines as [|l lines IH]; intros k; simpl; [reflexivity|].
  now rewrite IH.
Qed.

Lemma mapi_length {A B : Type} (f : A -> nat -> B) (l : list A) : forall k,
  List.length (mapi f k l) = List.length l.
Proof.
  induction l as [|a l IH]; intros k; simpl; [reflexivity|]. now rewrite IH.
Qed.

Lemma mapi_links (lines : list string) : forall k,
  mapi (fun _ i => mkLink i (i + 1)) k lines
  = map (fun i => mkLink i (i + 1)) (seq k (List.length lines)).
Proof.
  induction lines as [|l lines IH]; intros k; simpl; [reflexivity|].
  now rewrite IH.
Qed.

Lemma join_split s : join (Js.split Compiler.newline s) = s.
Proof.
  induction s as [|c s IH]; [reflexivity|].
  rewrite split_cons.
  destruct (Js.split Compiler.newline s) as [|h t] eqn:E;
    [exfalso; now apply (split_nonempty s)|].
  destruct (Ascii.eqb_spec c Compiler.newline) as [->|Hc].
  - change (join (EmptyString :: h :: t))
      with (String Compiler.newline (join (h :: t))).
    now rewrite IH.
  - cbn [hd tl]. destruct t as [|h' t].
    + simpl in IH. simpl. now rewrite IH.
    + change (join (String c h :: h' :: t))
        with (String c (h ++ String Compiler.newline (join (h' :: t)))).
      change (h ++ String Compiler.newline (join (h' :: t)))%string
        with (join (h :: h' :: t)).
      now rewrite IH.
Qed.

End OriginalParser.

(** X18. The line parser of the first version returns one node per line of
    the trimmed text, at least one, with ids [0, 1, ...] in order, the
    labels being the lines (joined by line feeds they give the trimmed text
    back), and the links of the path through the nodes in order: link [i]
    goes from node [i] to node [i + 1]. *)
Theorem parseKnittingPattern_path (text : string) :
  let nodes := fst (Original.parseKnittingPattern text) in
  let links := snd (Original.parseKnittingPattern text) in
  1 <= List.length nodes /\
  map Original.id nodes = seq 0 (List.length nodes) /\
  Original.join (map Original.label nodes) = Js.trim text /\
  links = map (fun i => Original.mkLink i (i + 1))
              (seq 0 (List.length nodes - 1)).
Proof.
  intros nodes links. unfold nodes, links, Original.parseKnittingPattern.
  cbn [fst snd]. rewrite mapi_length, mapi_ids, mapi_labels, mapi_links.
  pose proof (split_nonempty (Js.trim text)) as Hne.
  destruct (Js.split Compiler.newline (Js.trim text)) as [|l lines] eqn:E;
    [congruence|].
  rewrite <- E, join_split, E. cbn [List.length tl].
  replace (S (List.length lines) - 1) with (List.length lines) by lia.
  repeat apply conj; auto. lia.
Qed.

(** ** What [countColumns] counts *)
Section CountingColumns.
Import Compiler Exec Shape Filter Counting.

Lemma plain_not_cast_on t :
  plainTechnique t = true ->
  (String.eqb (Js.toLowerCase t) "co"
   || Js.startsWith (Js.toLowerCase t) "co") = false /\
  exists tech, lookupTechnique (Js.toLowerCase t) = Own tech /\
               addedBy t = add tech.
Proof.
  unfold plainTechnique, addedBy. intros H.
  apply andb_true_iff in H as [Hco Hl]. apply negb_true_iff in Hco.
  split.
  - rewrite Hco, orb_false_r.
    destruct (String.eqb_spec (Js.toLowerCase t) "co") as [E|E];
      [|reflexivity].
    rewrite E in Hco. discriminate.
  - destruct (lookupTechnique (Js.toLowerCase t)) as [tech| |];
      try discriminate. now exists tech.
Qed.

Lemma addedByAll_cons t tokens :
  addedByAll (t :: tokens) = addedBy t + addedByAll tokens.
Proof. reflexivity. Qed.

Lemma countTokens_plain tokens : forall c prev,
  forallb plainTechnique tokens = true ->
  countTokens (Some c) prev tokens
  = Some (c + Z.of_nat (addedByAll tokens))%Z.
Proof.
  induction tokens as [|t tokens IH]; intros c prev H.
  - change (addedByAll []) with 0. cbn [countTokens].
    change (Z.of_nat 0) with 0%Z. now rewrite Z.add_0_r.
  - simpl in H. apply andb_true_iff in H as [Ht Hrest].
    destruct (plain_not_cast_on t Ht) as (Hco & tech & Hl & Ha).
    cbn [countTokens]. cbv zeta. rewrite Hco, Hl. cbn [addOf plus].
    rewrite IH by exact Hrest. f_equal.
    rewrite addedByAll_cons, Ha, Nat2Z.inj_add. ring.
Qed.

Lemma runTokens_plain tokens : forall st st',
  forallb plainTechnique tokens = true ->
  runTokens st tokens = Ok st' ->
  count st' = count st + addedByAll tokens /\
  List.length (allNodes st')
  = List.length (allNodes st) + addedByAll tokens.
Proof.
  induction tokens as [|t tokens IH]; intros st st' H Hrun.
  - simpl in Hrun. inversion Hrun; subst.
    change (addedByAll []) with 0. lia.
  - simpl in H. apply andb_true_iff in H as [Ht Hrest].
    destruct (plain_not_cast_on t Ht) as (Hco & tech & Hl & Ha).
    rewrite runTokens_cons in Hrun. unfold processToken in Hrun.
    rewrite Hco, Hl in Hrun.
    destruct (execTechnique (Js.toLowerCase t) tech st) as [st1|] eqn:E;
      simpl in Hrun; [|discriminate].
    apply IH in Hrun as [Hc Hn]; [|exact Hrest].
    apply execTechnique_Ok in E as [_ ->].
    unfold consume, grow in Hc, Hn;
      cbn [count allNodes] in Hc, Hn.
    rewrite count_swap_or_not in Hc.
    rewrite length_app, length_map, length_seq in Hn.
    assert (Hns : List.length
                    (allNodes (if cursor_dir tech then swapNeedles st else st))
                  = List.length (allNodes st))
      by (destruct (cursor_dir tech); reflexivity).
    rewrite addedByAll_cons, Ha. lia.
Qed.

Lemma countColumns_fold (lines : list string) : forall m,
  Forall (fun line =>
            forallb plainTechnique (lineTokens (Js.trim line)) = true)
         lines ->
  fold_left
    (fun maxColumns line =>
       maxNum maxColumns
              (countTokens (Some 0%Z) None (lineTokens (Js.trim line))))
    lines (Some (Z.of_nat m))
  = Some (Z.of_nat
            (Nat.max m
               (list_max (map (fun line =>
                                 addedByAll (lineTokens (Js.trim line)))
                              lines)))).
Proof.
  induction lines as [|line lines IH]; intros m H.
  - simpl. now rewrite Nat.max_0_r.
  - inversion H as [|? ? Hl Hrest]; subst. cbn [fold_left map].
    rewrite (countTokens_plain _ 0%Z None Hl). cbn [maxNum].
    rewrite Z.add_0_l, <- Nat2Z.inj_max, IH by exact Hrest.
    change (list_max (?a :: ?l)) with (Nat.max a (list_max l)).
    now rewrite Nat.max_assoc.
Qed.

End CountingColumns.

(** X19. For a pattern whose every token names a technique of the table
    other than a cast-on, [countColumns] is the largest number of stitches
    one line creates: it is the greatest, over the lines, of the sum of the
    [add] of the line's techniques, and the compiler, when it gets through
    a line, has created exactly that many nodes for it. *)
Theorem countColumns_counts_created (pattern : string) :
  let lines := Js.split Compiler.newline (Js.trim pattern) in
  let width := fun line =>
    Counting.addedByAll (Compiler.lineTokens (Js.trim line)) in
  Forall (fun line =>
            forallb Counting.plainTechnique
                    (Compiler.lineTokens (Js.trim line)) = true) lines ->
  Filter.countColumns pattern
    = Some (Z.of_nat (list_max (map width lines))) /\
  (forall line st st',
     In line lines ->
     Compiler.runTokens st (Compiler.lineTokens (Js.trim line))
       = Compiler.Ok st' ->
     List.length (Compiler.allNodes st')
       = List.length (Compiler.allNodes st) + width line).
Proof.
  intros lines width H. split.
  - unfold Filter.countColumns. fold lines.
    change (Some 0%Z) with (Some (Z.of_nat 0)) at 2.
    rewrite (countColumns_fold lines 0 H). reflexivity.
  - intros line st st' Hin Hrun. rewrite Forall_forall in H.
    apply (runTokens_plain _ st st' (H line Hin) Hrun).
Qed.

Lemma countColumns_counts_created_witness :
  let pattern := ("k p" ++ String Compiler.newline "kfb K2tog yo")%string in
  let lines := Js.split Compiler.newline (Js.trim pattern) in
  let width := fun line =>
    Counting.addedByAll (Compiler.lineTokens (Js.trim line)) in
  Filter.countColumns pattern
    = Some (Z.of_nat (list_max (map width lines))) /\
  (forall line st st',
     In line lines ->
     Compiler.runTokens st (Compiler.lineTokens (Js.trim line))
       = Compiler.Ok st' ->
     List.length (Compiler.allNodes st')
       = List.length (Compiler.allNodes st) + width line).
Proof.
  apply (countColumns_counts_created
           ("k p" ++ String Compiler.newline "kfb K2tog yo")).
  repeat (apply Forall_cons; [reflexivity|]). apply Forall_nil.
Defined.

(** ** The rows of the grid are runs *)
Section GridRuns.
Import Compiler Shape Layout Grid Runs Invariant.

Lemma runs_cons link a b l :
  runs link (a :: b :: l) =
  if link a b
  then (a :: hd [] (runs link (b :: l))) :: tl (runs link (b :: l))
  else [a] :: runs link (b :: l).
Proof.
  cbn [runs]. destruct l as [|c l].
  - destruct (link a b); reflexivity.
  - destruct (runs link (c :: l)) as [|row rows];
      destruct (link a b); destruct (link b c); reflexivity.
Qed.

Lemma runs_head link a l :
  exists row rows, runs link (a :: l) = (a :: row) :: rows.
Proof.
  revert a. induction l as [|b l IH]; intros a.
  - now exists [], [].
  - rewrite runs_cons. destruct (IH b) as (row & rows & ->).
    destruct (link a b); simpl; eauto.
Qed.

Lemma groupLoop_runs store edgeData l : forall p R0 G,
  let link := fun a b =>
    hasHorizontalEdge edgeData (idOf store a) (idOf store b) in
  fst (groupLoop store edgeData (Some p) (R0 ++ [p]) G l)
  ++ [snd (groupLoop store edgeData (Some p) (R0 ++ [p]) G l)]
  = G ++ (R0 ++ hd [] (runs link (p :: l))) :: tl (runs link (p :: l)).
Proof.
  induction l as [|b l IH]; intros p R0 G link.
  - reflexivity.
  - cbn [groupLoop].
    assert (Hne : exists c cs, R0 ++ [p] = c :: cs)
      by (destruct R0; simpl; eauto).
    destruct Hne as (c & cs & Hc). rewrite Hc, <- Hc.
    rewrite runs_cons. fold link.
    change (hasHorizontalEdge edgeData (idOf store p) (idOf store b))
      with (link p b).
    destruct (link p b).
    + rewrite (IH b (R0 ++ [p]) G). fold link.
      cbn [hd tl]. rewrite <- app_assoc. reflexivity.
    + pose proof (IH b [] (G ++ [R0 ++ [p]])) as H.
      change ([] ++ [b]) with [b] in H. cbv zeta in H. rewrite H.
      fold link.
      destruct (runs_head link b l) as (row & rows & E). rewrite E.
      cbn [hd tl]. rewrite <- app_assoc. reflexivity.
Qed.

Lemma groupLoop_current store edgeData l : forall p R G,
  R <> [] -> snd (groupLoop store edgeData (Some p) R G l) <> [].
Proof.
  induction l as [|b l IH]; intros p R G HR; [exact HR|].
  cbn [groupLoop]. destruct R as [|c cs]; [congruence|].
  destruct (hasHorizontalEdge _ _ _); apply IH; [|discriminate].
  destruct cs; discriminate.
Qed.

Lemma groupRows_runs store edgeData sorted :
  groupRows store edgeData sorted =
  runs (fun a b => hasHorizontalEdge edgeData (idOf store a) (idOf store b))
       sorted.
Proof.
  unfold groupRows. destruct sorted as [|a l]; [reflexivity|].
  cbn [groupLoop]. change ([] ++ [a]) with [a].
  pose proof (groupLoop_runs store edgeData l a [] []) as H.
  cbn [app] in H.
  destruct (groupLoop store edgeData (Some a) [a] [] l) as [G R] eqn:EG.
  cbn [fst snd] in H.
  destruct (runs_head (fun a b => hasHorizontalEdge edgeData
                                    (idOf store a) (idOf store b)) a l)
    as (row & rows & E).
  rewrite E in *. cbn [hd tl] in H.
  destruct R as [|r R].
  - exfalso.
    apply (groupLoop_current store edgeData l a [a] []); [discriminate|].
    now rewrite EG.
  - exact H.
Qed.

Lemma runs_ext link link' l :
  (forall a b, In a l -> In b l -> link a b = link' a b) ->
  runs link l = runs link' l.
Proof.
  induction l as [|a l IH]; intros H; [reflexivity|].
  destruct l as [|b l]; [reflexivity|].
  rewrite !runs_cons, IH, H; simpl; auto.
  intros x y Hx Hy. apply H; now right.
Qed.

Lemma idOf_copies nodeData i :
  map id nodeData = seq 0 (List.length nodeData) ->
  i < List.length nodeData -> idOf (copies nodeData) i = i.
Proof.
  intros Hid Hi. unfold idOf, copies. rewrite nth_error_map.
  destruct (nth_error nodeData i) as [n|] eqn:E;
    [|apply nth_error_None in E; lia].
  simpl. apply (map_nth_error id) in E. rewrite Hid in E.
  rewrite nth_error_nth' with (d := 0) in E by (rewrite length_seq; exact Hi).
  rewrite seq_nth in E by exact Hi. inversion E. reflexivity.
Qed.

Lemma rowsOf_dense nodeData edgeData :
  map id nodeData = seq 0 (List.length nodeData) ->
  rowsOf nodeData edgeData =
  runs (hasHorizontalEdge edgeData) (seq 0 (List.length nodeData)).
Proof.
  intros Hid. unfold rowsOf. rewrite groupRows_runs.
  assert (Hlen : List.length (copies nodeData) = List.length nodeData)
    by (unfold copies; apply length_map).
  rewrite Hlen, sortById_seq
    by (intros i Hi; apply idOf_copies; [exact Hid|lia]).
  apply runs_ext. intros a b Ha Hb. apply in_seq in Ha, Hb.
  rewrite !idOf_copies by (assumption || lia). reflexivity.
Qed.

End GridRuns.

(** X20. The rows of the grid are the maximal runs of nodes joined by
    horizontal edges.  For the graph of a successful compile the row groups
    [addGridLayout] computes are the runs of [0, 1, ..., N-1] cut exactly
    between two consecutive nodes that no horizontal edge joins; together
    they hold every node once, in creation order. *)
Theorem compiled_grid_rows (pattern : string) :
  Compiler.success (Compiler.parsePattern pattern) = true ->
  let r := Compiler.parsePattern pattern in
  Grid.rowsOf (Compiler.nodes r) (Compiler.edges r)
    = Runs.runs (Layout.hasHorizontalEdge (Compiler.edges r))
                (seq 0 (List.length (Compiler.nodes r))) /\
  List.concat (Grid.rowsOf (Compiler.nodes r) (Compiler.edges r))
    = seq 0 (List.length (Compiler.nodes r)).
Proof.
  intros Hs r.
  assert (Hid : map Compiler.id (Compiler.nodes r)
                = seq 0 (List.length (Compiler.nodes r))).
  { unfold r in *. revert Hs. rewrite parsePattern_rows.
    destruct (Compiler.runRows Compiler.initialState
                (Compiler.tokenRows pattern)) as [final|] eqn:E;
      simpl; [intros _|discriminate].
    pose proof (compile_Inv _ _ E) as (Hid & _ & _).
    rewrite <- (length_map Compiler.id), Hid, length_seq. reflexivity. }
  split; [now apply rowsOf_dense|].
  unfold Grid.rowsOf. rewrite groupRows_concat.
  assert (Hlen : List.length (Grid.copies (Compiler.nodes r))
                 = List.length (Compiler.nodes r))
    by (unfold Grid.copies; apply length_map).
  rewrite Hlen. apply sortById_seq.
  intros i Hi. apply idOf_copies; [exact Hid|lia].
Qed.

Lemma compiled_grid_rows_witness :
  let r := Compiler.parsePattern
             ("co 3" ++ String Compiler.newline "k2tog kfb") in
  Grid.rowsOf (Compiler.nodes r) (Compiler.edges r)
    = Runs.runs (Layout.hasHorizontalEdge (Compiler.edges r))
                (seq 0 (List.length (Compiler.nodes r))) /\
  List.concat (Grid.rowsOf (Compiler.nodes r) (Compiler.edges r))
    = seq 0 (List.length (Compiler.nodes r)).
Proof.
  apply (compiled_grid_rows ("co 3" ++ String Compiler.newline "k2tog kfb")).
  reflexivity.
Defined.

(** ** Compiling line after line *)
Section Incremental.
Import Compiler Exec Shape Invariant Filter Growth.

Lemma split_join a b :
  Js.split newline (a ++ String newline b)
  = Js.split newline a ++ Js.split newline b.
Proof.
  induction a as [|c a IH].
  - reflexivity.
  - change ((String c a ++ String newline b)%string)
      with (String c (a ++ String newline b)).
    rewrite !split_cons, IH.
    destruct (Js.split newline a) as [|h t] eqn:E;
      [exfalso; now apply (split_nonempty a)|].
    destruct (Ascii.eqb c newline); reflexivity.
Qed.

Lemma tokenRows_trimmed p :
  tokenRows (Js.trim p) = tokenRows p.
Proof. unfold tokenRows. now rewrite trim_trim. Qed.

Lemma tokenRows_join p q :
  Js.trim p <> EmptyString -> Js.trim q <> EmptyString ->
  tokenRows (Js.trim p ++ String newline (Js.trim q))
  = tokenRows p ++ tokenRows q.
Proof.
  intros Hp Hq. unfold tokenRows at 1.
  assert (Ht : Js.trim (Js.trim p ++ String newline (Js.trim q))
               = (Js.trim p ++ String newline (Js.trim q))%string).
  { unfold Js.trim at 1.
    destruct (trim_fixed p) as [Sp _]. destruct (trim_fixed q) as [_ Eq].
    assert (Hs : Js.trimStart (Js.trim p ++ String newline (Js.trim q))
                 = (Js.trim p ++ String newline (Js.trim q))%string).
    { destruct (Js.trim p) as [|c r] eqn:E; [congruence|].
      simpl in Sp |- *. destruct (Js.isSpace c) eqn:Ec; [|reflexivity].
      exfalso. pose proof (trimStart_head r) as H.
      rewrite Sp in H. congruence. }
    rewrite Hs.
    change (Js.trim p ++ String newline (Js.trim q))%string
      with (Js.trim p ++ (String newline EmptyString ++ Js.trim q))%string.
    rewrite <- string_app_assoc. apply trimEnd_app; assumption. }
  rewrite Ht, split_join, filter_app, map_app.
  rewrite <- (tokenRows_trimmed p), <- (tokenRows_trimmed q).
  unfold tokenRows. rewrite !trim_trim. reflexivity.
Qed.

Lemma Extends_refl st : Extends st st.
Proof. split; exists []; now rewrite app_nil_r. Qed.

Lemma Extends_grow st0 ty ch tech n st :
  Extends st0 st -> Extends st0 (grow ty ch tech n st).
Proof.
  intros [(ns & Hn) (es & He)]. unfold grow; split; cbn [allNodes allEdges].
  - rewrite Hn, <- app_assoc. eauto.
  - rewrite He, <- app_assoc. eauto.
Qed.

Lemma Extends_endOfLine st0 st :
  Extends st0 st -> Extends st0 (endOfLine st).
Proof. unfold endOfLine. destruct (rightNeedle st); auto. Qed.

Lemma Extends_exec st0 stitch tech st st' :
  Extends st0 st -> execTechnique stitch tech st = Ok st' -> Extends st0 st'.
Proof.
  intros H E. apply execTechnique_Ok in E as [_ ->].
  assert (H1 : Extends st0 (if cursor_dir tech then swapNeedles st else st))
    by (destruct (cursor_dir tech); exact H).
  apply (Extends_grow st0 stitch (character tech) tech (add tech)) in H1.
  destruct H1 as [(ns & Hn) (es & He)].
  unfold consume; split; cbn [allNodes allEdges].
  - eauto.
  - rewrite He, <- app_assoc. eauto.
Qed.

Lemma runRows_Extends rows st st' :
  runRows st rows = Ok st' -> Extends st st'.
Proof.
  apply (runRows_keeps (Extends st) (Extends_grow st) (Extends_endOfLine st)
                       (Extends_exec st)).
  apply Extends_refl.
Qed.

End Incremental.

(** X21. Compiling is incremental in the lines.  For two texts that are
    not blank, the token rows of the first followed, on a new line, by the
    second are the rows of the first then those of the second.  So a
    failure of the first is the result of the whole, error message
    included; and when the whole compiles, so does the first, and the nodes
    and the edges of the whole begin with those of the first: adding lines
    never changes what the earlier lines produced. *)
Theorem compile_is_incremental (p q : string) :
  Js.trim p <> EmptyString -> Js.trim q <> EmptyString ->
  let pq := (Js.trim p ++ String Compiler.newline (Js.trim q))%string in
  Compiler.tokenRows pq = Compiler.tokenRows p ++ Compiler.tokenRows q /\
  (Compiler.success (Compiler.parsePattern p) = false ->
   Compiler.parsePattern pq = Compiler.parsePattern p) /\
  (Compiler.success (Compiler.parsePattern pq) = true ->
   Compiler.success (Compiler.parsePattern p) = true /\
   (exists ns, Compiler.nodes (Compiler.parsePattern pq)
               = Compiler.nodes (Compiler.parsePattern p) ++ ns) /\
   (exists es, Compiler.edges (Compiler.parsePattern pq)
               = Compiler.edges (Compiler.parsePattern p) ++ es)).
Proof.
  intros Hp Hq pq. pose proof (tokenRows_join p q Hp Hq) as Hrows.
  fold pq in Hrows. split; [exact Hrows|].
  rewrite !parsePattern_rows, Hrows, runRows_app.
  destruct (Compiler.runRows Compiler.initialState (Compiler.tokenRows p))
    as [st|m] eqn:E; cbn [Compiler.bind].
  - split; [discriminate|].
    destruct (Compiler.runRows st (Compiler.tokenRows q)) as [st'|m'] eqn:E';
      cbn [Compiler.success Compiler.nodes Compiler.edges];
      [intros _|discriminate].
    split; [reflexivity|]. apply (runRows_Extends _ _ _ E').
  - split; [reflexivity|]. cbn [Compiler.success]. discriminate.
Qed.

Lemma compile_is_incremental_witness :
  let pq := (Js.trim "co 2 " ++
             String Compiler.newline (Js.trim " k k"))%string in
  Compiler.tokenRows pq
    = Compiler.tokenRows "co 2 " ++ Compiler.tokenRows " k k" /\
  (Compiler.success (Compiler.parsePattern "co 2 ") = false ->
   Compiler.parsePattern pq = Compiler.parsePattern "co 2 ") /\
  (Compiler.success (Compiler.parsePattern pq) = true ->
   Compiler.success (Compiler.parsePattern "co 2 ") = true /\
   (exists ns, Compiler.nodes (Compiler.parsePattern pq)
               = Compiler.nodes (Compiler.parsePattern "co 2 ") ++ ns) /\
   (exists es, Compiler.edges (Compiler.parsePattern pq)
               = Compiler.edges (Compiler.parsePattern "co 2 ") ++ es)).
Proof.
  apply (compile_is_incremental "co 2 " " k k"); discriminate.
Defined.

(** ** The filter on plain text *)
Section PlainFilter.
Import Compiler Filter Plain.

Lemma plain_char c :
  Js.isWord c || Js.isSpace c = true -> Js.isWord c = negb (Js.isSpace c).
Proof.
  intros H. destruct (Js.isSpace c) eqn:E.
  - now apply space_not_word.
  - rewrite orb_false_r in H. exact H.
Qed.

Lemma turnWordAt_matchesTurn s : turnWordAt s = true -> matchesTurn s = true.
Proof.
  destruct s as [|c1 [|c2 [|c3 [|c4 rest]]]]; try discriminate.
  unfold turnWordAt, matchesTurn.
  destruct (isLetter "t" c1 && isLetter "u" c2 && isLetter "r" c3
            && isLetter "n" c4); [|discriminate].
  simpl. destruct rest as [|c5 rest]; [reflexivity|].
  intros H. now rewrite (space_not_word c5 H).
Qed.

Lemma isLetter_lower l c : isLetter l c = true -> Js.lowerChar c = l.
Proof. unfold isLetter. intros H. now apply Ascii.eqb_eq in H. Qed.

Lemma space_not_letter l c :
  In l ["t"%char; "u"%char; "r"%char; "n"%char] ->
  Js.isSpace c = true -> isLetter l c = false.
Proof.
  intros Hl Hs. destruct (isLetter l c) eqn:E; [|reflexivity].
  destruct (letter_is_word l c Hl E) as [Hw _].
  rewrite (space_not_word c Hs) in Hw. discriminate.
Qed.

(** In plain text a match of the pattern is a whole word [turn]. *)
Lemma matchesTurn_plain s :
  plainText s = true -> matchesTurn s = true ->
  exists c1 c2 c3 c4 rest,
    s = String c1 (String c2 (String c3 (String c4 rest))) /\
    Js.toLowerCase (headWord s) = "turn" /\
    Js.isSpace c1 = false /\
    restWords s = restWords rest /\
    headWord rest = EmptyString /\
    removeTurnFrom 3 true (String c2 (String c3 (String c4 rest)))
    = removeTurnFrom 0 true rest /\
    plainText rest = true.
Proof.
  intros Hp Hm.
  destruct s as [|c1 [|c2 [|c3 [|c4 rest]]]]; try discriminate.
  unfold matchesTurn in Hm.
  apply andb_true_iff in Hm as [Hm H5]. apply andb_true_iff in Hm as [Hm L4].
  apply andb_true_iff in Hm as [Hm L3]. apply andb_true_iff in Hm as [L1 L2].
  destruct (letter_is_word "t" c1 ltac:(simpl; auto) L1) as [W1 S1].
  destruct (letter_is_word "u" c2 ltac:(simpl; auto) L2) as [W2 S2].
  destruct (letter_is_word "r" c3 ltac:(simpl; auto) L3) as [W3 S3].
  destruct (letter_is_word "n" c4 ltac:(simpl; auto) L4) as [W4 S4].
  simpl in Hp. rewrite W1, W2, W3, W4 in Hp. simpl in Hp.
  assert (Hrest : headWord rest = EmptyString).
  { destruct rest as [|c5 rest]; [reflexivity|].
    simpl in Hp. apply andb_true_iff in Hp as [Hc _].
    apply plain_char in Hc. simpl. rewrite Hc in H5.
    apply negb_true_iff in H5. apply negb_false_iff in H5.
    now rewrite H5. }
  exists c1, c2, c3, c4, rest.
  refine (conj eq_refl (conj _ (conj S1 (conj _ (conj Hrest
            (conj eq_refl _)))))).
  - rewrite !headWord_char, Hrest by assumption. simpl.
    now rewrite (isLetter_lower _ _ L1), (isLetter_lower _ _ L2),
                (isLetter_lower _ _ L3), (isLetter_lower _ _ L4).
  - now rewrite !restWords_char by assumption.
  - destruct rest; exact Hp.
Qed.

Lemma keep_cons w ws :
  keep (w :: ws) =
  if String.eqb (Js.toLowerCase w) "turn" then keep ws else w :: keep ws.
Proof.
  unfold keep. simpl. destruct (String.eqb (Js.toLowerCase w) "turn");
    reflexivity.
Qed.

Lemma removeTurnFrom_plain n : forall s,
  String.length s <= n -> plainText s = true ->
  words (removeTurnFrom 0 false s) = keep (words s) /\
  headWord (removeTurnFrom 0 true s) = headWord s /\
  restWords (removeTurnFrom 0 true s) = keep (restWords s).
Proof.
  induction n as [|n IH]; intros s Hlen Hp.
  - destruct s; [|simpl in Hlen; lia]. repeat apply conj; reflexivity.
  - destruct s as [|c s']; [repeat apply conj; reflexivity|].
    pose proof Hp as Hp0.
    simpl in Hp. apply andb_true_iff in Hp as [Hc Hp'].
    apply plain_char in Hc. simpl in Hlen.
    destruct (IH s' ltac:(lia) Hp') as (I1 & I2 & I3).
    refine (conj _ (conj _ _)).
    + cbn [removeTurnFrom negb andb].
      destruct (matchesTurn (String c s')) eqn:Hm.
      * destruct (matchesTurn_plain _ Hp0 Hm)
          as (c1 & c2 & c3 & c4 & rest & Es & Hturn & Hs1 & Hrw & Hhd
              & Hskip & Hpr).
        inversion Es; subst c s'. rewrite Hskip.
        destruct (IH rest ltac:(simpl in Hlen; lia) Hpr) as (_ & J2 & J3).
        rewrite (words_head_rest (removeTurnFrom 0 true rest)), J2, J3, Hhd.
        rewrite (words_head_rest
                   (String c1 (String c2 (String c3 (String c4 rest))))).
        rewrite Hrw.
        destruct (headWord (String c1 (String c2 (String c3 (String c4 rest)))))
          as [|h hs] eqn:Eh; [discriminate Hturn|].
        cbn [Js.isEmpty app]. rewrite keep_cons, Hturn. reflexivity.
      * destruct (Js.isSpace c) eqn:Es.
        -- rewrite Hc. cbn [negb]. rewrite !words_space by exact Es.
           exact I1.
        -- rewrite Hc. cbn [negb]. rewrite !words_char by exact Es.
           rewrite I2, I3, keep_cons.
           destruct (String.eqb (Js.toLowerCase (String c (headWord s')))
                                "turn") eqn:Et; [|reflexivity].
           exfalso. apply String.eqb_eq in Et.
           rewrite <- (headWord_char c s' Es) in Et.
           apply headWord_turn, turnWordAt_matchesTurn in Et. congruence.
    + rewrite removeTurnFrom_word. destruct (Js.isSpace c) eqn:Es.
      * now rewrite !headWord_space.
      * rewrite !headWord_char by exact Es. rewrite Hc. cbn [negb].
        now rewrite I2.
    + rewrite removeTurnFrom_word. destruct (Js.isSpace c) eqn:Es.
      * rewrite !restWords_space by exact Es. rewrite Hc. exact I1.
      * rewrite !restWords_char by exact Es. rewrite Hc. exact I3.
Qed.

Lemma castOnNumeral_word filtered :
  words (castOnNumeral filtered) = [castOnNumeral filtered].
Proof.
  unfold castOnNumeral.
  destruct (countColumns filtered) as [n|]; [|reflexivity].
  destruct (0 <? n)%Z; [|reflexivity].
  unfold decimal. set (d := Pos.to_uint (Z.to_pos n)).
  assert (Hd : d <> Decimal.Nil) by apply DecimalPos.Unsigned.to_uint_nonnil.
  rewrite words_head_rest. destruct (text_words d Hd) as [-> ->].
  destruct d; try congruence; reflexivity.
Qed.

Lemma removeTurn_plain p :
  plainText p = true -> words (removeTurn p) = keep (words p).
Proof.
  intros H. apply (removeTurnFrom_plain (String.length p) p (le_n _) H).
Qed.

End PlainFilter.



(** ** Intersections under scaling and translation *)
Section AffineInvariance.
Import Geometry Segments Affine.

Lemma meet_affine ax bx ay by' p1 p2 q1 q2 :
  meet p1 p2 q1 q2 ->
  meet (affine ax bx ay by' p1) (affine ax bx ay by' p2)
       (affine ax bx ay by' q1) (affine ax bx ay by' q2).
Proof.
  intros (t & u & Ht & Hu & [Hx Hy]). exists t, u.
  split; [exact Ht|]. split; [exact Hu|].
  unfold same, lerp, affine in *; simpl in *. split.
  - transitivity (ax * (x p1 + t * (x p2 - x p1)) + bx)%Q; [ring|].
    rewrite Hx. ring.
  - transitivity (ay * (y p1 + t * (y p2 - y p1)) + by')%Q; [ring|].
    rewrite Hy. ring.
Qed.

Lemma affine_inverse ax bx ay by' p :
  ~ (ax == 0)%Q -> ~ (ay == 0)%Q ->
  same (affine (/ ax) (- bx / ax) (/ ay) (- by' / ay)
               (affine ax bx ay by' p)) p.
Proof.
  intros Hx Hy. unfold same, affine; simpl. split; field; assumption.
Qed.

Lemma meet_proper p1 p2 q1 q2 p1' p2' q1' q2' :
  same p1 p1' -> same p2 p2' -> same q1 q1' -> same q2 q2' ->
  meet p1 p2 q1 q2 -> meet p1' p2' q1' q2'.
Proof.
  intros [A1 A2] [B1 B2] [C1 C2] [D1 D2] (t & u & Ht & Hu & [Hx Hy]).
  exists t, u. split; [exact Ht|]. split; [exact Hu|].
  unfold same, lerp in *; simpl in *.
  rewrite <- A1, <- A2, <- B1, <- B2, <- C1, <- C2, <- D1, <- D2.
  split; assumption.
Qed.

End AffineInvariance.



(** ** No two nodes on one point *)
Section GridDistinct.
Import Compiler Layout Grid.

Lemma ofNat_diff a b : a <> b -> ~ (ofNat a == ofNat b)%Q.
Proof.
  unfold ofNat. intros Hne H. apply Hne.
  apply (proj1 (inject_Z_injective _ _)) in H. lia.
Qed.

Lemma gridPoint_distinct g c numRows i1 len1 k1 i2 len2 k2 :
  ~ (g == 0)%Q ->
  (i1 <> i2 \/ (len1 = len2 /\ k1 <> k2)) ->
  ~ ((x (gridPoint g c numRows i1 len1 k1)
      == x (gridPoint g c numRows i2 len2 k2))%Q /\
     (y (gridPoint g c numRows i1 len1 k1)
      == y (gridPoint g c numRows i2 len2 k2))%Q).
Proof.
  intros Hg Hcase [Hx Hy]. unfold gridPoint in *; cbn [x y] in *.
  destruct (Nat.eq_dec i1 i2) as [->|Hi].
  - destruct Hcase as [Hc|[-> Hk]]; [congruence|].
    apply (ofNat_diff k1 k2 Hk).
    assert (E : ((ofNat k1 - ofNat k2) * g == 0)%Q) by lra.
    apply Qmult_integral in E as [E|E]; [lra|contradiction].
  - assert (Hz : ~ (ofZ (Z.of_nat numRows - 1 - Z.of_nat i1)
                    == ofZ (Z.of_nat numRows - 1 - Z.of_nat i2))%Q).
    { unfold ofZ. intros H. apply (proj1 (inject_Z_injective _ _)) in H.
      lia. }
    apply Hz.
    assert (E : ((ofZ (Z.of_nat numRows - 1 - Z.of_nat i1)
                  - ofZ (Z.of_nat numRows - 1 - Z.of_nat i2))
                 * (g * (8 # 10)) == 0)%Q) by lra.
    apply Qmult_integral in E as [E|E]; [lra|].
    exfalso. apply Hg.
    assert (E' : (g * (8 # 10) * (10 # 8) == 0)%Q) by (rewrite E; ring).
    lra.
Qed.

End GridDistinct.



(** ** The first version of the remap *)

(** X25. The remap of the first version has no fallback.  When all the
    nodes that have an [x] have the same [x], every node comes out with
    [x] and [x_old] not a number; and the later version differs from the
    first only there: a node whose two remapped coordinates are numbers
    gets the same record from both. *)
Theorem original_remap_has_no_fallback (nodes : list Simulation.SimNode) :
  (forall c o,
     Forall (fun n => Simulation.x n = Simulation.NaN \/
                      exists q, Simulation.x n = Simulation.Fin q /\
                                (q == c)%Q) nodes ->
     In o (OriginalRemap.remapNodes nodes) ->
     Simulation.x o = Simulation.NaN /\
     Simulation.x_old o = Simulation.NaN) /\
  (forall i o,
     nth_error (OriginalRemap.remapNodes nodes) i = Some o ->
     Simulation.isNaN (Simulation.x o) || Simulation.isNaN (Simulation.y o)
       = false ->
     nth_error (Simulation.remapNodes nodes) i = Some o).
Proof.
  split.
  - intros c o Hall Ho. unfold OriginalRemap.remapNodes in Ho.
    apply in_map_iff in Ho as (n & <- & Hn).
    unfold OriginalRemap.remapNode. cbn [Simulation.x Simulation.x_old].
    assert (E : Simulation.remapCoordinate (Simulation.x n)
                  (fst (Simulation.extent (map Simulation.x nodes)))
                  (snd (Simulation.extent (map Simulation.x nodes)))
                = Simulation.NaN).
    { apply remapCoordinate_degenerate with (c := c).
      - rewrite Forall_forall in Hall. now apply Hall.
      - assert (Hx : Forall (fun v => v = Simulation.NaN \/
                                      exists q, v = Simulation.Fin q /\
                                                (q == c)%Q)
                            (map Simulation.x nodes))
          by (apply Forall_map; exact Hall).
        destruct (extent_degenerate c _ Hx) as [->|(a & b & -> & Ha & Hb)].
        + left. split; reflexivity.
        + right. exists a, b. auto. }
    rewrite E. split; reflexivity.
  - intros i o Ho Hnum.
    unfold OriginalRemap.remapNodes in Ho. unfold Simulation.remapNodes.
    rewrite nth_error_map in *.
    destruct (nth_error nodes i) as [n|]; [|discriminate].
    simpl in *. inversion Ho; subst o. f_equal.
    unfold OriginalRemap.remapNode in *. unfold Simulation.remapNode.
    cbn [Simulation.x Simulation.y] in Hnum. rewrite Hnum. reflexivity.
Qed.

(** Two nodes on one vertical line: the first version leaves [x] without a
    value, the later one falls back to [(500, 300)]. *)
Example original_remap_vertical_line :
  let nodes :=
    [Simulation.mkSimNode 0 (Simulation.Fin 400) (Simulation.Fin 300)
       Simulation.NaN Simulation.NaN Simulation.NaN Simulation.NaN;
     Simulation.mkSimNode 1 (Simulation.Fin 400) (Simulation.Fin 340)
       Simulation.NaN Simulation.NaN Simulation.NaN Simulation.NaN] in
  map Simulation.x (OriginalRemap.remapNodes nodes)
    = [Simulation.NaN; Simulation.NaN] /\
  map Simulation.x (Simulation.remapNodes nodes)
    = [Simulation.Fin 500; Simulation.Fin 500].
Proof. split; reflexivity. Qed.
